(** * Gantt timeline widget: hierarchy ordering, timeline geometry,
      end-date drag and colour resolution

    A shallow embedding of [GanttView/GanttViewControl.tsx] and of the colour
    mapping of [GanttView/index.ts].

    Conventions of the embedding.
    - A JavaScript [Date] is its epoch-millisecond value, an integer ([Z]);
      [Date | null] is [option Z].  Calendar fields are read in UTC with the
      proleptic Gregorian calendar; the finite range of [Date] is not
      modelled.
    - Strings are sequences of 8-bit characters; [toLowerCase], [trim] and
      the regular expressions act on the ASCII range.
    - Pixel counts are integers.  Percentages are rationals ([Q]): the
      double-precision quotient of the source is read as the exact quotient.
    - Keys of the plain objects used as dictionaries are assumed not to be
      member names of [Object.prototype]. *)

From Stdlib Require Import ZArith QArith Qround Qfield Lqa Lia Ascii String List Sorted.
From stdpp Require Import base option list gmap strings pretty.

Open Scope string_scope.
Open Scope list_scope.
Open Scope Z_scope.

(** ** String primitives *)

Module Js.

(** [String.prototype.toLowerCase], ASCII letters. *)
Definition lowerAscii (c : ascii) : ascii :=
  let n := nat_of_ascii c in
  if ((65 <=? n)%nat && (n <=? 90)%nat)%bool then ascii_of_nat (n + 32) else c.

Fixpoint toLowerCase (s : string) : string :=
  match s with
  | EmptyString => EmptyString
  | String c s' => String (lowerAscii c) (toLowerCase s')
  end.

(** [a < b] on strings: lexicographic on character codes. *)
Definition str_lt (a b : string) : bool := String.ltb a b.

(** [x || ""] for [x : string | null]. *)
Definition orEmpty (x : option string) : string := default "" x.

End Js.

(** ** Rows *)

(** [type GanttRow]. [sourceRowType] is never written by the materializer and
    is left out. *)
#[warnings="-register-all"]
Inductive GanttRow : Type := mkGanttRow {
  id : string;
  sourceId : option string;
  name : string;
  assigned : option string;
  startDate : option Z;
  endDate : option Z;
  rowType : option string;
  progress : option Q;
  parentId : string;
  level : option nat;
  milestones : list GanttRow
}.

Inductive SortField := SortName | SortStartDate | SortEndDate.
Inductive SortDir := Asc | Desc.
Inductive ZoomLevel := Month | Week | Year.

(** The object [row] after [row.level = level; row.milestones = ms]. *)
Definition processed (row : GanttRow) (lvl : nat) (ms : list GanttRow) : GanttRow :=
  mkGanttRow (id row) (sourceId row) (name row) (assigned row) (startDate row)
    (endDate row) (rowType row) (progress row) (parentId row) (Some lvl) ms.

(** [(k.rowType || "").toLowerCase() === "milestone"] *)
Definition isMilestone (k : GanttRow) : bool :=
  String.eqb (Js.toLowerCase (Js.orEmpty (rowType k))) "milestone".

(** ** Hierarchy orderer *)

Section Orderer.

(** [String.prototype.localeCompare] of the host, used only as the last
    tie-breaker of [compare]. *)
Variable localeCompare : string → string → Z.

Variable sortField : SortField.
Variable sortDir : SortDir.

(** Values returned by [valFor]: a lower-cased name or a number. *)
Inductive SortVal := VStr (s : string) | VNum (n : Z).

Definition MAX_SAFE_INTEGER : Z := 9007199254740991.

Definition valFor (r : GanttRow) : SortVal :=
  match sortField with
  | SortName => VStr (Js.toLowerCase (name r))
  | SortStartDate => VNum (default MAX_SAFE_INTEGER (startDate r))
  | SortEndDate => VNum (default MAX_SAFE_INTEGER (endDate r))
  end.

(** [av < bv]; both operands always come from the same sort field. *)
Definition val_lt (a b : SortVal) : bool :=
  match a, b with
  | VStr x, VStr y => Js.str_lt x y
  | VNum x, VNum y => Z.ltb x y
  | _, _ => false
  end.

Definition compare (a b : GanttRow) : Z :=
  let dir := match sortDir with Asc => 1 | Desc => -1 end in
  let av := valFor a in
  let bv := valFor b in
  if val_lt av bv then -1 * dir
  else if val_lt bv av then 1 * dir
  else
    let an := Js.toLowerCase (name a) in
    let bn := Js.toLowerCase (name b) in
    if Js.str_lt an bn then -1
    else if Js.str_lt bn an then 1
    else localeCompare (id a) (id b).

(** [Array.prototype.sort(cmp)]: a stable sort, here by insertion. An
    element is placed before the first element it does not exceed. *)
Fixpoint insertBy (cmp : GanttRow → GanttRow → Z) (x : GanttRow)
    (l : list GanttRow) : list GanttRow :=
  match l with
  | [] => [x]
  | y :: l' => if Z.leb (cmp x y) 0 then x :: y :: l' else y :: insertBy cmp x l'
  end.

Fixpoint sortBy (cmp : GanttRow → GanttRow → Z) (l : list GanttRow) : list GanttRow :=
  match l with
  | [] => []
  | x :: l' => insertBy cmp x (sortBy cmp l')
  end.

Definition sortList (l : list GanttRow) : list GanttRow := sortBy compare l.

(** [props.data.filter((r) => r.name !== "val")] *)
Definition notSentinel (r : GanttRow) : bool := negb (String.eqb (name r) "val").

(** The index [childrenMap]: parent id (or [""]) to children in data order. *)
Definition childrenMap (data : list GanttRow) : gmap string (list GanttRow) :=
  foldl (λ m r, let pid := parentId r in
                <[pid := default [] (m !! pid) ++ [r]]> m) ∅ data.

(** [childrenMap[key] || []] *)
Definition kidsOf (cm : gmap string (list GanttRow)) (key : string) : list GanttRow :=
  default [] (cm !! key).

Definition milestoneKids (cm : gmap string (list GanttRow)) (row : GanttRow) :=
  List.filter isMilestone (kidsOf cm (id row)).

Definition taskKids (cm : gmap string (list GanttRow)) (row : GanttRow) :=
  List.filter (λ k, negb (isMilestone k)) (kidsOf cm (id row)).

(** [process(row, level)], returning the rows it pushes on [result].  The
    recursion of the source is bounded by [fuel]; [None] stands for a
    recursion that does not come back. *)
Fixpoint process (fuel : nat) (cm : gmap string (list GanttRow))
    (row : GanttRow) (lvl : nat) : option (list GanttRow) :=
  match fuel with
  | O => None
  | S f =>
      rest ← mapM (λ child, process f cm child (S lvl)) (sortList (taskKids cm row));
      Some (processed row lvl (milestoneKids cm row) :: concat rest)
  end.

Definition rootsOf (cm : gmap string (list GanttRow)) : list GanttRow :=
  List.filter (λ r, negb (isMilestone r)) (kidsOf cm "").

Definition orderGanttRows (data0 : list GanttRow) : option (list GanttRow) :=
  let data := List.filter notSentinel data0 in
  let cm := childrenMap data in
  rest ← mapM (λ r, process (S (length data)) cm r 0) (sortList (rootsOf cm));
  Some (concat rest).

End Orderer.

(** A code-point comparison standing in for [localeCompare] in examples. *)
Definition codePointCompare (a b : string) : Z :=
  match String.compare a b with Lt => -1 | Eq => 0 | Gt => 1 end.

Definition row (i n : string) (s e : option Z) (t p : string) : GanttRow :=
  mkGanttRow i None n None s e (Some t) None p None [].

(** ** Dates: the calendar of ECMAScript, in UTC *)

Module JsDate.

Definition msPerDay : Z := 86400000.

Definition Day (t : Z) : Z := t / msPerDay.
Definition TimeWithinDay (t : Z) : Z := t mod msPerDay.

Definition DayFromYear (y : Z) : Z :=
  365 * (y - 1970) + (y - 1969) / 4 - (y - 1901) / 100 + (y - 1601) / 400.

Definition InLeapYear (y : Z) : bool :=
  (y mod 4 =? 0) && (negb (y mod 100 =? 0) || (y mod 400 =? 0)).

(** [YearFromTime]: the largest year whose first day is not after [d]. *)
Definition YearFromDay (d : Z) : Z :=
  let y0 := 1970 + (d * 400) / 146097 in
  if DayFromYear (y0 + 1) <=? d then y0 + 1
  else if DayFromYear y0 <=? d then y0
  else y0 - 1.

(** Day number within the year of the first day of month [m] (0-based). *)
Definition monthOffset (leap : bool) (m : Z) : Z :=
  let l := if leap then 1 else 0 in
  if m <=? 0 then 0
  else if m =? 1 then 31
  else if m =? 2 then 59 + l
  else if m =? 3 then 90 + l
  else if m =? 4 then 120 + l
  else if m =? 5 then 151 + l
  else if m =? 6 then 181 + l
  else if m =? 7 then 212 + l
  else if m =? 8 then 243 + l
  else if m =? 9 then 273 + l
  else if m =? 10 then 304 + l
  else 334 + l.

(** [MonthFromTime], from the day within the year. *)
Definition monthOfDayInYear (leap : bool) (dy : Z) : Z :=
  if dy <? monthOffset leap 1 then 0
  else if dy <? monthOffset leap 2 then 1
  else if dy <? monthOffset leap 3 then 2
  else if dy <? monthOffset leap 4 then 3
  else if dy <? monthOffset leap 5 then 4
  else if dy <? monthOffset leap 6 then 5
  else if dy <? monthOffset leap 7 then 6
  else if dy <? monthOffset leap 8 then 7
  else if dy <? monthOffset leap 9 then 8
  else if dy <? monthOffset leap 10 then 9
  else if dy <? monthOffset leap 11 then 10
  else 11.

Definition getFullYear (t : Z) : Z := YearFromDay (Day t).

Definition dayWithinYear (t : Z) : Z := Day t - DayFromYear (getFullYear t).

Definition getMonth (t : Z) : Z :=
  monthOfDayInYear (InLeapYear (getFullYear t)) (dayWithinYear t).

Definition getDate (t : Z) : Z :=
  dayWithinYear t - monthOffset (InLeapYear (getFullYear t)) (getMonth t) + 1.

(** [WeekDay]: 0 is Sunday. *)
Definition getDay (t : Z) : Z := (Day t + 4) mod 7.

(** [MakeDay(year, month, date)]: months outside 0..11 carry into the year. *)
Definition MakeDay (year month date : Z) : Z :=
  let ym := year + month / 12 in
  let mn := month mod 12 in
  DayFromYear ym + monthOffset (InLeapYear ym) mn + date - 1.

Definition MakeTime (h m s ms : Z) : Z := ((h * 60 + m) * 60 + s) * 1000 + ms.

Definition MakeDate (day time : Z) : Z := day * msPerDay + time.

(** The [Date] constructor reads a year from 0 to 99 as 1900 + year. *)
Definition ctorYear (y : Z) : Z :=
  if (0 <=? y) && (y <=? 99) then 1900 + y else y.

(** [new Date(y, m, d, h, mi, s, ms).getTime()] *)
Definition newDate (y m d h mi s ms : Z) : Z :=
  MakeDate (MakeDay (ctorYear y) m d) (MakeTime h mi s ms).

(** [t.setMonth(m)] and [t.setDate(d)], as the new time value. *)
Definition setMonth (t m : Z) : Z :=
  MakeDate (MakeDay (getFullYear t) m (getDate t)) (TimeWithinDay t).

Definition setDate (t d : Z) : Z :=
  MakeDate (MakeDay (getFullYear t) (getMonth t) d) (TimeWithinDay t).

(** [toLocaleString("default", { month: "short" })], English names. *)
Definition monthShort (m : Z) : string :=
  nth (Z.to_nat m)
    ["Jan"; "Feb"; "Mar"; "Apr"; "May"; "Jun"; "Jul"; "Aug"; "Sep"; "Oct"; "Nov"; "Dec"] "".

(** [String(n)] for an integer. *)
Definition numToString (n : Z) : string := pretty n.

(** [s.padStart(2, "0")] *)
Definition padStart2 (s : string) : string :=
  match s with
  | String _ EmptyString => String "0" s
  | EmptyString => "00"
  | _ => s
  end.

End JsDate.

(** ** Component props and state *)

(** [IGanttViewControlProps], the fields read by the modelled methods.
    [onEndDateChange] records whether the optional callback is wired. *)
Record Props := mkProps {
  ganttStartDate : Z;
  ganttEndDate : Z;
  currentDate : Z;
  expandDetails : bool;
  adjustableEndDate : bool;
  columnViewCount : option Z;
  data : list GanttRow;
  onEndDateChange : bool
}.

Record EditingEndState := mkEditingEnd {
  rowId : string;
  startX : Z;
  rowLeftPct : Q;
  startWidthPct : Q;
  liveWidthPct : Q;
  containerPx : Z;
  winStart : Z;
  winEnd : Z
}.

Record IGanttViewState := mkState {
  nameWidth : Z;
  startWidth : Z;
  endWidth : Z;
  editingEnd : option EditingEndState;
  endDateOverrides : gmap string Z;
  zoomLevel : ZoomLevel;
  containerWidth : Z;
  sortField : SortField;
  sortDir : SortDir
}.

Definition initialState : IGanttViewState :=
  mkState 250 100 100 None ∅ Year 0 SortName Asc.

(** ** Timeline geometry *)

Record TimelineBounds := mkBounds {
  tb_start : Z;
  tb_end : Z;
  tb_months : list Z
}.

Record Segment := mkSegment {
  seg_start : Z;
  seg_label : string
}.

Import JsDate.

(** [if (d && (!cur || d < cur)) cur = d] and its mirror image. *)
Definition takeMin (cur d : option Z) : option Z :=
  match d, cur with
  | Some x, Some m => if x <? m then Some x else cur
  | Some x, None => Some x
  | None, _ => cur
  end.

Definition takeMax (cur d : option Z) : option Z :=
  match d, cur with
  | Some x, Some m => if x >? m then Some x else cur
  | Some x, None => Some x
  | None, _ => cur
  end.

Definition scanDates (acc : option Z * option Z) (r : GanttRow) : option Z * option Z :=
  (takeMin acc.1 (startDate r), takeMax acc.2 (endDate r)).

(** The [forEach] over the rows and, inside it, over their milestones. *)
Definition scanData (rows : list GanttRow) : option Z * option Z :=
  foldl (λ acc r, foldl scanDates (scanDates acc r) (milestones r)) (None, None) rows.

(** [cursor.setMonth(cursor.getMonth() + 1)] *)
Definition nextMonth (cursor : Z) : Z := setMonth cursor (getMonth cursor + 1).

(** An upper bound on the number of rounds of a loop that runs while
    [cursor <= limit] and advances [cursor] by at least [step]. *)
Definition roundsFor (cursor limit step : Z) : nat :=
  Z.to_nat ((limit - cursor) / step + 1).

(** [while (cursor <= limit) { months.push(cursor); cursor = next month }];
    [None] when the rounds allowed by [fuel] do not reach the exit. *)
Fixpoint monthsLoop (fuel : nat) (cursor limit : Z) : option (list Z) :=
  if cursor <=? limit then
    match fuel with
    | O => None
    | S f => (cursor ::.) <$> monthsLoop f (nextMonth cursor) limit
    end
  else Some [].

Definition getTimelineBounds (p : Props) : option TimelineBounds :=
  let found := scanData (data p) in
  let minStart := default (ganttStartDate p) found.1 in
  let maxEnd := default (ganttEndDate p) found.2 in
  let start := newDate (getFullYear minStart) (getMonth minStart) 1 0 0 0 0 in
  let lastMonthStart := newDate (getFullYear maxEnd) (getMonth maxEnd) 1 0 0 0 0 in
  months ← monthsLoop (roundsFor start lastMonthStart (28 * msPerDay)) start lastMonthStart;
  let months := if decide (length months = 0%nat) then [start] else months in
  let end_ := newDate (getFullYear lastMonthStart) (getMonth lastMonthStart + 1) 0 23 59 59 999 in
  Some (mkBounds start end_ months).

Definition monthLabel (cursor : Z) : string :=
  monthShort (getMonth cursor) +:+ " " +:+
  padStart2 (numToString (Z.rem (getFullYear cursor) 100)).

Fixpoint monthSegments (fuel : nat) (cursor limit : Z) : option (list Segment) :=
  if cursor <=? limit then
    match fuel with
    | O => None
    | S f => (mkSegment cursor (monthLabel cursor) ::.) <$> monthSegments f (nextMonth cursor) limit
    end
  else Some [].

(** [Math.ceil(((wkStart - oneJan) / 86400000 + oneJan.getDay() + 1) / 7)] *)
Definition weekNum (wkStart : Z) : Z :=
  let oneJan := newDate (getFullYear wkStart) 0 1 0 0 0 0 in
  Qceiling ((inject_Z (wkStart - oneJan) / inject_Z 86400000
             + inject_Z (getDay oneJan) + 1) / 7)%Q.

Fixpoint weekSegments (fuel : nat) (cursor limit : Z) : option (list Segment) :=
  if cursor <=? limit then
    match fuel with
    | O => None
    | S f =>
        (mkSegment cursor ("W" +:+ numToString (weekNum cursor)) ::.)
          <$> weekSegments f (setDate cursor (getDate cursor + 7)) limit
    end
  else Some [].

Fixpoint yearSegments (fuel : nat) (y lastY : Z) : option (list Segment) :=
  if y <=? lastY then
    match fuel with
    | O => None
    | S f =>
        (mkSegment (newDate y 0 1 0 0 0 0) (numToString y) ::.)
          <$> yearSegments f (y + 1) lastY
    end
  else Some [].

(** The segments pushed by the branch of the active zoom level. *)
Definition zoomSegments (z : ZoomLevel) (start end_ : Z) : option (list Segment) :=
  match z with
  | Month =>
      let cursor := newDate (getFullYear start) (getMonth start) 1 0 0 0 0 in
      monthSegments (roundsFor cursor end_ (28 * msPerDay)) cursor end_
  | Week =>
      let diffToMonday := (getDay start + 6) mod 7 in
      let cursor := setDate start (getDate start - diffToMonday) in
      weekSegments (roundsFor cursor end_ (7 * msPerDay)) cursor end_
  | Year =>
      let y := getFullYear start in
      let lastY := getFullYear end_ in
      yearSegments (roundsFor y lastY 1) y lastY
  end.

Definition getSegments (p : Props) (s : IGanttViewState) : option (list Segment) :=
  b ← getTimelineBounds p;
  segments ← zoomSegments (zoomLevel s) (tb_start b) (tb_end b);
  Some (if decide (length segments = 0%nat)
        then [mkSegment (tb_start b) ""] else segments).

(** Percentage [num / den * 100]. *)
Definition pct (num den : Z) : Q := (inject_Z num / inject_Z den * 100)%Q.

Definition calculateStartXInWindow (date : option Z) (winStart winEnd : Z) : Q :=
  match date with
  | None => (-1)%Q
  | Some d =>
      if d <? winStart then 0%Q
      else if d >? winEnd then (-1)%Q
      else pct (d - winStart) (winEnd - winStart)
  end.

Definition calculateStartX (p : Props) (date : option Z) : option Q :=
  match date with
  | None => Some (-1)%Q
  | Some d =>
      b ← getTimelineBounds p;
      Some (if d <? tb_start b then 0%Q
            else if d >? tb_end b then (-1)%Q
            else pct (d - tb_start b) (tb_end b - tb_start b))
  end.

Definition calculateEndWidthInWindow (startDate endDate : option Z)
    (winStart winEnd : Z) : Q :=
  match startDate, endDate with
  | Some sd, Some ed =>
      if (ed <? winStart) || (sd >? winEnd) then (-1)%Q
      else
        let clipStart := if sd <? winStart then winStart else sd in
        let clipEnd := if ed >? winEnd then winEnd else ed in
        if clipEnd <=? clipStart then 2%Q
        else pct (clipEnd - clipStart) (winEnd - winStart)
  | _, _ => (-1)%Q
  end.

Definition calculateEndWidth (p : Props) (startDate endDate : option Z) : option Q :=
  match startDate, endDate with
  | Some sd, Some ed =>
      b ← getTimelineBounds p;
      let start := tb_start b in
      let end_ := tb_end b in
      Some (if (ed <? start) || (sd >? end_) then (-1)%Q
            else
              let clipStart := if sd <? start then start else sd in
              let clipEnd := if ed >? end_ then end_ else ed in
              if clipEnd <=? clipStart then 2%Q
              else pct (clipEnd - clipStart) (end_ - start))
  | _, _ => Some (-1)%Q
  end.

(** ** Pixel allocation of [GanttTable] *)

Definition sumZ (l : list Z) : Z := foldl Z.add 0 l.

Definition fixedWidthOf (p : Props) (s : IGanttViewState) : Z :=
  nameWidth s + (if expandDetails p then startWidth s + endWidth s else 0).

(** [state.containerWidth || (liveWrapper ? liveWrapper.clientWidth : 0) || 0];
    [wrapper] is the client width of the mounted wrapper element, if any. *)
Definition containerPxOf (s : IGanttViewState) (wrapper : option Z) : Z :=
  if containerWidth s =? 0 then default 0 wrapper else containerWidth s.

Definition availablePxOf (p : Props) (s : IGanttViewState) (wrapper : option Z) : Z :=
  Z.max 0 (containerPxOf s wrapper - fixedWidthOf p s).

Definition desiredVisible (p : Props) (s : IGanttViewState) (nseg : Z) : Z :=
  let base := match columnViewCount p with
              | Some c => if (negb (c =? 0)) && (c >? 0) then c else nseg
              | None => nseg
              end in
  match zoomLevel s with
  | Week => base * 2
  | Month => base
  | Year => nseg
  end.

Definition segWidthPxOf (p : Props) (s : IGanttViewState) (wrapper : option Z)
    (nseg : Z) : Z :=
  let visibleCount := Z.max 1 (Z.min nseg (desiredVisible p s nseg)) in
  let w := Z.max 8 (availablePxOf p s wrapper / visibleCount) in
  if w >? 160 then 160 else w.

(** The [segments.map] of the year branch: for each segment
    [Math.max(8, Math.floor(availablePx * segMs / totalMs))], the segment
    ending where the next one starts, the last one at [end_]. *)
Fixpoint flooredWidths (availablePx totalMs end_ : Z) (segs : list Segment) : list Z :=
  match segs with
  | [] => []
  | seg :: rest =>
      let segEnd := match rest with nxt :: _ => seg_start nxt | [] => end_ end in
      let segMs := Z.max 0 (segEnd - seg_start seg) in
      Z.max 8 (availablePx * segMs / totalMs) :: flooredWidths availablePx totalMs end_ rest
  end.

(** The [while (remainder !== 0 && perSegWidths.length)] loop. *)
Fixpoint distribute (fuel : nat) (ws : list Z) (remainder : Z) (ri : nat)
    : option (list Z) :=
  if (negb (remainder =? 0)) && (negb (length ws =? 0)%nat) then
    match fuel with
    | O => None
    | S f =>
        let w := default 0 (ws !! ri) in
        let ri' := (S ri `mod` length ws)%nat in
        if remainder >? 0 then distribute f (<[ri := w + 1]> ws) (remainder - 1) ri'
        else if (remainder <? 0) && (w >? 8) then
          distribute f (<[ri := w - 1]> ws) (remainder + 1) ri'
        else Some ws
    end
  else Some ws.

(** The year branch up to the end of the remainder loop. *)
Definition yearWidths (availablePx start end_ : Z) (segs : list Segment)
    : option (list Z) :=
  let totalMs := if end_ - start =? 0 then 1 else end_ - start in
  let ws := flooredWidths availablePx totalMs end_ segs in
  let remainder := availablePx - sumZ ws in
  distribute (Z.abs_nat remainder) ws remainder 0.

(** [perSegWidths[perSegWidths.length - 1] += delta] *)
Definition bumpLast (ws : list Z) (delta : Z) : list Z :=
  let i := (length ws - 1)%nat in
  <[i := default 0 (ws !! i) + delta]> ws.

(** The uniform scale-down of an over-wide year table. *)
Definition scaleDown (ws : list Z) (target : Z) : list Z :=
  let scale := (inject_Z target / inject_Z (sumZ ws))%Q in
  let ws' := map (λ w, Z.max 8 (Qfloor (inject_Z w * scale))) ws in
  let sum2 := sumZ ws' in
  if (negb (sum2 =? target)) && (negb (length ws' =? 0)%nat)
  then bumpLast ws' (target - sum2) else ws'.

(** [perSegWidths] as the table header uses it. *)
Definition perSegWidths (p : Props) (s : IGanttViewState) (wrapper : option Z)
    : option (list Z) :=
  b ← getTimelineBounds p;
  segments ← getSegments p s;
  let fixedWidth := fixedWidthOf p s in
  let containerPx := containerPxOf s wrapper in
  let availablePx := availablePxOf p s wrapper in
  match zoomLevel s with
  | Year =>
      ws ← yearWidths availablePx (tb_start b) (tb_end b) segments;
      let tableWidthPx := fixedWidth + sumZ ws in
      let maxTableWidth := containerPx * 3 + fixedWidth in
      Some (if tableWidthPx >? maxTableWidth
            then scaleDown ws (maxTableWidth - fixedWidth) else ws)
  | _ =>
      Some (replicate (length segments)
              (segWidthPxOf p s wrapper (Z.of_nat (length segments))))
  end.

(** ** Colour resolver ([updateView] of [index.ts]) *)

Module Colors.

Definition dquote : ascii := ascii_of_nat 34.
Definition squote : ascii := ascii_of_nat 39.
Definition newline : ascii := ascii_of_nat 10.

Definition isQuote (c : ascii) : bool := Ascii.eqb c dquote || Ascii.eqb c squote.

(** White space of [trim] and of the class [\s], ASCII range. *)
Definition isSpace (c : ascii) : bool :=
  let n := nat_of_ascii c in
  ((9 <=? n)%nat && (n <=? 13)%nat) || (n =? 32)%nat.

(** The separators [,;\n|] between colour tokens. *)
Definition isDelim (c : ascii) : bool :=
  Ascii.eqb c "," || Ascii.eqb c ";" || Ascii.eqb c newline || Ascii.eqb c "|".

(** The separators [:=] between a label and its value. *)
Definition isKeySep (c : ascii) : bool := Ascii.eqb c ":" || Ascii.eqb c "=".

Definition isBracketOrDquote (c : ascii) : bool :=
  Ascii.eqb c "[" || Ascii.eqb c "]" || Ascii.eqb c dquote.

Fixpoint dropWhile (f : ascii → bool) (s : string) : string :=
  match s with
  | String c s' => if f c then dropWhile f s' else s
  | EmptyString => EmptyString
  end.

Fixpoint takeWhile (f : ascii → bool) (s : string) : string :=
  match s with
  | String c s' => if f c then String c (takeWhile f s') else EmptyString
  | EmptyString => EmptyString
  end.

Fixpoint removeChars (f : ascii → bool) (s : string) : string :=
  match s with
  | String c s' => if f c then removeChars f s' else String c (removeChars f s')
  | EmptyString => EmptyString
  end.

Fixpoint dropChars (n : nat) (s : string) : string :=
  match n, s with
  | S n', String _ s' => dropChars n' s'
  | _, _ => s
  end.

Definition trim (s : string) : string :=
  String.rev (dropWhile isSpace (String.rev (dropWhile isSpace s))).

Definition nonEmpty (s : string) : bool := negb (String.eqb s "").

Definition firstIs (f : ascii → bool) (s : string) : bool :=
  match s with String c _ => f c | EmptyString => false end.

Definition lastIs (f : ascii → bool) (s : string) : bool := firstIs f (String.rev s).

(** [s.substring(a, b)]; the arguments are swapped when [a > b]. *)
Definition substring (a b : nat) (s : string) : string :=
  let lo := Nat.min a b in
  let hi := Nat.max a b in
  String.substring lo (hi - lo) s.

(** [s.split(/[...]/)] for a class of single characters. *)
Fixpoint splitOn (sep : ascii → bool) (s : string) : list string :=
  match s with
  | EmptyString => [EmptyString]
  | String c s' =>
      if sep c then EmptyString :: splitOn sep s'
      else match splitOn sep s' with
           | piece :: pieces => String c piece :: pieces
           | [] => [String c EmptyString]
           end
  end.

Fixpoint join (sep : string) (l : list string) : string :=
  match l with
  | [] => EmptyString
  | [x] => x
  | x :: l' => x +:+ sep +:+ join sep l'
  end.

(** [s.replace(/^['"]|['"]$/g, "")] *)
Definition stripQuotes (s : string) : string :=
  let s1 := match s with
            | String c s' => if isQuote c then s' else s
            | EmptyString => s
            end in
  match String.rev s1 with
  | String c r => if isQuote c then String.rev r else s1
  | EmptyString => s1
  end.

(** The rest of [s] after the lower-case word [word], compared without
    regard to case. *)
Fixpoint afterWordCI (word s : string) : option string :=
  match word, s with
  | EmptyString, _ => Some s
  | String w word', String c s' =>
      if Ascii.eqb (Js.lowerAscii c) w then afterWordCI word' s' else None
  | String _ _, EmptyString => None
  end.

(** [s.replace(/^(project|tender)\s*/i, "")] *)
Definition dropLeadingLabel (s : string) : string :=
  match afterWordCI "project" s with
  | Some r => dropWhile isSpace r
  | None =>
      match afterWordCI "tender" s with
      | Some r => dropWhile isSpace r
      | None => s
      end
  end.

(** The group [([^,;\n|]+)] after [\s*]: the white space gives characters
    back, one at a time, until a non-empty run can be captured. *)
Fixpoint captureFrom (j : nat) (rest : string) : option string :=
  let run := takeWhile (λ c, negb (isDelim c)) (dropChars j rest) in
  if nonEmpty run then Some run
  else match j with
       | O => None
       | S j' => captureFrom j' rest
       end.

(** A match of [label\s*[:=]\s*([^,;\n|]+)] anchored at the head of [s]. *)
Definition matchLabelAt (label s : string) : option string :=
  rest ← afterWordCI label s;
  match dropWhile isSpace rest with
  | String c rest' =>
      if isKeySep c
      then captureFrom (String.length (takeWhile isSpace rest')) rest'
      else None
  | EmptyString => None
  end.

(** [regexp.exec(src)]: the leftmost match; the result is group 1. *)
Fixpoint execLabel (label s : string) : option string :=
  match matchLabelAt label s with
  | Some m => Some m
  | None =>
      match s with
      | String _ s' => execLabel label s'
      | EmptyString => None
      end
  end.

Definition extractLabel (src : option string) (label : string) : option string :=
  match src with
  | None => None
  | Some s =>
      if nonEmpty s
      then m ← execLabel label s; Some (trim (stripQuotes m))
      else None
  end.

Section Resolver.

(** [JSON.parse] as [parseColors] observes it: [Some l] when the text is a
    JSON array, [l] being its elements under [String(v)]; [None] when the
    parser throws. *)
Variable jsonParseArray : string → option (list string).

Definition cleanToken (part : string) : string :=
  let kv := splitOn isKeySep part in
  let token := if (2 <=? length kv)%nat then join ":" (tail kv) else part in
  let token := trim (stripQuotes token) in
  trim (dropLeadingLabel token).

Definition manualParse (val : string) : list string :=
  let parts := List.filter nonEmpty (map trim (splitOn isDelim val)) in
  List.filter nonEmpty (map cleanToken parts).

Definition parseColors (input : option string) : list string :=
  match input with
  | None => []
  | Some input =>
      if nonEmpty input then
        let val := trim input in
        let val :=
          if (firstIs (Ascii.eqb dquote) val && lastIs (Ascii.eqb dquote) val)
             || (firstIs (Ascii.eqb squote) val && lastIs (Ascii.eqb squote) val)
          then trim (substring 1 (String.length val - 1) val)
          else val in
        if firstIs (Ascii.eqb "[") val then
          match jsonParseArray val with
          | Some arr => map stripQuotes (List.filter nonEmpty (map trim arr))
          | None => manualParse (removeChars isBracketOrDquote val)
          end
        else manualParse val
      else []
  end.

(** [a || b] on an optional string: the empty string is falsy. *)
Definition orElse (a : option string) (b : string) : string :=
  match a with
  | Some x => if nonEmpty x then x else b
  | None => b
  end.

Definition truthy (a : option string) : bool :=
  match a with Some x => nonEmpty x | None => false end.

(** The colour mapping of [updateView]. [colorsValue] is the control
    property; [datasetColorsVal] is the formatted value of the column
    [colors] of the first record, [None] when there is no record or the
    accessor throws. *)
Definition resolveColors (colorsValue datasetColorsVal : option string)
    (recordCount : nat) : list string :=
  let colors := parseColors colorsValue in
  let labeledProject := extractLabel colorsValue "project" in
  let labeledTender := extractLabel colorsValue "tender" in
  let colors :=
    if (length colors =? 0)%nat && negb (recordCount =? 0)%nat
       && truthy datasetColorsVal
    then parseColors datasetColorsVal else colors in
  let colors :=
    if (length colors =? 0)%nat && negb (truthy labeledProject)
       && negb (truthy labeledTender)
    then ["#FFB74D"; "#90CAF9"] else colors in
  let projectColorFinal :=
    orElse labeledProject (orElse (head colors) "#FFB74D") in
  let tenderColorFinal :=
    orElse labeledTender
      (orElse (List.find (λ c, negb (String.eqb c projectColorFinal)) colors)
         "#90CAF9") in
  projectColorFinal :: tenderColorFinal ::
    List.filter (λ c, negb (String.eqb c projectColorFinal)
                      && negb (String.eqb c tenderColorFinal)) colors.

End Resolver.



End Colors.

(** ** Year-mode pixel map and bar geometry of [GanttTable] *)

Record YearSegMeta := mkMeta {
  ym_start : Z;
  ym_end : Z;
  ym_width : Z;
  ym_cum : Z
}.

Fixpoint yearSegMetaFrom (cum end_ : Z) (segs : list Segment) (ws : list Z)
    : list YearSegMeta :=
  match segs, ws with
  | seg :: rest, w :: ws' =>
      let segEnd := match rest with nxt :: _ => seg_start nxt | [] => end_ end in
      mkMeta (seg_start seg) segEnd w cum :: yearSegMetaFrom (cum + w) end_ rest ws'
  | _, _ => []
  end.

Definition yearPixelTotalOf (meta : list YearSegMeta) : Z :=
  match last meta with
  | Some m => ym_cum m + ym_width m
  | None => 0
  end.

(** [x || 1] on numbers. *)
Definition orOne (x : Z) : Z := if x =? 0 then 1 else x.

Fixpoint yearDateLoop (total d : Z) (meta : list YearSegMeta) : Q :=
  match meta with
  | [] => (-1)%Q
  | m :: rest =>
      if (d <? ym_end m) || (match rest with [] => true | _ => false end) then
        let segDur := orOne (ym_end m - ym_start m) in
        let inSeg := Z.min segDur (Z.max 0 (d - ym_start m)) in
        let px := (inject_Z (ym_cum m)
                   + inject_Z (ym_width m * inSeg) / inject_Z segDur)%Q in
        (px / inject_Z (orOne total) * 100)%Q
      else yearDateLoop total d rest
  end.

Definition yearDateToPct (meta : list YearSegMeta) (end_ : Z) (d : option Z) : Q :=
  match d, meta with
  | Some d, m0 :: _ =>
      if d <? ym_start m0 then 0%Q
      else if d >? end_ then (-1)%Q
      else yearDateLoop (yearPixelTotalOf meta) d meta
  | _, _ => (-1)%Q
  end.

Definition Qltb (a b : Q) : bool := negb (Qle_bool b a).

Definition Qmaxq (a b : Q) : Q := if Qle_bool a b then b else a.

Definition yearRangeToPct (meta : list YearSegMeta) (end_ : Z) (s e : option Z)
    : option (Q * Q) :=
  match s, e, meta with
  | Some sd, Some ed, m0 :: _ =>
      if (ed <? ym_start m0) || (sd >? end_) then None
      else
        let clipStart := if sd <? ym_start m0 then ym_start m0 else sd in
        let clipEnd := if ed >? end_ then end_ else ed in
        if clipEnd <=? clipStart then None
        else
          let left := yearDateToPct meta end_ (Some clipStart) in
          let right := yearDateToPct meta end_ (Some clipEnd) in
          if Qltb left 0 || Qltb right 0 then None
          else Some (left,
                     Qmaxq (right - left)
                       (2 / inject_Z (orOne (yearPixelTotalOf meta)) * 100))%Q
  | _, _, _ => None
  end.

(** [this.state.endDateOverrides[row.id] || row.endDate] *)
Definition effectiveEnd (s : IGanttViewState) (r : GanttRow) : option Z :=
  match endDateOverrides s !! id r with
  | Some d => Some d
  | None => endDate r
  end.

(** The bar of a table row: [(leftPct, widthPct)] as the row renderer
    computes them. *)
Definition barGeometry (p : Props) (s : IGanttViewState) (wrapper : option Z)
    (r : GanttRow) : option (Q * Q) :=
  b ← getTimelineBounds p;
  segments ← getSegments p s;
  ws ← perSegWidths p s wrapper;
  leftPct ← calculateStartX p (startDate r);
  widthPct ← calculateEndWidth p (startDate r) (effectiveEnd s r);
  match zoomLevel s with
  | Year =>
      let meta := yearSegMetaFrom 0 (tb_end b) segments ws in
      match yearRangeToPct meta (tb_end b) (startDate r) (effectiveEnd s r) with
      | Some yr => Some yr
      | None => Some (leftPct, widthPct)
      end
  | _ => Some (leftPct, widthPct)
  end.

(** ** End-date drag *)

(** [startBarEndEdit]; [cell] is the client width of the enclosing timeline
    cell, when there is one. *)
Definition startBarEndEdit (p : Props) (s : IGanttViewState) (clientX : Z)
    (rid : string) (leftPct widthPct : Q) (wStart wEnd : Z) (cell : option Z)
    : IGanttViewState :=
  if adjustableEndDate p then
    mkState (nameWidth s) (startWidth s) (endWidth s)
      (Some (mkEditingEnd rid clientX leftPct widthPct widthPct
               (default 1 cell) wStart wEnd))
      (endDateOverrides s) (zoomLevel s) (containerWidth s) (sortField s) (sortDir s)
  else s.

Definition setEditing (s : IGanttViewState) (e : option EditingEndState)
    : IGanttViewState :=
  mkState (nameWidth s) (startWidth s) (endWidth s) e
    (endDateOverrides s) (zoomLevel s) (containerWidth s) (sortField s) (sortDir s).

(** The clamped live width of [onBarDragMove]. *)
Definition liveWidthAt (edit : EditingEndState) (clientX : Z) : Q :=
  let deltaPx := clientX - startX edit in
  let deltaPct := (inject_Z deltaPx / inject_Z (containerPx edit) * 100)%Q in
  let w := (startWidthPct edit + deltaPct)%Q in
  let w := if Qltb w 1 then 1%Q else w in
  if Qltb (100 - rowLeftPct edit) w then (100 - rowLeftPct edit)%Q else w.

Definition onBarDragMove (s : IGanttViewState) (clientX : Z) : IGanttViewState :=
  match editingEnd s with
  | None => s
  | Some edit =>
      let w := liveWidthAt edit clientX in
      if Qeq_bool w (liveWidthPct edit) then s
      else setEditing s
             (Some (mkEditingEnd (rowId edit) (startX edit) (rowLeftPct edit)
                      (startWidthPct edit) w (containerPx edit)
                      (winStart edit) (winEnd edit)))
  end.

(** [new Date(x)] keeps the integer part of [x]: rounding is towards
    zero. *)
Definition truncQ (x : Q) : Z := if Qle_bool 0 x then Qfloor x else Qceiling x.

(** The date under the right edge [rightPct] of a bar, by interpolation
    over the window captured at drag start. *)
Definition dateAtPct (wStart wEnd : Z) (rightPct : Q) : Z :=
  truncQ (inject_Z wStart + rightPct / 100 * inject_Z (wEnd - wStart))%Q.

(** [onGlobalMouseUp]: the next state and the calls made to
    [props.onEndDateChange]. *)
Definition onGlobalMouseUp (p : Props) (s : IGanttViewState)
    : IGanttViewState * list (string * Z) :=
  match editingEnd s with
  | None => (s, [])
  | Some edit =>
      if adjustableEndDate p then
        let rightPct := (rowLeftPct edit + liveWidthPct edit)%Q in
        let newEnd := dateAtPct (winStart edit) (winEnd edit) rightPct in
        (mkState (nameWidth s) (startWidth s) (endWidth s) None
           (<[rowId edit := newEnd]> (endDateOverrides s))
           (zoomLevel s) (containerWidth s) (sortField s) (sortDir s),
         if onEndDateChange p then [(rowId edit, newEnd)] else [])
      else (setEditing s None, [])
  end.

(** Pressing the end handle of the bar of [r]: the handle exists when the
    bar is drawn and adjustment is enabled. *)
Definition pressHandle (p : Props) (s : IGanttViewState) (wrapper : option Z)
    (r : GanttRow) (clientX : Z) (cell : option Z) : option IGanttViewState :=
  g ← barGeometry p s wrapper r;
  b ← getTimelineBounds p;
  let liveWidth :=
    match editingEnd s with
    | Some edit => if String.eqb (rowId edit) (id r) then liveWidthPct edit else g.2
    | None => g.2
    end in
  if negb (Qeq_bool g.1 (-1)) && negb (Qeq_bool g.2 (-1)) && adjustableEndDate p
  then Some (startBarEndEdit p s clientX (id r) g.1 liveWidth (tb_start b) (tb_end b) cell)
  else None.

(** A whole gesture: press at [x0], move to [x1], release. *)
Definition dragEnd (p : Props) (s : IGanttViewState) (wrapper : option Z)
    (r : GanttRow) (x0 x1 : Z) (cell : option Z)
    : option (IGanttViewState * list (string * Z)) :=
  s1 ← pressHandle p s wrapper r x0 cell;
  Some (onGlobalMouseUp p (onBarDragMove s1 x1)).

(** ** Header interactions: sorting, zoom and the name column *)

Definition SortField_eqb (a b : SortField) : bool :=
  match a, b with
  | SortName, SortName | SortStartDate, SortStartDate | SortEndDate, SortEndDate => true
  | _, _ => false
  end.

Definition ZoomLevel_eqb (a b : ZoomLevel) : bool :=
  match a, b with
  | Month, Month | Week, Week | Year, Year => true
  | _, _ => false
  end.

(** [toggleSort(field)]: the active field flips its direction, another
    field becomes active in ascending order. *)
Definition toggleSort (s : IGanttViewState) (field : SortField) : IGanttViewState :=
  if SortField_eqb (sortField s) field then
    mkState (nameWidth s) (startWidth s) (endWidth s) (editingEnd s)
      (endDateOverrides s) (zoomLevel s) (containerWidth s) (sortField s)
      (match sortDir s with Asc => Desc | Desc => Asc end)
  else
    mkState (nameWidth s) (startWidth s) (endWidth s) (editingEnd s)
      (endDateOverrides s) (zoomLevel s) (containerWidth s) field Asc.

(** [setZoom(z)], the state update. *)
Definition setZoom (s : IGanttViewState) (z : ZoomLevel) : IGanttViewState :=
  if negb (ZoomLevel_eqb (zoomLevel s) z) then
    mkState (nameWidth s) (startWidth s) (endWidth s) (editingEnd s)
      (endDateOverrides s) z (containerWidth s) (sortField s) (sortDir s)
  else s.

(** [this.nameResizeInfo] *)
Record NameResizeInfo := mkResize {
  nr_startX : Z;
  nr_startWidth : Z
}.

Definition setNameWidth (s : IGanttViewState) (w : Z) : IGanttViewState :=
  mkState w (startWidth s) (endWidth s) (editingEnd s)
    (endDateOverrides s) (zoomLevel s) (containerWidth s) (sortField s) (sortDir s).

(** [if (w < MIN) w = MIN; if (w > MAX) w = MAX] with [MIN = 150] and
    [MAX = 700]. *)
Definition clampNameWidth (w : Z) : Z :=
  let w := if w <? 150 then 150 else w in
  if w >? 700 then 700 else w.

Definition onNameResizeStart (s : IGanttViewState) (clientX : Z) : NameResizeInfo :=
  mkResize clientX (nameWidth s).

Definition onNameResizeMove (info : option NameResizeInfo) (s : IGanttViewState)
    (clientX : Z) : IGanttViewState :=
  match info with
  | None => s
  | Some i =>
      let delta := clientX - nr_startX i in
      let w := clampNameWidth (nr_startWidth i + delta) in
      if negb (w =? nameWidth s) then setNameWidth s w else s
  end.

Inductive Key := ArrowLeft | ArrowRight | OtherKey.

(** The [onKeyDown] handler of the resize handle. *)
Definition onNameResizeKey (s : IGanttViewState) (k : Key) : IGanttViewState :=
  match k with
  | ArrowLeft => setNameWidth s (clampNameWidth (nameWidth s + -15))
  | ArrowRight => setNameWidth s (clampNameWidth (nameWidth s + 15))
  | OtherKey => s
  end.

(** ** Measuring the container *)

Definition setContainerWidth (s : IGanttViewState) (w : Z) : IGanttViewState :=
  mkState (nameWidth s) (startWidth s) (endWidth s) (editingEnd s)
    (endDateOverrides s) (zoomLevel s) w (sortField s) (sortDir s).

(** The mounted wrapper element as the measurements read it: its client
    width and the client width of its parent element, if it has one. *)
Record WrapperEl := mkWrapper {
  el_clientWidth : Z;
  el_parentClientWidth : option Z
}.

(** [parentW || el.clientWidth || 0] *)
Definition measuredWidth (el : WrapperEl) : Z :=
  let parentW := default 0 (el_parentClientWidth el) in
  if parentW =? 0 then el_clientWidth el else parentW.

(** [updateContainerWidth]: the next state, and whether a retry was
    scheduled. *)
Definition updateContainerWidth (s : IGanttViewState) (el : option WrapperEl)
    : IGanttViewState * bool :=
  match el with
  | None => (s, false)
  | Some el =>
      let w := measuredWidth el in
      if negb (w =? 0) && (Z.abs (w - containerWidth s) >? 2)
      then (setContainerWidth s w, false)
      else if w =? 0 then (s, true)
      else (s, false)
  end.

(** The retry scheduled by [updateContainerWidth]. *)
Definition retryContainerWidth (s : IGanttViewState) (el : WrapperEl) : IGanttViewState :=
  let ww := el_clientWidth el in
  if negb (ww =? 0) && (Z.abs (ww - containerWidth s) >? 2)
  then setContainerWidth s ww else s.

(** The callback of the [ResizeObserver]; [contentWidth] is
    [entries[0]?.contentRect?.width], when it is there. *)
Definition onObservedResize (s : IGanttViewState) (el : WrapperEl)
    (contentWidth : option Q) : IGanttViewState :=
  let w := match contentWidth with
           | Some cw => if Qeq_bool cw 0 then el_clientWidth el else Qfloor cw
           | None => el_clientWidth el
           end in
  if negb (w =? 0) && negb (w =? containerWidth s)
  then setContainerWidth s w else s.

(** ** Centring on the current date *)

(** [centerOnCurrentDate]: the value assigned to [wrapper.scrollLeft];
    [None] when there is no wrapper and nothing is assigned.  [wrapper]
    is the client width of the wrapper element. *)
Definition centerOnCurrentDate (p : Props) (s : IGanttViewState) (wrapper : option Z)
    : option Z :=
  match wrapper with
  | None => None
  | Some clientW =>
      segments ← getSegments p s;
      if decide (length segments = 0%nat) then None
      else
        let nseg := Z.of_nat (length segments) in
        let fixedWidth := fixedWidthOf p s in
        let containerPx := containerPxOf s (Some clientW) in
        let visibleCount := Z.max 1 (Z.min nseg (desiredVisible p s nseg)) in
        let availablePx := Z.max 0 (containerPx - fixedWidth) in
        let segWidthPx := Z.max 8 (availablePx / visibleCount) in
        let timelineWidth :=
          match zoomLevel s with
          | Year => availablePx
          | _ => segWidthPx * nseg
          end in
        let tableWidthPx := fixedWidth + timelineWidth in
        pct0 ← calculateStartX p (Some (currentDate p));
        b ← getTimelineBounds p;
        let pct1 := if Qltb pct0 0
                    then (if currentDate p <? tb_start b then 0 else 100)%Q
                    else pct0 in
        let targetX := (inject_Z fixedWidth + pct1 / 100 * inject_Z timelineWidth)%Q in
        let viewport := if clientW =? 0 then containerPx else clientW in
        Some (Z.max 0
                (Z.min (tableWidthPx - viewport)
                   (Qfloor (targetX - inject_Z viewport / 2)%Q)))
  end.

(** ** Colours and date cells of the rows *)

(** [colorFor(rowType)] against [props.colors]. *)
Definition colorFor (colors : option (list string)) (rowType : option string)
    : option string :=
  let rt := Js.toLowerCase (Js.orEmpty rowType) in
  if String.eqb rt "tender" then cs ← colors; cs !! 1%nat
  else cs ← colors; cs !! 0%nat.

(** [formatDateDDMMYYYY(d)] *)
Definition formatDateDDMMYYYY (d : option Z) : string :=
  match d with
  | None => "Blank"
  | Some t =>
      padStart2 (numToString (getDate t)) +:+ "/" +:+
      padStart2 (numToString (getMonth t + 1)) +:+ "/" +:+
      numToString (getFullYear t)
  end.

(** ** Totals of the footer and of the banner *)

Definition lowerType (r : GanttRow) : string :=
  Js.toLowerCase (Js.orEmpty (rowType r)).

(** The test of one row against one segment in [totals]: [None] when the
    row is skipped, else whether it counts as a tender. *)
Definition countedIn (s : IGanttViewState) (segStart segEnd : Z) (r : GanttRow)
    : option bool :=
  match startDate r, endDate r with
  | Some sd, Some _ =>
      let rType := lowerType r in
      if String.eqb rType "milestone" then None
      else if String.eqb rType "unknown" then None
      else
        match effectiveEnd s r with
        | Some ee =>
            if (sd <=? segEnd) && (ee >=? segStart)
            then Some (String.eqb rType "tender") else None
        | None => None
        end
  | _, _ => None
  end.

(** The counters [{ project, tender }] of one segment. *)
Definition segmentTotal (s : IGanttViewState) (rows : list GanttRow)
    (segStart segEnd : Z) : Z * Z :=
  foldl (λ acc r, match countedIn s segStart segEnd r with
                  | Some true => (acc.1, acc.2 + 1)
                  | Some false => (acc.1 + 1, acc.2)
                  | None => acc
                  end) (0, 0) rows.

Fixpoint totalsOver (s : IGanttViewState) (rows : list GanttRow) (end_ : Z)
    (segs : list Segment) : list (Z * Z) :=
  match segs with
  | [] => []
  | seg :: rest =>
      let segEnd := match rest with nxt :: _ => seg_start nxt | [] => end_ end in
      segmentTotal s rows (seg_start seg) segEnd :: totalsOver s rows end_ rest
  end.

(** [totals] of [GanttTable]. *)
Definition totals (p : Props) (s : IGanttViewState) : option (list (Z * Z)) :=
  b ← getTimelineBounds p;
  segments ← getSegments p s;
  Some (totalsOver s (data p) (tb_end b) segments).

(** [overall] of [GanttTable]: a type that is neither tender nor project
    is not counted. *)
Definition overall (rows : list GanttRow) : Z * Z :=
  foldl (λ acc r,
           let t := lowerType r in
           if String.eqb t "milestone" || String.eqb t "unknown" then acc
           else if String.eqb t "tender" then (acc.1, acc.2 + 1)
           else if String.eqb t "project" then (acc.1 + 1, acc.2)
           else acc) (0, 0) rows.

(** [overallTotals] of [render]: any other type falls in the project
    bucket. *)
Definition overallTotals (rows : list GanttRow) : Z * Z :=
  foldl (λ acc r,
           let t := lowerType r in
           if String.eqb t "milestone" || String.eqb t "unknown" then acc
           else if String.eqb t "tender" then (acc.1, acc.2 + 1)
           else (acc.1 + 1, acc.2)) (0, 0) rows.

(** [Math.round(x)]: the nearest integer, halves upwards. *)
Definition mathRound (x : Q) : Z := Qfloor (x + (1 # 2))%Q.

(** The pair [(pPct, tPct)] of a footer cell. *)
Definition sharePct (t : Z * Z) : Z * Z :=
  let total := t.1 + t.2 in
  if total =? 0 then (0, 0)
  else
    let pPct := mathRound (inject_Z t.1 / inject_Z total * 100)%Q in
    (pPct, 100 - pPct).

(** ** The dataset reader of [updateView] *)

Module Reader.

Import Colors.

Definition isLowerLetter (c : ascii) : bool :=
  let n := nat_of_ascii c in (97 <=? n)%nat && (n <=? 122)%nat.

(** [hay.includes(needle)] *)
Fixpoint includes (needle hay : string) : bool :=
  String.prefix needle hay ||
  match hay with
  | String _ hay' => includes needle hay'
  | EmptyString => false
  end.

(** The normalised [rowType] of a record, from the formatted values of
    its columns [rowType] and [name]. *)
Definition normalizeRowType (raw nameVal : option string) : string :=
  let norm := Js.toLowerCase (trim (Js.orEmpty raw)) in
  let norm := removeChars (λ c, negb (isLowerLetter c)) norm in
  if negb (String.eqb norm "project") && negb (String.eqb norm "tender")
     && negb (String.eqb norm "milestone")
  then
    let nameVal2 := Js.toLowerCase (Js.orEmpty nameVal) in
    if includes "tender" nameVal2 then "tender" else "unknown"
  else norm.

(** The paging fields of the control. *)
Record PagingState := mkPaging {
  pagingInitialized : bool;
  pagingSafetyCounter : nat
}.

(** What one call of [updateView] finds in [records.paging]. *)
Record PagingView := mkPagingView {
  (** [typeof paging.setPageSize === 'function'] *)
  pv_canSetPageSize : bool;
  (** [paging.hasNextPage]: [None] when it is not a function, [Some None]
      when the call throws, [Some (Some b)] when it returns [b]. *)
  pv_hasNextPage : option (option bool)
}.

Inductive PagingCall := SetPageSize (n : Z) | LoadNextPage.

(** The paging prelude of [updateView]: the next state and the calls made
    on [paging], in order.  [None] stands for a missing [paging]. *)
Definition pagingStep (st : PagingState) (view : option PagingView)
    : PagingState * list PagingCall :=
  match view with
  | None => (st, [])
  | Some v =>
      let '(st1, calls1) :=
        if negb (pagingInitialized st) && pv_canSetPageSize v
        then (mkPaging true (pagingSafetyCounter st), [SetPageSize 500])
        else (st, []) in
      match pv_hasNextPage v with
      | Some (Some true) =>
          if (pagingSafetyCounter st1 <? 40)%nat
          then (mkPaging (pagingInitialized st1) (S (pagingSafetyCounter st1)),
                calls1 ++ [LoadNextPage])
          else (st1, calls1)
      | _ => (st1, calls1)
      end
  end.

(** Successive calls of [updateView]. *)
Fixpoint pagingRun (st : PagingState) (views : list (option PagingView))
    : PagingState * list PagingCall :=
  match views with
  | [] => (st, [])
  | v :: rest =>
      let '(st1, calls1) := pagingStep st v in
      let '(st2, calls2) := pagingRun st1 rest in
      (st2, calls1 ++ calls2)
  end.

(** The outputs written by [onSelect]: [(selectedUid, selectedId,
    selectedRowType)]. *)
Definition onSelect (uid : string) (dataId rowType : option string)
    : string * string * option string :=
  let selectedId :=
    match dataId with
    | Some d => if (0 <? String.length d)%nat then d else uid
    | None => uid
    end in
  (uid, selectedId,
   match rowType with Some t => if nonEmpty t then Some t else None | None => None end).

End Reader.

(** ** The component as a machine of events *)

Record Control := mkControl {
  ctl_state : IGanttViewState;
  ctl_resize : option NameResizeInfo
}.

Inductive Event :=
  | EvToggleSort (field : SortField)
  | EvSetZoom (z : ZoomLevel)
  | EvResizeStart (clientX : Z)
  | EvResizeMove (clientX : Z)
  | EvResizeEnd
  | EvResizeKey (k : Key)
  | EvMeasure (el : option WrapperEl)
  | EvRetryMeasure (el : WrapperEl)
  | EvObserved (el : WrapperEl) (contentWidth : option Q)
  | EvBarPress (wrapper : option Z) (r : GanttRow) (clientX : Z) (cell : option Z)
  | EvBarMove (clientX : Z)
  | EvMouseUp.

(** One event: the next control and the calls made to
    [props.onEndDateChange]. *)
Definition dispatch (p : Props) (c : Control) (e : Event)
    : Control * list (string * Z) :=
  let s := ctl_state c in
  match e with
  | EvToggleSort f => (mkControl (toggleSort s f) (ctl_resize c), [])
  | EvSetZoom z => (mkControl (setZoom s z) (ctl_resize c), [])
  | EvResizeStart x => (mkControl s (Some (onNameResizeStart s x)), [])
  | EvResizeMove x => (mkControl (onNameResizeMove (ctl_resize c) s x) (ctl_resize c), [])
  | EvResizeEnd => (mkControl s None, [])
  | EvResizeKey k => (mkControl (onNameResizeKey s k) (ctl_resize c), [])
  | EvMeasure el => (mkControl (updateContainerWidth s el).1 (ctl_resize c), [])
  | EvRetryMeasure el => (mkControl (retryContainerWidth s el) (ctl_resize c), [])
  | EvObserved el cw => (mkControl (onObservedResize s el cw) (ctl_resize c), [])
  | EvBarPress wrapper r x cell =>
      (mkControl (default s (pressHandle p s wrapper r x cell)) (ctl_resize c), [])
  | EvBarMove x => (mkControl (onBarDragMove s x) (ctl_resize c), [])
  | EvMouseUp =>
      let '(s', calls) := onGlobalMouseUp p s in
      (mkControl s' (ctl_resize c), calls)
  end.

Fixpoint run (p : Props) (c : Control) (events : list Event)
    : Control * list (string * Z) :=
  match events with
  | [] => (c, [])
  | e :: rest =>
      let '(c1, calls1) := dispatch p c e in
      let '(c2, calls2) := run p c1 rest in
      (c2, calls1 ++ calls2)
  end.

(** * Vocabulary of the properties *)

(** The object pushed on [result] for [r] at depth [l]. *)
Definition output (rows : list GanttRow) (r : GanttRow) (l : nat) : GanttRow :=
  processed r l (milestoneKids (childrenMap rows) r).

(** A chain lists a row, its parent, the parent of its parent and so on up
    to a root. *)
Inductive chain (rows : list GanttRow) : list GanttRow → Prop :=
  | chain_root r : In r rows → parentId r = "" → chain rows [r]
  | chain_step k r C :
      chain rows (r :: C) → In k rows → parentId k = id r →
      chain rows (k :: r :: C).

(** The date the active sort field reads. *)
Definition sortDate (f : SortField) (r : GanttRow) : option Z :=
  match f with
  | SortStartDate => startDate r
  | SortEndDate => endDate r
  | SortName => None
  end.

(** Time values of a valid [Date]. *)
Definition validTime (t : Z) : Prop :=
  -8640000000000000 ≤ t ≤ 8640000000000000.

Definition validRow (r : GanttRow) : Prop :=
  (∀ t, startDate r = Some t → validTime t) ∧ (∀ t, endDate r = Some t → validTime t).

(** [a] at an earlier index of [l] than [b]. *)
Definition precedes {A} (l : list A) (a b : A) : Prop :=
  ∃ i j : nat, l !! i = Some a ∧ l !! j = Some b ∧ (i < j)%nat.

(** The pairs the comparator separates by date alone: ascending, a dated
    row against an undated one; descending, the reverse. *)
Definition mustPrecede (d : SortDir) (f : SortField) (a b : GanttRow) : Prop :=
  match d with
  | Asc => is_Some (sortDate f a) ∧ sortDate f b = None
  | Desc => sortDate f a = None ∧ is_Some (sortDate f b)
  end.

(** No later row of [l] has to come before an earlier one. *)
Definition dateSorted (field : SortField) (dir : SortDir) (l : list GanttRow) : Prop :=
  StronglySorted (λ x y, ¬ mustPrecede dir field y x) l.

(** The instant under a percentage of the window, before rounding. *)
Definition instantAt (s e : Z) (q : Q) : Q :=
  (inject_Z s + q / 100 * inject_Z (e - s))%Q.

Definition keyBefore (f : SortField) (d : SortDir) (a b : GanttRow) : Prop :=
  match d with
  | Asc => val_lt (valFor f a) (valFor f b) = true
  | Desc => val_lt (valFor f b) (valFor f a) = true
  end.

(** No later row of [l] goes before an earlier one under the sort key. *)
Definition keySorted (field : SortField) (dir : SortDir) (l : list GanttRow) : Prop :=
  StronglySorted (λ x y, ¬ keyBefore field dir y x) l.

(** The rows whose dates [getTimelineBounds] reads: each row and then its
    milestones. *)
Definition scannedRows (rows : list GanttRow) : list GanttRow :=
  concat (map (λ r, r :: milestones r) rows).

Definition segsFrom (cursor limit : Z) (segs : list Segment) : Prop :=
  StronglySorted (λ a c, seg_start a < seg_start c) segs
  ∧ Forall (λ g, cursor ≤ seg_start g ≤ limit) segs
  ∧ (cursor ≤ limit → ∃ g rest, segs = g :: rest ∧ seg_start g = cursor).

Definition isLoadNextPage (c : Reader.PagingCall) : bool :=
  match c with Reader.LoadNextPage => true | _ => false end.

Definition isSetPageSize (c : Reader.PagingCall) : bool :=
  match c with Reader.SetPageSize _ => true | _ => false end.

(** The own property names of [Object.prototype].  [childrenMap] is a
    plain object: a lookup under one of these names finds the inherited
    member, which is neither empty nor an array, so that
    [childrenMap[pid].push(r)] and [kids.forEach] throw a [TypeError]. *)
Definition objectPrototypeKeys : list string :=
  [ "constructor"; "hasOwnProperty"; "isPrototypeOf"; "propertyIsEnumerable";
    "toLocaleString"; "toString"; "valueOf"; "__proto__";
    "__defineGetter__"; "__defineSetter__"; "__lookupGetter__"; "__lookupSetter__" ].

(** No identifier and no parent identifier of the rows is such a name: on
    these data the plain object behaves as the finite map [childrenMap]. *)
Definition plainKeys (rows : list GanttRow) : Prop :=
  Forall (λ r, (id r ∉ objectPrototypeKeys) ∧ (parentId r ∉ objectPrototypeKeys)) rows.

(** Every character of the string is below 128: on such strings
    [toLowerCase] changes the letters A to Z only, and [<] on strings is the
    order of the character codes. *)
Definition asciiOnly (s : string) : bool :=
  forallb (λ c, (nat_of_ascii c <? 128)%nat) (list_ascii_of_string s).

(** * Sample data *)

Definition demoRoots : list GanttRow :=
  [ row "1" "Alpha" (Some 1704067200000) (Some 1706745600000) "project" "";
    row "2" "Beta" None None "project" "" ].

(** Rows of a dataset with a root, a tender and a milestone below it, an
    orphan project with its own milestone, and a sentinel row. *)
Definition rowPlan := row "a" "Plan" (Some 1704067200000) (Some 1719705600000) "project" "".

Definition rowBid := row "b" "Bid" (Some 1706745600000) None "tender" "a".

Definition rowKickoff := row "m1" "Kickoff" (Some 1710460800000) None "milestone" "a".

Definition rowLost := row "p" "Lost" None None "project" "ghost".

Definition rowReview := row "m2" "Review" (Some 1712000000000) None "Milestone" "p".

Definition rowSentinel := row "v" "val" None None "project" "".

Definition demoTree : list GanttRow :=
  [rowPlan; rowBid; rowKickoff; rowLost; rowReview; rowSentinel].

Definition demoOrdered : list GanttRow :=
  [processed rowPlan 0 [rowKickoff]; processed rowBid 1 []].

(** A row whose end date lies in a month before its start date inverts
    the axis. *)
Definition propsInverted : Props :=
  mkProps 0 0 0 false false None
    [row "1" "Late" (Some 1740787200000) (Some 1579046400000) "project" ""] false.

(** The plan alone, with end-date adjustment enabled and the change
    callback wired. *)
Definition propsPlan : Props :=
  mkProps 0 0 0 false true None [rowPlan] true.

(** A project from 11 December 2024 to 17 January 2025. *)
Definition propsTurnOfYear : Props :=
  mkProps 0 0 0 false false None
    [row "1" "Bridge" (Some 1733875200000) (Some 1737072000000) "project" ""] false.

Definition stateYear1250 : IGanttViewState :=
  mkState 250 100 100 None ∅ Year 1250 SortName Asc.

(** A project from 1 January 2024 to 30 June 2026. *)
Definition propsThreeYears : Props :=
  mkProps 0 0 0 false false None
    [row "1" "Build" (Some 1704067200000) (Some 1782777600000) "project" ""] false.

Definition rowJanuary : GanttRow :=
  row "1" "Audit" (Some 1704067200000) (Some 1706745599999) "project" "".

Definition propsJanuary : Props :=
  mkProps 0 0 0 false true None [rowJanuary] true.

Definition stateMonth1250 : IGanttViewState :=
  mkState 250 100 100 None ∅ Month 1250 SortName Asc.

Definition rowYear2024 : GanttRow :=
  row "1" "Survey" (Some 1704067200000) (Some 1735603200000) "project" "".

Definition propsNarrow : Props :=
  mkProps 0 0 0 false true None
    [rowYear2024;
     row "2" "Report" (Some 1704067200000) (Some 1737072000000) "project" ""] true.

Definition stateYear300 : IGanttViewState :=
  mkState 250 100 100 None ∅ Year 300 SortName Asc.

Definition stateWeek1250 : IGanttViewState :=
  mkState 250 100 100 None ∅ Week 1250 SortName Asc.

Definition demoNormalised : list GanttRow :=
  [ row "1" "Depot" None None "project" "";
    row "2" "Depot tender" None None "tender" "";
    row "3" "Note" None None "unknown" "" ].

Definition demoYearSegs : list Segment :=
  [mkSegment 1704067200000 "2024"; mkSegment 1735689600000 "2025";
   mkSegment 1767225600000 "2026"].

Definition demoYearWidths : list Z := [402; 400; 198].

(** * Properties *)

Close Scope Q_scope.

(** ** The sort and the children index *)

Section SortFacts.

Variable cmp : GanttRow → GanttRow → Z.

Lemma In_insertBy x y l : In x (insertBy cmp y l) ↔ x = y ∨ In x l.
Proof.
  induction l as [|z l IH]; simpl.
  - intuition.
  - destruct (Z.leb (cmp y z) 0); simpl; rewrite ?IH; intuition.
Qed.

Lemma In_sortBy x l : In x (sortBy cmp l) ↔ In x l.
Proof.
  induction l as [|z l IH]; simpl; [tauto|].
  rewrite In_insertBy, IH. intuition.
Qed.

Lemma insertBy_perm y l : insertBy cmp y l ≡ₚ y :: l.
Proof.
  induction l as [|z l IH]; simpl; [done|].
  destruct (Z.leb (cmp y z) 0); [done|].
  rewrite IH. apply Permutation_swap.
Qed.

Lemma sortBy_perm l : sortBy cmp l ≡ₚ l.
Proof.
  induction l as [|z l IH]; simpl; [done|].
  rewrite insertBy_perm. by rewrite IH.
Qed.

End SortFacts.

Lemma kidsOf_foldl rows (m : gmap string (list GanttRow)) key :
  kidsOf (foldl (λ m r, let pid := parentId r in
                        <[pid := default [] (m !! pid) ++ [r]]> m) m rows) key
  = kidsOf m key ++ List.filter (λ r, String.eqb (parentId r) key) rows.
Proof.
  revert m. induction rows as [|r rows IH]; intros m; simpl.
  - by rewrite app_nil_r.
  - rewrite IH. unfold kidsOf at 1. cbv zeta.
    destruct (String.eqb_spec (parentId r) key) as [->|Hne].
    + rewrite lookup_insert_eq. simpl. unfold kidsOf. by rewrite <- app_assoc.
    + by rewrite lookup_insert_ne.
Qed.

Lemma kidsOf_childrenMap rows key :
  kidsOf (childrenMap rows) key
  = List.filter (λ r, String.eqb (parentId r) key) rows.
Proof.
  unfold childrenMap. rewrite kidsOf_foldl. unfold kidsOf.
  by rewrite lookup_empty.
Qed.

Lemma In_taskKids rows r k :
  In k (taskKids (childrenMap rows) r)
  ↔ In k rows ∧ parentId k = id r ∧ isMilestone k = false.
Proof.
  unfold taskKids. rewrite kidsOf_childrenMap, !filter_In.
  rewrite String.eqb_eq, negb_true_iff. tauto.
Qed.

Lemma In_milestoneKids rows r k :
  In k (milestoneKids (childrenMap rows) r)
  ↔ In k rows ∧ parentId k = id r ∧ isMilestone k = true.
Proof.
  unfold milestoneKids. rewrite kidsOf_childrenMap, !filter_In.
  rewrite String.eqb_eq. tauto.
Qed.

Lemma In_rootsOf rows k :
  In k (rootsOf (childrenMap rows))
  ↔ In k rows ∧ parentId k = "" ∧ isMilestone k = false.
Proof.
  unfold rootsOf. rewrite kidsOf_childrenMap, !filter_In.
  rewrite String.eqb_eq, negb_true_iff. tauto.
Qed.

Lemma In_visible rows r :
  In r (List.filter notSentinel rows) ↔ In r rows ∧ name r ≠ "val".
Proof.
  rewrite filter_In. unfold notSentinel. rewrite negb_true_iff.
  destruct (String.eqb_spec (name r) "val"); intuition congruence.
Qed.

(** ** Structure of the ordering *)

Lemma Forall2_concat_in {A B} (P : A → list B → Prop) (l : list A) (k : list (list B)) x :
  Forall2 P l k → In x (concat k) →
  ∃ a b, In a l ∧ In b k ∧ P a b ∧ In x b.
Proof.
  induction 1 as [|a b l k HP _ IH]; simpl; [tauto|].
  rewrite in_app_iff. intros [Hx|Hx].
  - exists a, b. tauto.
  - destruct (IH Hx) as (a' & b' & ? & ? & ? & ?). exists a', b'. tauto.
Qed.

Lemma Forall2_in_l {A B} (P : A → B → Prop) (l : list A) (k : list B) a :
  Forall2 P l k → In a l → ∃ b, In b k ∧ P a b.
Proof.
  induction 1 as [|a' b l k HP _ IH]; simpl; [tauto|].
  intros [->|Ha]; [eauto|]. destruct (IH Ha) as (b' & ? & ?). eauto.
Qed.

Section OrdererFacts.

Variable localeCompare : string → string → Z.
Variable field : SortField.
Variable dir : SortDir.

(** The rows the orderer works on, after the sentinel filter. *)
Variable rows : list GanttRow.

Let cm := childrenMap rows.
Let sortL := sortList localeCompare field dir.
Let proc := process localeCompare field dir.

Lemma process_unfold f r lvl res :
  proc (S f) cm r lvl = Some res ↔
  ∃ rest, Forall2 (λ k b, proc f cm k (S lvl) = Some b) (sortL (taskKids cm r)) rest
          ∧ res = output rows r lvl :: concat rest.
Proof.
  unfold proc. simpl. split.
  - intros H. apply bind_Some in H as (rest & Hm & Heq).
    apply mapM_Some in Hm. exists rest. split; [done|]. by inversion Heq.
  - intros (rest & Hm & ->). apply bind_Some. exists rest.
    split; [by apply mapM_Some|done].
Qed.

(** Every pushed object is the output rows of a row; it is the row the call
    started from, or the output rows of its parent was pushed one level up. *)
Lemma process_elem f : ∀ r lvl res x,
  proc f cm r lvl = Some res → In x res →
  ∃ r0 l, x = output rows r0 l ∧
    ((r0 = r ∧ l = lvl) ∨
     (∃ p l', l = S l' ∧ (lvl ≤ l')%nat ∧ In (output rows p l') res ∧ In r0 (taskKids cm p))).
Proof.
  induction f as [|f IH]; intros r lvl res x Hp Hx; [discriminate|].
  apply process_unfold in Hp as (rest & Hrest & ->).
  destruct Hx as [<-|Hx].
  - exists r, lvl. split; [done|]. by left.
  - destruct (Forall2_concat_in _ _ _ _ Hrest Hx) as (k & b & Hk & Hb & Hpk & Hxb).
    destruct (IH _ _ _ _ Hpk Hxb) as (r0 & l & -> & Hcase).
    exists r0, l. split; [done|]. right.
    destruct Hcase as [[-> ->]|(q & l' & -> & Hle & Hq & Hr0)].
    + exists r, lvl. split; [done|]. split; [lia|]. split; [by left|].
      by apply In_sortBy in Hk.
    + exists q, l'. split; [done|]. split; [lia|]. split; [|done].
      right. apply in_concat. eauto.
Qed.

Lemma process_head f r lvl res :
  proc f cm r lvl = Some res → In (output rows r lvl) res.
Proof.
  destruct f; [discriminate|]. intros H.
  apply process_unfold in H as (rest & _ & ->). by left.
Qed.

(** [orderGanttRows] on data whose sentinel-free part is [rows]. *)
Lemma orderGanttRows_unfold data0 res :
  List.filter notSentinel data0 = rows →
  (orderGanttRows localeCompare field dir data0 = Some res ↔
   ∃ rest, Forall2 (λ r b, proc (S (length rows)) cm r 0%nat = Some b)
             (sortL (rootsOf cm)) rest ∧ res = concat rest).
Proof.
  intros Hrows. unfold orderGanttRows. rewrite Hrows. fold cm. split.
  - intros H. apply bind_Some in H as (rest & Hm & Heq).
    apply mapM_Some in Hm. exists rest. split; [done|]. by inversion Heq.
  - intros (rest & Hm & ->). apply bind_Some. exists rest.
    split; [by apply mapM_Some|done].
Qed.

Lemma ordered_elem data0 res x :
  List.filter notSentinel data0 = rows →
  orderGanttRows localeCompare field dir data0 = Some res → In x res →
  ∃ r0 l, x = output rows r0 l ∧
    ((l = 0%nat ∧ In r0 (rootsOf cm)) ∨
     (∃ p l', l = S l' ∧ In (output rows p l') res ∧ In r0 (taskKids cm p))).
Proof.
  intros Hrows Hres Hx.
  apply (orderGanttRows_unfold _ _ Hrows) in Hres as (rest & Hrest & ->).
  destruct (Forall2_concat_in _ _ _ _ Hrest Hx) as (k & b & Hk & Hb & Hpk & Hxb).
  destruct (process_elem _ _ _ _ _ Hpk Hxb) as (r0 & l & -> & Hcase).
  exists r0, l. split; [done|].
  destruct Hcase as [[-> ->]|(q & l' & -> & _ & Hq & Hr0)].
  - left. split; [done|]. by apply In_sortBy in Hk.
  - right. exists q, l'. split; [done|]. split; [|done].
    apply in_concat. eauto.
Qed.

Lemma ordered_root data0 res r :
  List.filter notSentinel data0 = rows →
  orderGanttRows localeCompare field dir data0 = Some res →
  In r (rootsOf cm) → In (output rows r 0) res.
Proof.
  intros Hrows Hres Hr.
  apply (orderGanttRows_unfold _ _ Hrows) in Hres as (rest & Hrest & ->).
  assert (In r (sortL (rootsOf cm))) as Hr' by by apply In_sortBy.
  destruct (Forall2_in_l _ _ _ _ Hrest Hr') as (b & Hb & Hpb).
  apply in_concat. exists b. split; [done|]. by eapply process_head.
Qed.

(** Every pushed object comes from a row of [rows] that is not a
    milestone. *)
Lemma ordered_origin data0 res x :
  List.filter notSentinel data0 = rows →
  orderGanttRows localeCompare field dir data0 = Some res → In x res →
  ∃ r0 l, x = output rows r0 l ∧ In r0 rows ∧ isMilestone r0 = false.
Proof.
  intros Hrows Hres Hx.
  destruct (ordered_elem _ _ _ Hrows Hres Hx) as (r0 & l & -> & Hcase).
  exists r0, l. split; [done|].
  destruct Hcase as [[_ Hr]|(p & l' & _ & _ & Hr)].
  - apply In_rootsOf in Hr. tauto.
  - apply In_taskKids in Hr. tauto.
Qed.

End OrdererFacts.

(** ** Well-formed datasets: unique, non-empty identifiers *)

Lemma NoDup_map_inj {A B} (f : A → B) (l : list A) a b :
  NoDup (map f l) → In a l → In b l → f a = f b → a = b.
Proof.
  induction l as [|x l IH]; simpl; [tauto|].
  intros Hnd Ha Hb Hf. apply NoDup_cons in Hnd as [Hx Hnd].
  destruct Ha as [->|Ha], Hb as [->|Hb]; [done| | |by apply IH].
  - exfalso. apply Hx. rewrite Hf. apply list_elem_of_In, in_map, Hb.
  - exfalso. apply Hx. rewrite <- Hf. apply list_elem_of_In, in_map, Ha.
Qed.

Section Wellformed.

Variable localeCompare : string → string → Z.
Variable field : SortField.
Variable dir : SortDir.
Variable rows : list GanttRow.

Hypothesis ids_unique : NoDup (map id rows).
Hypothesis ids_nonempty : ∀ r, In r rows → id r ≠ "".

Let cm := childrenMap rows.
Let sortL := sortList localeCompare field dir.
Let proc := process localeCompare field dir.

Lemma chain_In C : chain rows C → ∀ x, In x C → In x rows.
Proof.
  induction 1 as [r Hr _|k r C _ IH Hk _]; intros x; simpl.
  - intros [<-|[]]. done.
  - intros [<-|Hx]; [done|]. by apply IH.
Qed.

Lemma chain_suffix K : chain rows K → ∀ x C, (x :: C) `suffix_of` K → chain rows (x :: C).
Proof.
  induction 1 as [r Hr Hp|k r C HC IH Hk Hp]; intros x D [pre Heq].
  - destruct pre as [|y pre]; simpl in Heq.
    + inversion Heq; subst. by constructor.
    + inversion Heq as [[Hy Hnil]]. by destruct pre.
  - destruct pre as [|y pre]; simpl in Heq.
    + inversion Heq; subst. by constructor.
    + inversion Heq as [[Hy Hrest]]. apply IH. by exists pre.
Qed.

Lemma chain_unique C1 : ∀ x C2, chain rows (x :: C1) → chain rows (x :: C2) → C1 = C2.
Proof.
  induction C1 as [|r1 C1 IH]; intros x C2 H1 H2.
  - inversion H1 as [? _ Hroot|]; subst.
    inversion H2 as [|? r2 ? H2' _ Hp]; subst; [done|].
    exfalso. apply (ids_nonempty r2); [|congruence].
    eapply chain_In; [exact H2'|by left].
  - inversion H1 as [|? ? ? H1' _ Hp1]; subst.
    inversion H2 as [? _ Hroot|? r2 C2' H2' _ Hp2]; subst.
    + exfalso. apply (ids_nonempty r1); [|congruence].
      eapply chain_In; [exact H1'|by left].
    + assert (r1 = r2) as ->.
      { apply (NoDup_map_inj id rows); [done| | |congruence].
        - eapply chain_In; [exact H1'|by left].
        - eapply chain_In; [exact H2'|by left]. }
      f_equal. by eapply IH.
Qed.

Lemma chain_NoDup C : chain rows C → NoDup (map id C).
Proof.
  induction 1 as [r Hr Hp|k r C HC IH Hk Hp].
  - apply NoDup_singleton.
  - rewrite map_cons. apply NoDup_cons. split; [|done].
    intros Hin. apply list_elem_of_In, in_map_iff in Hin as (y & Hy & HyC).
    assert (In y rows) as Hyrows by by eapply chain_In.
    assert (y = k) as -> by by apply (NoDup_map_inj id rows).
    apply in_split in HyC as (pre & post & Heq).
    assert (chain rows (k :: post)) as Hk1.
    { apply (chain_suffix (r :: C)); [done|]. exists pre. by rewrite Heq. }
    assert (chain rows (k :: r :: C)) as Hk2 by by constructor.
    pose proof (chain_unique _ _ _ Hk1 Hk2) as Hpost.
    apply (f_equal length) in Heq. rewrite Hpost in Heq.
    rewrite length_app in Heq. simpl in Heq. lia.
Qed.

Lemma chain_length C : chain rows C → (length C ≤ length rows)%nat.
Proof.
  intros HC. rewrite <- (length_map id C), <- (length_map id rows).
  apply NoDup_incl_length.
  - apply NoDup_ListNoDup, chain_NoDup, HC.
  - intros i Hi. apply in_map_iff in Hi as (y & <- & Hy).
    apply in_map. by eapply chain_In.
Qed.

Lemma chain_kid r C k :
  chain rows (r :: C) → In k (sortL (taskKids cm r)) → chain rows (k :: r :: C).
Proof.
  intros HC Hk. apply In_sortBy, In_taskKids in Hk as (Hk & Hp & _).
  by constructor.
Qed.

Lemma chain_of_root r : In r (sortL (rootsOf cm)) → chain rows [r].
Proof.
  intros Hr. apply In_sortBy, In_rootsOf in Hr as (Hr & Hp & _).
  by constructor.
Qed.

(** The recursion comes back: a chain never exceeds the number of rows. *)
Lemma process_returns f : ∀ r lvl C,
  chain rows (r :: C) → (length rows < f + length (r :: C))%nat →
  is_Some (proc f cm r lvl).
Proof.
  induction f as [|f IH]; intros r lvl C HC Hlen.
  - apply chain_length in HC. simpl in *. lia.
  - assert (is_Some (mapM (λ child, proc f cm child (S lvl))
                       (sortL (taskKids cm r)))) as [rest Hrest].
    { apply mapM_is_Some, Forall_forall. intros k Hk. simpl.
      apply list_elem_of_In in Hk.
      apply (IH k (S lvl) (r :: C)); [by apply chain_kid|simpl in *; lia]. }
    apply mapM_Some in Hrest.
    exists (output rows r lvl :: concat rest).
    apply process_unfold. eauto.
Qed.

(** Every pushed object is the output of the head of a chain that runs
    through the row the call started from. *)
Lemma process_chain f : ∀ r lvl C res x,
  chain rows (r :: C) → proc f cm r lvl = Some res → In x res →
  ∃ x0 K l, x = output rows x0 l ∧ chain rows (x0 :: K)
            ∧ (r :: C) `suffix_of` (x0 :: K).
Proof.
  induction f as [|f IH]; intros r lvl C res x HC Hp Hx; [discriminate|].
  apply process_unfold in Hp as (rest & Hrest & ->).
  destruct Hx as [<-|Hx].
  - exists r, C, lvl. done.
  - destruct (Forall2_concat_in _ _ _ _ Hrest Hx) as (k & b & Hk & Hb & Hpk & Hxb).
    destruct (IH k (S lvl) (r :: C) b x) as (x0 & K & l & -> & HK & Hsuf);
      [by apply chain_kid|done|done|].
    exists x0, K, l. split; [done|]. split; [done|].
    by eapply suffix_cons_l.
Qed.

Lemma suffix_same_length {A} (a b : A) C K :
  (a :: C) `suffix_of` K → (b :: C) `suffix_of` K → a = b.
Proof.
  intros [p1 H1] [p2 H2]. rewrite H1 in H2.
  apply app_inj_2 in H2 as [_ H2]; [by inversion H2|done].
Qed.

(** Two pushed objects with the same identifier, found under rows [k1]
    and [k2] of one sibling list, sit under the same sibling. *)
Lemma same_id_same_sibling f1 f2 k1 k2 l1 l2 Cx b1 b2 x y :
  chain rows (k1 :: Cx) → chain rows (k2 :: Cx) →
  proc f1 cm k1 l1 = Some b1 → proc f2 cm k2 l2 = Some b2 →
  In x b1 → In y b2 → id x = id y → k1 = k2.
Proof.
  intros H1 H2 Hp1 Hp2 Hx Hy Hid.
  destruct (process_chain _ _ _ _ _ _ H1 Hp1 Hx) as (x0 & K1 & ? & -> & HK1 & Hs1).
  destruct (process_chain _ _ _ _ _ _ H2 Hp2 Hy) as (y0 & K2 & ? & -> & HK2 & Hs2).
  simpl in Hid.
  assert (x0 = y0) as <-.
  { apply (NoDup_map_inj id rows); [done| | |done].
    - eapply chain_In; [exact HK1|by left].
    - eapply chain_In; [exact HK2|by left]. }
  assert (K1 = K2) as <- by by eapply chain_unique.
  by eapply suffix_same_length.
Qed.

Lemma forest_NoDup f lvl Cx : ∀ sibs rest,
  (∀ r C res, chain rows (r :: C) → proc f cm r lvl = Some res → NoDup (map id res)) →
  NoDup sibs → (∀ k, In k sibs → chain rows (k :: Cx)) →
  Forall2 (λ k b, proc f cm k lvl = Some b) sibs rest →
  NoDup (map id (concat rest)).
Proof.
  intros sibs rest IH Hnd Hch HF.
  induction HF as [|k b sibs rest Hpk HF IHF]; simpl; [constructor|].
  apply NoDup_cons in Hnd as [Hk Hnd].
  rewrite map_app. apply NoDup_app. split; [|split].
  - eapply IH; [|done]. apply Hch. by left.
  - intros i Hi1 Hi2.
    apply list_elem_of_In, in_map_iff in Hi1 as (x & <- & Hx).
    apply list_elem_of_In, in_map_iff in Hi2 as (y & Hid & Hy).
    destruct (Forall2_concat_in _ _ _ _ HF Hy) as (k' & b' & Hk' & _ & Hpk' & Hyb).
    assert (k = k') as <-.
    { eapply (same_id_same_sibling f f k k' lvl lvl Cx b b' x y); eauto.
      - apply Hch. by left.
      - apply Hch. by right. }
    apply Hk. by apply list_elem_of_In.
  - apply IHF; [done|]. intros k' Hk'. apply Hch. by right.
Qed.

Lemma kids_NoDup r : NoDup (sortL (taskKids cm r)).
Proof.
  unfold sortL, sortList. rewrite sortBy_perm. unfold taskKids.
  apply NoDup_ListNoDup, List.NoDup_filter.
  unfold cm. rewrite kidsOf_childrenMap.
  apply List.NoDup_filter, NoDup_ListNoDup.
  by eapply NoDup_fmap_1.
Qed.

Lemma roots_NoDup : NoDup (sortL (rootsOf cm)).
Proof.
  unfold sortL, sortList. rewrite sortBy_perm. unfold rootsOf.
  apply NoDup_ListNoDup, List.NoDup_filter.
  unfold cm. rewrite kidsOf_childrenMap.
  apply List.NoDup_filter, NoDup_ListNoDup.
  by eapply NoDup_fmap_1.
Qed.

Lemma process_NoDup f : ∀ r lvl C res,
  chain rows (r :: C) → proc f cm r lvl = Some res → NoDup (map id res).
Proof.
  induction f as [|f IH]; intros r lvl C res HC Hp; [discriminate|].
  apply process_unfold in Hp as (rest & Hrest & ->). simpl.
  apply NoDup_cons. split.
  - intros Hin. apply list_elem_of_In, in_map_iff in Hin as (x & Hid & Hx).
    destruct (Forall2_concat_in _ _ _ _ Hrest Hx) as (k & b & Hk & _ & Hpk & Hxb).
    pose proof (chain_kid _ _ _ HC Hk) as HkC.
    destruct (process_chain _ _ _ _ _ _ HkC Hpk Hxb) as (x0 & K & ? & -> & HK & Hs).
    simpl in Hid.
    assert (x0 = r) as ->.
    { apply (NoDup_map_inj id rows); [done| | |done].
      - eapply chain_In; [exact HK|by left].
      - eapply chain_In; [exact HC|by left]. }
    assert (K = C) as -> by by eapply chain_unique.
    by apply suffix_cons_not in Hs.
  - eapply (forest_NoDup f (S lvl) (r :: C)); [|apply kids_NoDup| |exact Hrest].
    + intros. by eapply IH.
    + intros k Hk. by apply chain_kid.
Qed.

End Wellformed.

(** ** Claims about the hierarchy orderer *)

Section OrderingClaims.

Variable localeCompare : string → string → Z.
Variable field : SortField.
Variable dir : SortDir.

Let order := orderGanttRows localeCompare field dir.

Lemma visible_ids_unique data0 :
  NoDup (map id data0) → NoDup (map id (List.filter notSentinel data0)).
Proof.
  induction data0 as [|r data0 IH]; simpl; [done|].
  intros Hnd. apply NoDup_cons in Hnd as [Hr Hnd].
  destruct (notSentinel r); simpl; [|by apply IH].
  apply NoDup_cons. split; [|by apply IH].
  intros Hin. apply Hr.
  apply list_elem_of_In, in_map_iff in Hin as (y & <- & Hy).
  apply filter_In in Hy as [Hy _]. apply list_elem_of_In, in_map, Hy.
Qed.

Lemma visible_ids_nonempty data0 :
  (∀ r, In r data0 → id r ≠ "") →
  ∀ r, In r (List.filter notSentinel data0) → id r ≠ "".
Proof. intros H r Hr. apply filter_In in Hr as [Hr _]. by apply H. Qed.

(** On a dataset with unique, non-empty identifiers the ordering comes
    back. *)
Lemma orderGanttRows_returns data0 :
  NoDup (map id data0) → (∀ r, In r data0 → id r ≠ "") →
  is_Some (order data0).
Proof.
  intros Hnd Hne.
  set (rows := List.filter notSentinel data0).
  assert (is_Some (mapM (λ r, process localeCompare field dir (S (length rows))
                                (childrenMap rows) r 0%nat)
                     (sortList localeCompare field dir (rootsOf (childrenMap rows)))))
    as [rest Hrest].
  { apply mapM_is_Some, Forall_forall. intros k Hk.
    change (is_Some (process localeCompare field dir (S (length rows))
                       (childrenMap rows) k 0%nat)).
    apply list_elem_of_In in Hk.
    apply (process_returns localeCompare field dir rows) with (C := []).
    - by apply visible_ids_unique.
    - by apply visible_ids_nonempty.
    - by apply chain_of_root in Hk.
    - simpl. lia. }
  exists (concat rest).
  apply (orderGanttRows_unfold localeCompare field dir rows data0); [done|].
  exists rest. split; [|done]. by apply mapM_Some.
Qed.

Lemma orderGanttRows_NoDup data0 res :
  NoDup (map id data0) → (∀ r, In r data0 → id r ≠ "") →
  order data0 = Some res → NoDup (map id res).
Proof.
  intros Hnd Hne Hres.
  pose proof (visible_ids_unique _ Hnd) as Hnd'.
  pose proof (visible_ids_nonempty _ Hne) as Hne'.
  destruct (proj1 (orderGanttRows_unfold localeCompare field dir _ data0 res eq_refl) Hres)
    as (rest & Hrest & ->).
  eapply (forest_NoDup localeCompare field dir _ Hnd' Hne' _ 0%nat []);
    [|by apply roots_NoDup| |exact Hrest].
  - intros r C res. by apply process_NoDup.
  - intros k Hk. by apply chain_of_root in Hk.
Qed.

(** A row read back from an output keeps every field but [level] and
    [milestones]. *)
Lemma processed_fields r l ms r' l' ms' :
  processed r l ms = processed r' l' ms' →
  id r = id r' ∧ name r = name r' ∧ parentId r = parentId r'
  ∧ rowType r = rowType r' ∧ startDate r = startDate r'
  ∧ endDate r = endDate r' ∧ l = l' ∧ ms = ms'.
Proof. unfold processed. intros H. inversion H. tauto. Qed.

Lemma isMilestone_processed r l ms : isMilestone (processed r l ms) = isMilestone r.
Proof. done. Qed.


(** C4, amended. A row that is not a milestone and whose non-empty
    [parentId] is the identifier of no other row is absent from the
    returned sequence, and the rows returned at level 0 are exactly the rows
    that pass the sentinel filter, are not milestones and have an empty
    [parentId]. *)
Theorem orphans_dropped_roots_exact data0 res :
  order data0 = Some res →
  (∀ r, In r data0 → isMilestone r = false → parentId r ≠ "" →
        (∀ y, In y data0 → y ≠ r → id y ≠ parentId r) →
        ∀ l ms, ¬ In (processed r l ms) res)
  ∧ (∀ x, In x res ∧ level x = Some 0%nat ↔
          ∃ r, In r data0 ∧ name r ≠ "val" ∧ parentId r = ""
               ∧ isMilestone r = false
               ∧ x = processed r 0
                       (milestoneKids (childrenMap (List.filter notSentinel data0)) r)).
Proof.
  intros Hres.
  set (rows := List.filter notSentinel data0) in *.
  split.
  - intros r Hr Hm Hp Hself l.
    induction l as [|l IH]; intros ms Hin.
    + destruct (ordered_elem localeCompare field dir _ data0 res _ eq_refl Hres Hin)
        as (r0 & l0 & Heq & Hcase).
      apply processed_fields in Heq as (_ & _ & Hpar & _ & _ & _ & Hl & _).
      destruct Hcase as [[_ Hroot]|(p & l' & ? & _)]; [|lia].
      apply In_rootsOf in Hroot as (_ & Hp0 & _). congruence.
    + destruct (ordered_elem localeCompare field dir _ data0 res _ eq_refl Hres Hin)
        as (r0 & l0 & Heq & Hcase).
      apply processed_fields in Heq as (_ & _ & Hpar & _ & _ & _ & Hl & _).
      destruct Hcase as [[? _]|(p & l' & Hl' & Hpin & Hkid)]; [lia|].
      assert (l' = l) as -> by lia.
      apply In_taskKids in Hkid as (_ & Hp0 & _).
      destruct (ordered_origin localeCompare field dir _ data0 res _ eq_refl Hres Hpin)
        as (p0 & lp & Heqp & Hp0in & _).
      apply In_visible in Hp0in as [Hp0in Hp0name].
      pose proof Heqp as Heqp'.
      apply processed_fields in Heqp' as (Hidp & _ & _ & _ & _ & _ & Hlp & Hms).
      apply (Hself p0 Hp0in); [|simpl in Hidp; congruence].
      intros ->.
      apply (IH (milestoneKids (childrenMap rows) p)).
      unfold output in Hpin.
      replace (processed r l (milestoneKids (childrenMap rows) p))
        with (processed p l (milestoneKids (childrenMap rows) p)); [done|].
      clear -Heqp. unfold output, processed in *.
      inversion Heqp. congruence.
  - intros x. split.
    + intros [Hx Hlvl].
      destruct (ordered_elem localeCompare field dir _ data0 res _ eq_refl Hres Hx)
        as (r0 & l0 & -> & Hcase).
      simpl in Hlvl. inversion Hlvl; subst l0.
      destruct Hcase as [[_ Hroot]|(p & l' & ? & _)]; [|lia].
      apply In_rootsOf in Hroot as (Hin & Hp0 & Hm0).
      apply In_visible in Hin as [Hin Hname].
      exists r0. done.
    + intros (r & Hin & Hname & Hp & Hm & ->). split; [|done].
      apply (ordered_root localeCompare field dir _ data0 res r eq_refl Hres).
      apply In_rootsOf. split; [|done]. by apply In_visible.
Qed.

(** C3, amended. A milestone row is never an element of the returned
    sequence. It is in the milestones list of a returned row exactly when it
    passes the sentinel filter and its [parentId] is the identifier of a row
    that is itself returned; when identifiers are unique and non-empty it is
    there exactly once. *)
Theorem milestones_follow_returned_parent data0 res m :
  order data0 = Some res → In m data0 → isMilestone m = true →
  (∀ x, In x res → isMilestone x = false)
  ∧ (∀ l ms, ¬ In (processed m l ms) res)
  ∧ ((∃ x, In x res ∧ In m (milestones x))
     ↔ (name m ≠ "val" ∧ ∃ x, In x res ∧ id x = parentId m))
  ∧ (NoDup (map id data0) → (∀ r, In r data0 → id r ≠ "") →
     ∀ (i j i' j' : nat) x x',
       res !! i = Some x → milestones x !! j = Some m →
       res !! i' = Some x' → milestones x' !! j' = Some m →
       i = i' ∧ j = j').
Proof.
  intros Hres Hm Hmile.
  assert (∀ x, In x res → isMilestone x = false) as Hnever.
  { intros x Hx.
    destruct (ordered_origin localeCompare field dir _ data0 res x eq_refl Hres Hx)
      as (r0 & l & -> & _ & Hr0). done. }
  assert (∀ x, In x res → In m (milestones x) → id x = parentId m) as Hpar.
  { intros x Hx Hmx.
    destruct (ordered_origin localeCompare field dir _ data0 res x eq_refl Hres Hx)
      as (r0 & l & -> & _ & _). simpl in *.
    apply In_milestoneKids in Hmx. by destruct Hmx as (_ & -> & _). }
  split; [done|]. split; [|split].
  - intros l ms Hin. apply Hnever in Hin.
    rewrite isMilestone_processed in Hin. congruence.
  - split.
    + intros (x & Hx & Hmx). split.
      * destruct (ordered_origin localeCompare field dir _ data0 res x eq_refl Hres Hx)
          as (r0 & l & -> & _ & _). simpl in Hmx.
        apply In_milestoneKids in Hmx as (Hin & _).
        apply In_visible in Hin. tauto.
      * exists x. split; [done|]. by apply Hpar.
    + intros (Hname & x & Hx & Hid). exists x. split; [done|].
      destruct (ordered_origin localeCompare field dir _ data0 res x eq_refl Hres Hx)
        as (r0 & l & -> & _ & _). simpl in *.
      apply In_milestoneKids. split; [|done]. by apply In_visible.
  - intros Hnd Hne i j i' j' x x' Hi Hj Hi' Hj'.
    pose proof (orderGanttRows_NoDup _ _ Hnd Hne Hres) as Hndres.
    assert (In x res) as Hx by (apply list_elem_of_In; by eapply list_elem_of_lookup_2).
    assert (In x' res) as Hx' by (apply list_elem_of_In; by eapply list_elem_of_lookup_2).
    assert (In m (milestones x)) as Hmx
      by (apply list_elem_of_In; by eapply list_elem_of_lookup_2).
    assert (In m (milestones x')) as Hmx'
      by (apply list_elem_of_In; by eapply list_elem_of_lookup_2).
    assert (i = i') as <-.
    { eapply (NoDup_lookup (map id res)); [done| |].
      - apply (list_lookup_fmap_Some_2 id). exact Hi.
      - rewrite (Hpar x Hx Hmx), <- (Hpar x' Hx' Hmx').
        apply (list_lookup_fmap_Some_2 id). exact Hi'. }
    split; [done|]. rewrite Hi in Hi'. inversion Hi'; subst x'.
    eapply NoDup_lookup; [|exact Hj|exact Hj'].
    destruct (ordered_origin localeCompare field dir _ data0 res x eq_refl Hres Hx)
      as (r0 & l & -> & _ & _). simpl.
    unfold milestoneKids. rewrite kidsOf_childrenMap.
    apply NoDup_ListNoDup, List.NoDup_filter, List.NoDup_filter, NoDup_ListNoDup.
    eapply NoDup_fmap_1. by apply visible_ids_unique.
Qed.

End OrderingClaims.

(** ** Sibling order by date *)

Lemma precedes_app_l {A} (l k : list A) a b : precedes l a b → precedes (l ++ k) a b.
Proof.
  intros (i & j & Hi & Hj & Hlt). exists i, j.
  split; [by apply lookup_app_l_Some|]. split; [by apply lookup_app_l_Some|done].
Qed.

Lemma precedes_app_r {A} (l k : list A) a b : precedes k a b → precedes (l ++ k) a b.
Proof.
  intros (i & j & Hi & Hj & Hlt). exists (length l + i)%nat, (length l + j)%nat.
  rewrite !lookup_app_r by lia.
  replace (length l + i - length l)%nat with i by lia.
  replace (length l + j - length l)%nat with j by lia.
  split; [done|]. split; [done|lia].
Qed.

Lemma precedes_app {A} (l k : list A) a b : In a l → In b k → precedes (l ++ k) a b.
Proof.
  intros Ha Hb.
  apply list_elem_of_In, list_elem_of_lookup in Ha as [i Hi].
  apply list_elem_of_In, list_elem_of_lookup in Hb as [j Hj].
  exists i, (length l + j)%nat.
  pose proof (lookup_lt_Some _ _ _ Hi).
  split; [by apply lookup_app_l_Some|].
  rewrite lookup_app_r by lia.
  replace (length l + j - length l)%nat with j by lia.
  split; [done|lia].
Qed.

Lemma precedes_concat_in {A} (rest : list (list A)) blk a b :
  In blk rest → precedes blk a b → precedes (concat rest) a b.
Proof.
  intros Hin Hp. apply in_split in Hin as (r1 & r2 & ->).
  rewrite concat_app. simpl.
  by apply precedes_app_r, precedes_app_l.
Qed.

Lemma precedes_concat_blocks {A} (rest : list (list A)) : ∀ (i j : nat) ba bb a b,
  rest !! i = Some ba → rest !! j = Some bb → (i < j)%nat →
  In a ba → In b bb → precedes (concat rest) a b.
Proof.
  induction rest as [|b0 rest IH]; intros i j ba bb a b Hi Hj Hlt Ha Hb.
  - by rewrite lookup_nil in Hi.
  - destruct j as [|j]; [lia|]. simpl in Hj. destruct i as [|i]; simpl in Hi.
    + inversion Hi; subst b0. apply precedes_app; [done|].
      apply in_concat. exists bb. split; [|done].
      apply list_elem_of_In. by eapply list_elem_of_lookup_2.
    + apply precedes_app_r. eapply (IH i j); eauto. lia.
Qed.

Section SiblingOrder.

Variable localeCompare : string → string → Z.
Variable field : SortField.
Variable dir : SortDir.
Variable rows : list GanttRow.

Hypothesis ids_unique : NoDup (map id rows).
Hypothesis ids_nonempty : ∀ r, In r rows → id r ≠ "".
Hypothesis rows_valid : ∀ r, In r rows → validRow r.

Let cm := childrenMap rows.
Let cmpr := compare localeCompare field dir.
Let sortL := sortList localeCompare field dir.
Let proc := process localeCompare field dir.
Let before := mustPrecede dir field.

Lemma sortDate_bound r t : validRow r → sortDate field r = Some t → t < MAX_SAFE_INTEGER.
Proof.
  intros [Hs He] Ht. unfold MAX_SAFE_INTEGER.
  destruct field; simpl in Ht; [done| |].
  - apply Hs in Ht. unfold validTime in Ht. lia.
  - apply He in Ht. unfold validTime in Ht. lia.
Qed.

Lemma valFor_sortDate r :
  field ≠ SortName →
  valFor field r = VNum (default MAX_SAFE_INTEGER (sortDate field r)).
Proof. by destruct field. Qed.

(** The comparator puts [a] strictly before [b] whenever the dates
    separate them. *)
Lemma compare_before a b :
  validRow a → validRow b → before a b → cmpr a b < 0 ∧ 0 < cmpr b a.
Proof.
  intros Ha Hb Hab. unfold cmpr, compare.
  assert (field ≠ SortName) as Hf.
  { intros Hf. unfold before, mustPrecede in Hab. rewrite Hf in Hab.
    destruct dir, Hab as [H1 H2]; simpl in *; [by destruct H1|by destruct H2]. }
  rewrite !valFor_sortDate by done. unfold before, mustPrecede in Hab.
  destruct dir.
  - destruct Hab as [[t Ht] Hnone]. rewrite Ht, Hnone. simpl.
    pose proof (sortDate_bound _ _ Ha Ht).
    destruct (Z.ltb_spec t MAX_SAFE_INTEGER); [|lia].
    destruct (Z.ltb_spec MAX_SAFE_INTEGER t); lia.
  - destruct Hab as [Hnone [t Ht]]. rewrite Ht, Hnone. simpl.
    pose proof (sortDate_bound _ _ Hb Ht).
    destruct (Z.ltb_spec t MAX_SAFE_INTEGER); [|lia].
    destruct (Z.ltb_spec MAX_SAFE_INTEGER t); lia.
Qed.

Lemma before_irrefl a : ¬ before a a.
Proof.
  unfold before, mustPrecede.
  destruct dir; intros [H1 H2].
  - rewrite H2 in H1. by destruct H1.
  - rewrite H1 in H2. by destruct H2.
Qed.

(** If [z] goes before [x] and [y] does not, then [z] goes before [y]. *)
Lemma before_shift x y z : before z x → ¬ before y x → before z y.
Proof.
  unfold before, mustPrecede. destruct dir; intros [H1 H2] Hn; split; try done.
  - destruct (sortDate field y) eqn:E; [|done]. exfalso. apply Hn. eauto.
  - destruct (sortDate field y) eqn:E; [eauto|]. exfalso. by apply Hn.
Qed.

Lemma insertBy_dateSorted x l :
  validRow x → Forall validRow l →
  dateSorted field dir l → dateSorted field dir (insertBy cmpr x l).
Proof.
  intros Hx Hl Hs. induction Hs as [|y l Hs IH Hy]; simpl.
  - repeat constructor.
  - apply Forall_cons in Hl as [Hvy Hl].
    destruct (Z.leb_spec (cmpr x y) 0) as [Hle|Hgt].
    + constructor; [by constructor|].
      assert (¬ before y x) as Hyx.
      { intros Hb. apply compare_before in Hb; [lia|done|done]. }
      constructor; [done|].
      apply List.Forall_forall. intros z Hz Hzx.
      rewrite List.Forall_forall in Hy. apply (Hy z Hz).
      by eapply before_shift.
    + constructor; [by apply IH|].
      apply List.Forall_forall. intros z Hz.
      apply In_insertBy in Hz as [->|Hz].
      * intros Hb. apply compare_before in Hb; [lia|done|done].
      * rewrite List.Forall_forall in Hy. by apply Hy.
Qed.

Lemma sortBy_dateSorted l : Forall validRow l → dateSorted field dir (sortBy cmpr l).
Proof.
  induction l as [|x l IH]; simpl; intros Hl; [constructor|].
  apply Forall_cons in Hl as [Hx Hl].
  apply insertBy_dateSorted; [done| |by apply IH].
  apply Forall_forall. intros y Hy. apply list_elem_of_In, In_sortBy in Hy.
  rewrite Forall_forall in Hl. by apply Hl, list_elem_of_In.
Qed.

Lemma dateSorted_precedes l a b :
  dateSorted field dir l → In a l → In b l → before a b → precedes l a b.
Proof.
  intros Hs Ha Hb Hab. apply in_split in Ha as (l1 & l2 & ->).
  apply in_app_iff in Hb as [Hb|[<-|Hb]].
  - exfalso. apply in_split in Hb as (l3 & l4 & ->).
    rewrite <- app_assoc in Hs. simpl in Hs.
    induction l3 as [|z l3 IH]; simpl in Hs.
    + apply StronglySorted_inv in Hs as [_ Hall].
      rewrite List.Forall_forall in Hall.
      apply (Hall a); [|done]. apply in_app_iff. right. by left.
    + apply StronglySorted_inv in Hs as [Hs _]. by apply IH.
  - by apply before_irrefl in Hab.
  - apply precedes_app_r.
    apply (precedes_app [a] l2); [by left|done].
Qed.

Lemma sortDate_processed r l ms : sortDate field (processed r l ms) = sortDate field r.
Proof. by destruct field. Qed.

Lemma before_output x l y l' :
  before (output rows x l) (output rows y l') ↔ before x y.
Proof. unfold before, mustPrecede, output. by rewrite !sortDate_processed. Qed.

Lemma kids_dateSorted r : dateSorted field dir (sortL (taskKids cm r)).
Proof.
  apply sortBy_dateSorted, Forall_forall. intros k Hk.
  apply list_elem_of_In, In_taskKids in Hk. apply rows_valid. tauto.
Qed.

Lemma roots_dateSorted : dateSorted field dir (sortL (rootsOf cm)).
Proof.
  apply sortBy_dateSorted, Forall_forall. intros k Hk.
  apply list_elem_of_In, In_rootsOf in Hk. apply rows_valid. tauto.
Qed.

(** A row found below [r] in the traversal does not have the parent of
    [r] as its parent. *)
Lemma below_not_sibling r C k a0 K :
  chain rows (r :: C) → chain rows (a0 :: K) →
  (k :: r :: C) `suffix_of` (a0 :: K) → parentId a0 ≠ parentId r.
Proof.
  intros Hr Ha Hsuf Hpar.
  pose proof (suffix_length _ _ Hsuf) as Hlen. simpl in Hlen.
  inversion Ha as [? _ _|? a1 K' Ha1 _ Hpa]; subst; [simpl in Hlen; lia|].
  assert (In a1 rows) as Ha1in by (eapply chain_In; [exact Ha1|by left]).
  inversion Hr as [? _ Hroot|? r' C' Hr' _ Hpr]; subst.
  - apply (ids_nonempty a1); [done|congruence].
  - assert (In r' rows) as Hr'in by (eapply chain_In; [exact Hr'|by left]).
    assert (a1 = r') as -> by (apply (NoDup_map_inj id rows); [done..|congruence]).
    assert (K' = C') as -> by (eapply chain_unique; eauto).
    simpl in Hlen. lia.
Qed.

Lemma forest_order f lvl Cx pid : ∀ sibs rest,
  (∀ r res, chain rows (r :: Cx) → proc f cm r lvl = Some res →
     ∀ a b, In a res → In b res → parentId a = parentId b → before a b →
            precedes res a b) →
  dateSorted field dir sibs →
  (∀ k, In k sibs → chain rows (k :: Cx)) →
  (∀ k, In k sibs → parentId k = pid) →
  Forall2 (λ k b, proc f cm k lvl = Some b) sibs rest →
  (∀ x, In x (concat rest) → id x ≠ pid) →
  ∀ a b, In a (concat rest) → In b (concat rest) →
         parentId a = parentId b → before a b → precedes (concat rest) a b.
Proof.
  intros sibs rest IH Hsorted Hch Hpid HF Hfresh a b Ha Hb Hpar Hab.
  destruct (Forall2_concat_in _ _ _ _ HF Ha) as (ka & ba & Hka & Hba & Hpa & Hxa).
  destruct (Forall2_concat_in _ _ _ _ HF Hb) as (kb & bb & Hkb & Hbb & Hpb & Hxb).
  destruct (process_elem _ _ _ _ _ _ _ _ _ Hpa Hxa)
    as (a0 & la & -> & [[-> ->]|(pa & la' & -> & _ & Hpain & Ha0)]);
  destruct (process_elem _ _ _ _ _ _ _ _ _ Hpb Hxb)
    as (b0 & lb & -> & [[-> ->]|(pb & lb' & -> & _ & Hpbin & Hb0)]).
  - apply before_output in Hab.
    destruct (dateSorted_precedes _ _ _ Hsorted Hka Hkb Hab) as (i & j & Hi & Hj & Hlt).
    destruct (Forall2_lookup_l _ _ _ _ _ HF Hi) as (ba' & Hbi & Hpa').
    destruct (Forall2_lookup_l _ _ _ _ _ HF Hj) as (bb' & Hbj & Hpb').
    apply (precedes_concat_blocks rest i j ba' bb'); [done|done|done| |].
    + eapply process_head. exact Hpa'.
    + eapply process_head. exact Hpb'.
  - exfalso. apply In_taskKids in Hb0 as (_ & Hb0 & _).
    apply (Hfresh (output rows pb lb')).
    + apply in_concat. eauto.
    + simpl in *. rewrite <- Hb0, <- Hpar. by apply Hpid.
  - exfalso. apply In_taskKids in Ha0 as (_ & Ha0 & _).
    apply (Hfresh (output rows pa la')).
    + apply in_concat. eauto.
    + simpl in *. rewrite <- Ha0, Hpar. by apply Hpid.
  - apply In_taskKids in Ha0 as (_ & Ha0 & _).
    apply In_taskKids in Hb0 as (_ & Hb0 & _).
    assert (ka = kb) as <-.
    { eapply (same_id_same_sibling localeCompare field dir rows ids_unique ids_nonempty
                f f ka kb lvl lvl Cx ba bb (output rows pa la') (output rows pb lb'));
        eauto.
      simpl in *. congruence. }
    assert (ba = bb) as <- by congruence.
    eapply precedes_concat_in; [exact Hba|].
    eapply IH; eauto.
Qed.

Lemma process_order f : ∀ r lvl C res,
  chain rows (r :: C) → proc f cm r lvl = Some res →
  ∀ a b, In a res → In b res → parentId a = parentId b → before a b →
         precedes res a b.
Proof.
  induction f as [|f IH]; intros r lvl C res HC Hp a b Ha Hb Hpar Hab; [discriminate|].
  pose proof (process_NoDup localeCompare field dir rows ids_unique ids_nonempty
                _ _ _ _ _ HC Hp) as Hnd.
  apply process_unfold in Hp as (rest & Hrest & ->).
  assert (∀ x, In x (concat rest) → parentId x ≠ parentId r) as Hbelow.
  { intros x Hx.
    destruct (Forall2_concat_in _ _ _ _ Hrest Hx) as (k & blk & Hk & _ & Hpk & Hxb).
    pose proof (chain_kid localeCompare field dir rows _ _ _ HC Hk) as HkC.
    destruct (process_chain localeCompare field dir rows _ _ _ _ _ _ HkC Hpk Hxb)
      as (x0 & K & ? & -> & HK & Hs).
    simpl. by eapply below_not_sibling. }
  destruct Ha as [<-|Ha], Hb as [<-|Hb].
  - by apply before_output, before_irrefl in Hab.
  - apply (precedes_app [output rows r lvl]); [by left|done].
  - exfalso. by apply (Hbelow a).
  - apply (precedes_app_r [output rows r lvl]).
    apply (forest_order f (S lvl) (r :: C) (id r) (sortL (taskKids cm r)) rest);
      [| | | |exact Hrest| |done..].
    + intros k blk Hk Hblk. by apply (IH k (S lvl) (r :: C)).
    + apply kids_dateSorted.
    + intros k Hk. by apply (chain_kid localeCompare field dir rows).
    + intros k Hk. apply In_sortBy, In_taskKids in Hk. tauto.
    + intros x Hx Hid. rewrite map_cons in Hnd.
      apply NoDup_cons in Hnd as [Hnd _]. apply Hnd.
      simpl. rewrite <- Hid. apply list_elem_of_In, in_map, Hx.
Qed.

End SiblingOrder.

(** C1, amended. With unique non-empty identifiers and valid dates, a row
    without the sort date and a sibling with it are returned in the order
    of the direction: ascending, the undated row comes after the dated one;
    descending, the undated row comes before it. *)
Theorem undated_siblings_follow_direction
    (localeCompare : string → string → Z) (field : SortField) (dir : SortDir)
    (data0 res : list GanttRow) :
  NoDup (map id data0) → (∀ r, In r data0 → id r ≠ "") →
  (∀ r, In r data0 → validRow r) →
  orderGanttRows localeCompare field dir data0 = Some res →
  ∀ (i j : nat) a b,
    res !! i = Some a → res !! j = Some b → parentId a = parentId b →
    is_Some (sortDate field a) → sortDate field b = None →
    match dir with Asc => (i < j)%nat | Desc => (j < i)%nat end.
Proof.
  intros Hnd Hne Hvalid Hres i j a b Hi Hj Hpar Ha Hb.
  pose proof (orderGanttRows_NoDup _ _ _ _ _ Hnd Hne Hres) as Hndres.
  pose proof (visible_ids_unique _ Hnd) as Hnd'.
  pose proof (visible_ids_nonempty _ Hne) as Hne'.
  set (rows := List.filter notSentinel data0) in *.
  assert (∀ r, In r rows → validRow r) as Hvalid'.
  { intros r Hr. apply filter_In in Hr as [Hr _]. by apply Hvalid. }
  assert (In a res) as Hain by (apply list_elem_of_In; by eapply list_elem_of_lookup_2).
  assert (In b res) as Hbin by (apply list_elem_of_In; by eapply list_elem_of_lookup_2).
  assert (∀ x y, In x res → In y res → parentId x = parentId y →
                 mustPrecede dir field x y → precedes res x y) as Horder.
  { destruct (proj1 (orderGanttRows_unfold localeCompare field dir rows data0 res eq_refl) Hres)
      as (rest & Hrest & Heq).
    intros x y Hx Hy Hxy Hbefore. rewrite Heq in Hx, Hy |- *.
    apply (forest_order localeCompare field dir rows Hnd' Hne'
             (S (length rows)) 0%nat [] ""
             (sortList localeCompare field dir (rootsOf (childrenMap rows))) rest);
      [| | | |exact Hrest| |done..].
    - intros k blk Hk Hblk.
      by apply (process_order localeCompare field dir rows Hnd' Hne' Hvalid'
                  (S (length rows)) k 0%nat []).
    - by apply roots_dateSorted.
    - intros k Hk. by apply (chain_of_root localeCompare field dir rows).
    - intros k Hk. apply In_sortBy, In_rootsOf in Hk. tauto.
    - intros z Hz. rewrite <- Heq in Hz.
      destruct (ordered_origin localeCompare field dir rows data0 res z eq_refl Hres Hz)
        as (z0 & l & -> & Hz0 & _). simpl. by apply Hne'. }
  assert (∀ (i' j' : nat) x y, precedes res x y → res !! i' = Some x → res !! j' = Some y →
                       (i' < j')%nat) as Hidx.
  { intros i' j' x y (i0 & j0 & Hi0 & Hj0 & Hlt) Hi' Hj'.
    assert (i0 = i') as <-.
    { eapply (NoDup_lookup (map id res)); [done| |];
        apply (list_lookup_fmap_Some_2 id); eassumption. }
    assert (j0 = j') as <-.
    { eapply (NoDup_lookup (map id res)); [done| |];
        apply (list_lookup_fmap_Some_2 id); eassumption. }
    done. }
  destruct dir.
  - apply (Hidx i j a b); [|done|done]. by apply Horder.
  - apply (Hidx j i b a); [|done|done]. by apply Horder.
Qed.

Lemma demoRoots_wf :
  NoDup (map id demoRoots) ∧ (∀ r, In r demoRoots → id r ≠ "")
  ∧ (∀ r, In r demoRoots → validRow r).
Proof.
  split; [|split].
  - apply (bool_decide_unpack (NoDup (map id demoRoots))). by vm_compute.
  - intros r [<-|[<-|[]]]; done.
  - intros r [<-|[<-|[]]]; split; intros t Ht; inversion Ht; unfold validTime; lia.
Qed.

(** C1 fails as stated: sorted by start date, descending, the undated root
    is returned before its dated sibling. *)
Lemma undated_first_when_descending :
  orderGanttRows codePointCompare SortStartDate Desc demoRoots
  = Some [ processed (row "2" "Beta" None None "project" "") 0 [];
           processed (row "1" "Alpha" (Some 1704067200000) (Some 1706745600000)
                        "project" "") 0 [] ]
  ∧ ¬ (∀ (i j : nat) a b,
         [ processed (row "2" "Beta" None None "project" "") 0 [];
           processed (row "1" "Alpha" (Some 1704067200000) (Some 1706745600000)
                        "project" "") 0 [] ] !! i = Some a →
         [ processed (row "2" "Beta" None None "project" "") 0 [];
           processed (row "1" "Alpha" (Some 1704067200000) (Some 1706745600000)
                        "project" "") 0 [] ] !! j = Some b →
         parentId a = parentId b →
         is_Some (startDate a) → startDate b = None → (i < j)%nat).
Proof.
  split; [by vm_compute|].
  intros H. specialize (H 1%nat 0%nat _ _ eq_refl eq_refl eq_refl).
  simpl in H. assert (1 < 0)%nat; [|lia]. apply H; [eauto|done].
Qed.

Lemma undated_siblings_follow_direction_witness :
  orderGanttRows codePointCompare SortStartDate Asc demoRoots
  = Some [ processed (row "1" "Alpha" (Some 1704067200000) (Some 1706745600000)
                        "project" "") 0 [];
           processed (row "2" "Beta" None None "project" "") 0 [] ]
  ∧ (0 < 1)%nat.
Proof.
  assert (orderGanttRows codePointCompare SortStartDate Asc demoRoots
          = Some [ processed (row "1" "Alpha" (Some 1704067200000) (Some 1706745600000)
                                "project" "") 0 [];
                   processed (row "2" "Beta" None None "project" "") 0 [] ]) as Hres
    by (by vm_compute).
  split; [exact Hres|].
  destruct demoRoots_wf as (Hnd & Hne & Hv).
  exact (undated_siblings_follow_direction codePointCompare SortStartDate Asc
           demoRoots _ Hnd Hne Hv Hres 0%nat 1%nat _ _ eq_refl eq_refl eq_refl
           (ex_intro _ _ eq_refl) eq_refl).
Defined.

Lemma demoTree_ordered :
  orderGanttRows codePointCompare SortName Asc demoTree = Some demoOrdered.
Proof. by vm_compute. Qed.

Lemma demoTree_wf :
  NoDup (map id demoTree) ∧ (∀ r, In r demoTree → id r ≠ "").
Proof.
  split.
  - apply (bool_decide_unpack (NoDup (map id demoTree))). by vm_compute.
  - intros r Hr. simpl in Hr.
    repeat (destruct Hr as [<-|Hr]; [done|]). done.
Qed.


Lemma orphans_dropped_roots_exact_witness :
  orderGanttRows codePointCompare SortName Asc demoTree = Some demoOrdered
  ∧ (∀ l ms, ¬ In (processed rowLost l ms) demoOrdered)
  ∧ In (processed rowPlan 0 [rowKickoff]) demoOrdered.
Proof.
  destruct (orphans_dropped_roots_exact codePointCompare SortName Asc
              demoTree demoOrdered demoTree_ordered) as [Horphan Hroots].
  split; [exact demoTree_ordered|]. split.
  - apply Horphan; [simpl; tauto|done|done|].
    intros y Hy Hne. simpl in Hy.
    repeat (destruct Hy as [<-|Hy]; [done|]). done.
  - apply (Hroots (processed rowPlan 0 [rowKickoff])).
    exists rowPlan. repeat split; [by left|done].
Defined.

(** C4 fails as stated: the row "v" is not a milestone and has an empty
    [parentId], yet it is not among the returned rows, because its name is
    the sentinel. *)
Lemma sentinel_root_not_returned :
  orderGanttRows codePointCompare SortName Asc demoTree = Some demoOrdered
  ∧ In rowSentinel demoTree ∧ isMilestone rowSentinel = false
  ∧ parentId rowSentinel = ""
  ∧ ¬ (∃ l ms, In (processed rowSentinel l ms) demoOrdered).
Proof.
  split; [exact demoTree_ordered|].
  split; [simpl; tauto|]. split; [done|]. split; [done|].
  intros (l & ms & [H|[H|[]]]); discriminate H.
Qed.

(** C3 fails as stated: the parent of the milestone "m2" exists and is not
    a milestone, yet "m2" is in no milestones list of the returned rows,
    because its parent is itself dropped. *)
Lemma milestone_of_dropped_parent_is_dropped :
  orderGanttRows codePointCompare SortName Asc demoTree = Some demoOrdered
  ∧ In rowReview demoTree ∧ isMilestone rowReview = true
  ∧ (In rowLost demoTree ∧ id rowLost = parentId rowReview
     ∧ isMilestone rowLost = false)
  ∧ ¬ (∃ x, In x demoOrdered ∧ In rowReview (milestones x)).
Proof.
  split; [exact demoTree_ordered|].
  split; [simpl; tauto|]. split; [done|].
  split; [split; [simpl; tauto|done]|].
  intros (x & Hx & Hm). simpl in Hx.
  destruct Hx as [<-|[<-|[]]]; simpl in Hm; [|done].
  destruct Hm as [Hm|[]]. discriminate Hm.
Qed.

Lemma milestones_follow_returned_parent_witness :
  orderGanttRows codePointCompare SortName Asc demoTree = Some demoOrdered
  ∧ (∃ x, In x demoOrdered ∧ In rowKickoff (milestones x))
  ∧ ¬ In (processed rowKickoff 0 []) demoOrdered
  ∧ (∀ (i j : nat) x, demoOrdered !! i = Some x →
       milestones x !! j = Some rowKickoff → i = 0%nat ∧ j = 0%nat).
Proof.
  destruct (milestones_follow_returned_parent codePointCompare SortName Asc
              demoTree demoOrdered rowKickoff demoTree_ordered)
    as (_ & Hnever & Hiff & Honce); [simpl; tauto|done|].
  destruct demoTree_wf as [Hnd Hne].
  split; [exact demoTree_ordered|]. split; [|split].
  - apply Hiff. split; [done|].
    exists (processed rowPlan 0 [rowKickoff]). split; [by left|done].
  - apply Hnever.
  - intros i j x Hi Hj.
    apply (Honce Hnd Hne i j 0%nat 0%nat x (processed rowPlan 0 [rowKickoff]));
      done.
Defined.

(** ** Calendar facts *)

Lemma DayFromYear_succ y :
  DayFromYear (y + 1) = DayFromYear y + 365 + (if InLeapYear y then 1 else 0).
Proof.
  unfold DayFromYear, InLeapYear.
  destruct (Z.eqb_spec (y mod 4) 0), (Z.eqb_spec (y mod 100) 0),
    (Z.eqb_spec (y mod 400) 0); simpl; Z.div_mod_to_equations; lia.
Qed.

(** [YearFromDay] is the year of the day: the year starts on or before the
    day and the next year after it. *)
Lemma YearFromDay_spec d :
  DayFromYear (YearFromDay d) ≤ d < DayFromYear (YearFromDay d + 1).
Proof.
  unfold YearFromDay. cbv zeta.
  set (y0 := 1970 + d * 400 / 146097).
  assert (DayFromYear (y0 - 1) ≤ d < DayFromYear (y0 + 2)) as Hwin.
  { unfold DayFromYear, y0. Z.div_mod_to_equations. lia. }
  destruct (Z.leb_spec (DayFromYear (y0 + 1)) d).
  - replace (y0 + 1 + 1) with (y0 + 2) by lia. lia.
  - destruct (Z.leb_spec (DayFromYear y0) d); [lia|].
    replace (y0 - 1 + 1) with y0 by lia. lia.
Qed.

Lemma dayWithinYear_range t :
  0 ≤ dayWithinYear t < 365 + (if InLeapYear (getFullYear t) then 1 else 0).
Proof.
  unfold dayWithinYear, getFullYear.
  pose proof (YearFromDay_spec (Day t)) as H.
  rewrite DayFromYear_succ in H. lia.
Qed.

Lemma month_bracket (leap : bool) dy :
  0 ≤ dy < 365 + (if leap then 1 else 0) →
  0 ≤ dy - monthOffset leap (monthOfDayInYear leap dy) ≤ 30.
Proof.
  intros H. unfold monthOfDayInYear.
  destruct leap;
    repeat match goal with
           | |- context [if Z.ltb ?a ?b then _ else _] => destruct (Z.ltb_spec a b)
           end;
    unfold monthOffset in *; simpl in *; lia.
Qed.

(** The day of the month is between 1 and 31. *)
Lemma getDate_range t : 1 ≤ getDate t ≤ 31.
Proof.
  pose proof (month_bracket _ _ (dayWithinYear_range t)) as H.
  unfold getDate, getMonth. lia.
Qed.

Lemma monthOfDayInYear_range leap dy : 0 ≤ monthOfDayInYear leap dy ≤ 11.
Proof.
  unfold monthOfDayInYear.
  repeat match goal with |- context [if ?c then _ else _] => destruct c end; lia.
Qed.

Lemma getMonth_range t : 0 ≤ getMonth t ≤ 11.
Proof. apply monthOfDayInYear_range. Qed.

Lemma msPerDay_split t : t = Day t * msPerDay + TimeWithinDay t.
Proof.
  unfold Day, TimeWithinDay, msPerDay.
  pose proof (Z.div_mod t 86400000). lia.
Qed.

(** The length in days of month [m] of year [y]. *)
Lemma month_length y m :
  0 ≤ m ≤ 11 →
  28 ≤ MakeDay y (m + 1) 1 - MakeDay y m 1 ≤ 31.
Proof.
  intros Hm. unfold MakeDay.
  destruct (Z.eq_dec m 11) as [->|Hne].
  - change ((11 + 1) / 12) with 1. change ((11 + 1) mod 12) with 0.
    change (11 / 12) with 0. change (11 mod 12) with 11.
    replace (y + 0) with y by lia. rewrite DayFromYear_succ.
    destruct (InLeapYear y), (InLeapYear (y + 1)); unfold monthOffset; simpl; lia.
  - rewrite !Z.div_small, !Z.mod_small by lia. replace (y + 0) with y by lia.
    assert (m = 0 ∨ m = 1 ∨ m = 2 ∨ m = 3 ∨ m = 4 ∨ m = 5 ∨ m = 6 ∨ m = 7
            ∨ m = 8 ∨ m = 9 ∨ m = 10) as Hcases by lia.
    destruct Hcases as [->|[->|[->|[->|[->|[->|[->|[->|[->|[->| ->]]]]]]]]]];
      destruct (InLeapYear y); unfold monthOffset; simpl; lia.
Qed.

Lemma MakeDay_date y m d : MakeDay y m d = MakeDay y m 1 + d - 1.
Proof. unfold MakeDay. lia. Qed.

Lemma MakeDay_getDate t :
  MakeDay (getFullYear t) (getMonth t) (getDate t) = Day t.
Proof.
  pose proof (getMonth_range t) as Hm.
  unfold MakeDay, getDate, dayWithinYear.
  rewrite Z.div_small, Z.mod_small by lia.
  replace (getFullYear t + 0) with (getFullYear t) by lia. lia.
Qed.

(** [cursor.setMonth(cursor.getMonth() + 1)] moves forward by the length
    of the month. *)
Lemma nextMonth_progress c :
  c + 28 * msPerDay ≤ nextMonth c ≤ c + 31 * msPerDay.
Proof.
  unfold nextMonth, setMonth, MakeDate.
  pose proof (month_length (getFullYear c) (getMonth c) (getMonth_range c)) as Hlen.
  pose proof (MakeDay_getDate c) as Hday.
  rewrite (MakeDay_date _ (getMonth c + 1)).
  rewrite (MakeDay_date _ (getMonth c)) in Hday.
  pose proof (msPerDay_split c) as Hc. unfold msPerDay in *. lia.
Qed.

(** [cursor.setDate(cursor.getDate() + n)] moves by [n] days. *)
Lemma setDate_shift c n : setDate c (getDate c + n) = c + n * msPerDay.
Proof.
  unfold setDate, MakeDate.
  pose proof (MakeDay_getDate c) as Hday.
  rewrite MakeDay_date. rewrite MakeDay_date in Hday.
  pose proof (msPerDay_split c) as Hc. unfold msPerDay in *. lia.
Qed.

(** ** The geometry functions return *)

Lemma rounds_step cursor next limit step fuel :
  0 < step → cursor ≤ limit → cursor + step ≤ next →
  (limit - cursor) / step + 1 ≤ Z.of_nat (S fuel) →
  (limit - next) / step + 1 ≤ Z.of_nat fuel.
Proof.
  intros Hstep Hle Hnext Hfuel.
  assert ((limit - next) / step ≤ (limit - cursor - step) / step) as H1
    by (apply Z.div_le_mono; lia).
  replace (limit - cursor - step) with (limit - cursor + (-1) * step) in H1 by lia.
  rewrite Z.div_add in H1 by lia. lia.
Qed.

Lemma rounds_zero cursor limit step :
  0 < step → cursor ≤ limit → ¬ (limit - cursor) / step + 1 ≤ Z.of_nat 0.
Proof.
  intros Hstep Hle. assert (0 ≤ (limit - cursor) / step) by (apply Z.div_pos; lia).
  lia.
Qed.

Lemma roundsFor_enough cursor limit step :
  (limit - cursor) / step + 1 ≤ Z.of_nat (roundsFor cursor limit step).
Proof. unfold roundsFor. lia. Qed.

Lemma monthsLoop_returns fuel : ∀ cursor limit,
  (limit - cursor) / (28 * msPerDay) + 1 ≤ Z.of_nat fuel →
  is_Some (monthsLoop fuel cursor limit).
Proof.
  induction fuel as [|fuel IH]; intros cursor limit Hfuel; simpl;
    destruct (Z.leb_spec cursor limit) as [Hle|Hgt]; try done.
  - exfalso. revert Hfuel. apply rounds_zero; [done|lia].
  - apply fmap_is_Some, IH.
    eapply rounds_step; [done|exact Hle| |exact Hfuel].
    apply nextMonth_progress.
Qed.

Lemma monthSegments_returns fuel : ∀ cursor limit,
  (limit - cursor) / (28 * msPerDay) + 1 ≤ Z.of_nat fuel →
  is_Some (monthSegments fuel cursor limit).
Proof.
  induction fuel as [|fuel IH]; intros cursor limit Hfuel; simpl;
    destruct (Z.leb_spec cursor limit) as [Hle|Hgt]; try done.
  - exfalso. revert Hfuel. apply rounds_zero; [done|lia].
  - apply fmap_is_Some, IH.
    eapply rounds_step; [done|exact Hle| |exact Hfuel].
    apply nextMonth_progress.
Qed.

Lemma weekSegments_returns fuel : ∀ cursor limit,
  (limit - cursor) / (7 * msPerDay) + 1 ≤ Z.of_nat fuel →
  is_Some (weekSegments fuel cursor limit).
Proof.
  induction fuel as [|fuel IH]; intros cursor limit Hfuel; simpl;
    destruct (Z.leb_spec cursor limit) as [Hle|Hgt]; try done.
  - exfalso. revert Hfuel. apply rounds_zero; [done|lia].
  - apply fmap_is_Some, IH.
    eapply rounds_step; [done|exact Hle| |exact Hfuel].
    rewrite setDate_shift. lia.
Qed.

Lemma yearSegments_returns fuel : ∀ y lastY,
  (lastY - y) / 1 + 1 ≤ Z.of_nat fuel →
  is_Some (yearSegments fuel y lastY).
Proof.
  induction fuel as [|fuel IH]; intros y lastY Hfuel; simpl;
    destruct (Z.leb_spec y lastY) as [Hle|Hgt]; try done.
  - exfalso. revert Hfuel. apply rounds_zero; [done|lia].
  - apply fmap_is_Some, IH.
    eapply rounds_step; [done|exact Hle| |exact Hfuel]. lia.
Qed.

Lemma getTimelineBounds_returns p : is_Some (getTimelineBounds p).
Proof.
  unfold getTimelineBounds. cbv zeta.
  match goal with
  | |- is_Some (monthsLoop ?f ?c ?l ≫= _) =>
      destruct (monthsLoop_returns f c l (roundsFor_enough _ _ _)) as [ms ->]
  end.
  simpl. eauto.
Qed.

Lemma zoomSegments_returns z start end_ : is_Some (zoomSegments z start end_).
Proof.
  destruct z; simpl.
  - apply monthSegments_returns, roundsFor_enough.
  - apply weekSegments_returns, roundsFor_enough.
  - apply yearSegments_returns, roundsFor_enough.
Qed.

(** C5. For every props, state and dates, [getTimelineBounds],
    [getSegments], [calculateStartX] and [calculateEndWidth] return.
    [getSegments] returns at least one segment: the segments of the zoom
    level when there are some, otherwise exactly one segment that starts
    at the axis start and has the empty label. *)
Theorem geometry_total (p : Props) (s : IGanttViewState) (d sd ed : option Z) :
  (∃ b segs,
     getTimelineBounds p = Some b ∧ getSegments p s = Some segs ∧ segs ≠ []
     ∧ ∃ zs, zoomSegments (zoomLevel s) (tb_start b) (tb_end b) = Some zs
             ∧ segs = match zs with
                      | [] => [mkSegment (tb_start b) ""]
                      | _ :: _ => zs
                      end)
  ∧ is_Some (calculateStartX p d)
  ∧ is_Some (calculateEndWidth p sd ed).
Proof.
  destruct (getTimelineBounds_returns p) as [b Hb].
  destruct (zoomSegments_returns (zoomLevel s) (tb_start b) (tb_end b)) as [zs Hzs].
  split; [|split].
  - exists b, (match zs with [] => [mkSegment (tb_start b) ""] | _ :: _ => zs end).
    split; [done|]. split; [|split].
    + unfold getSegments. rewrite Hb. simpl. rewrite Hzs. simpl.
      by destruct zs.
    + by destruct zs.
    + by exists zs.
  - unfold calculateStartX. destruct d; [|eauto]. rewrite Hb. simpl. eauto.
  - unfold calculateEndWidth. destruct sd, ed; eauto. rewrite Hb. simpl. eauto.
Qed.

(** An axis whose end lies before its start has no month segment; the
    single synthetic segment is returned. *)
Example getSegments_synthetic :
  let p := mkProps 1735689600000 1577836800000 0 false false None [] false in
  let s := mkState 250 100 100 None ∅ Month 0 SortName Asc in
  getTimelineBounds p = Some (mkBounds 1735689600000 1580515199999 [1735689600000])
  ∧ getSegments p s = Some [mkSegment 1735689600000 ""].
Proof. by vm_compute. Qed.

(** ** Percentages *)

Lemma pct_mono n1 n2 den : 0 < den → n1 ≤ n2 → (pct n1 den <= pct n2 den)%Q.
Proof.
  intros Hden Hn. unfold pct, Qdiv.
  apply Qmult_le_compat_r; [|done].
  apply Qmult_le_compat_r; [by rewrite <- Zle_Qle|].
  apply Qinv_le_0_compat. change 0%Q with (inject_Z 0). rewrite <- Zle_Qle. lia.
Qed.

Lemma pct_pos num den : 0 < num → 0 < den → (0 < pct num den)%Q.
Proof.
  intros Hnum Hden. unfold pct, Qdiv.
  apply Qmult_lt_0_compat; [|done].
  apply Qmult_lt_0_compat.
  - change 0%Q with (inject_Z 0). by rewrite <- Zlt_Qlt.
  - apply Qinv_lt_0_compat. change 0%Q with (inject_Z 0). by rewrite <- Zlt_Qlt.
Qed.

Lemma pct_zero den : (pct 0 den == 0)%Q.
Proof. unfold pct, Qdiv. change (inject_Z 0) with 0%Q. by rewrite !Qmult_0_l. Qed.

Lemma pct_nonneg num den : 0 ≤ num → 0 < den → (0 <= pct num den)%Q.
Proof.
  intros Hnum Hden.
  apply Qle_trans with (pct 0 den); [by rewrite pct_zero|by apply pct_mono].
Qed.



Lemma calculateStartX_eq p b d :
  getTimelineBounds p = Some b →
  calculateStartX p (Some d)
  = Some (calculateStartXInWindow (Some d) (tb_start b) (tb_end b)).
Proof. unfold calculateStartX, calculateStartXInWindow. by intros ->. Qed.



Lemma propsPlan_bounds :
  getTimelineBounds propsPlan
  = Some (mkBounds 1704067200000 1719791999999
            [1704067200000; 1706745600000; 1709251200000; 1711929600000;
             1714521600000; 1717200000000]).
Proof. by vm_compute. Qed.


(** ** Year-mode pixel allocation *)

Lemma sumZ_foldl l : ∀ a, foldl Z.add a l = a + sumZ l.
Proof.
  unfold sumZ. induction l as [|x l IH]; intros a; simpl; [lia|].
  rewrite (IH (a + x)), (IH (0 + x)). lia.
Qed.

Lemma sumZ_cons x l : sumZ (x :: l) = x + sumZ l.
Proof. unfold sumZ at 1. simpl. rewrite sumZ_foldl. lia. Qed.

Lemma sumZ_insert (l : list Z) : ∀ (i : nat) old v,
  l !! i = Some old → sumZ (<[i := v]> l) = sumZ l - old + v.
Proof.
  induction l as [|x l IH]; intros i old v Hi; [by rewrite lookup_nil in Hi|].
  destruct i as [|i]; simpl in *.
  - inversion Hi; subst. rewrite !sumZ_cons. lia.
  - rewrite !sumZ_cons, (IH i old v Hi). lia.
Qed.

Lemma Forall_insert_ge (l : list Z) (i : nat) v :
  Forall (λ w, 8 ≤ w) l → 8 ≤ v → Forall (λ w, 8 ≤ w) (<[i := v]> l).
Proof. intros Hl Hv. by apply Forall_insert. Qed.

(** The remainder loop, given enough rounds: it returns; widths stay at 8
    or more; a non-negative remainder is handed out in full; a negative
    one is taken back in part or in full. *)
Lemma distribute_spec fuel : ∀ ws remainder (ri : nat),
  Z.abs remainder ≤ Z.of_nat fuel →
  (ws ≠ [] → (ri < length ws)%nat) →
  Forall (λ w, 8 ≤ w) ws →
  ∃ ws', distribute fuel ws remainder ri = Some ws'
         ∧ length ws' = length ws
         ∧ Forall (λ w, 8 ≤ w) ws'
         ∧ (ws ≠ [] → 0 ≤ remainder → sumZ ws' = sumZ ws + remainder)
         ∧ (remainder ≤ 0 → sumZ ws + remainder ≤ sumZ ws' ≤ sumZ ws).
Proof.
  induction fuel as [|fuel IH]; intros ws remainder ri Hfuel Hri Hws.
  - assert (remainder = 0) as -> by lia. simpl.
    exists ws. repeat split; try done; lia.
  - simpl. destruct (Z.eqb_spec remainder 0) as [->|Hrem]; simpl.
    { exists ws. repeat split; try done; lia. }
    destruct (Nat.eqb_spec (length ws) 0) as [Hlen|Hlen]; simpl.
    { destruct ws; [|done]. exists []. repeat split; try done; simpl; lia. }
    assert (ws ≠ []) as Hne by (by destruct ws).
    specialize (Hri Hne).
    destruct (lookup_lt_is_Some_2 ws ri Hri) as [w Hw]. rewrite Hw. simpl.
    assert (8 ≤ w) as Hw8.
    { rewrite Forall_forall in Hws. apply Hws. by eapply list_elem_of_lookup_2. }
    assert (S ri `mod` length ws < length ws)%nat as Hri'
      by (apply Nat.mod_upper_bound; lia).
    rewrite Z.gtb_ltb.
    destruct (Z.ltb_spec 0 remainder) as [Hpos|Hneg].
    + destruct (IH (<[ri := w + 1]> ws) (remainder - 1) (S ri `mod` length ws)%nat)
        as (ws' & Hd & Hl & Hf & Hsum & _).
      * lia.
      * intros _. by rewrite length_insert.
      * apply Forall_insert_ge; [done|lia].
      * exists ws'. rewrite length_insert in Hl.
        split; [done|]. split; [done|]. split; [done|]. split; [|lia].
        intros _ _. rewrite Hsum, (sumZ_insert ws ri w) by (done || lia || by
          intros Hnil; apply (f_equal length) in Hnil; rewrite length_insert in Hnil;
          simpl in Hnil; lia). lia.
    + destruct (Z.ltb_spec remainder 0) as [Hlt|]; [|lia]. simpl.
      rewrite Z.gtb_ltb. destruct (Z.ltb_spec 8 w) as [Hbig|Hsmall].
      * destruct (IH (<[ri := w - 1]> ws) (remainder + 1) (S ri `mod` length ws)%nat)
          as (ws' & Hd & Hl & Hf & _ & Hsum).
        -- lia.
        -- intros _. by rewrite length_insert.
        -- apply Forall_insert_ge; [done|lia].
        -- exists ws'. rewrite length_insert in Hl.
           split; [done|]. split; [done|]. split; [done|]. split; [lia|].
           intros _. rewrite (sumZ_insert ws ri w) in Hsum by done. lia.
      * exists ws. repeat split; try done; lia.
Qed.

Lemma flooredWidths_spec availablePx totalMs end_ segs :
  length (flooredWidths availablePx totalMs end_ segs) = length segs
  ∧ Forall (λ w, 8 ≤ w) (flooredWidths availablePx totalMs end_ segs).
Proof.
  induction segs as [|seg segs [IHl IHf]]; simpl; [done|].
  split; [by rewrite IHl|]. constructor; [lia|done].
Qed.

Lemma yearWidths_spec availablePx start end_ segs :
  segs ≠ [] →
  ∃ ws, yearWidths availablePx start end_ segs = Some ws
        ∧ length ws = length segs
        ∧ Forall (λ w, 8 ≤ w) ws
        ∧ availablePx ≤ sumZ ws
        ∧ (sumZ (flooredWidths availablePx (orOne (end_ - start)) end_ segs) ≤ availablePx
           → sumZ ws = availablePx).
Proof.
  intros Hsegs. unfold yearWidths. cbv zeta. fold (orOne (end_ - start)).
  set (fl := flooredWidths availablePx (orOne (end_ - start)) end_ segs).
  destruct (flooredWidths_spec availablePx (orOne (end_ - start)) end_ segs)
    as [Hlen Hge]. fold fl in Hlen, Hge.
  assert (fl ≠ []) as Hfl by (intros E; rewrite E in Hlen; by destruct segs).
  destruct (distribute_spec (Z.abs_nat (availablePx - sumZ fl)) fl
              (availablePx - sumZ fl) 0%nat) as (ws & Hd & Hl & Hf & Hpos & Hneg).
  - lia.
  - intros _. destruct fl; [done|simpl; lia].
  - done.
  - exists ws. split; [done|]. split; [lia|]. split; [done|]. split.
    + destruct (Z.le_gt_cases 0 (availablePx - sumZ fl)) as [H|H].
      * rewrite Hpos by done. lia.
      * specialize (Hneg ltac:(lia)). lia.
    + intros Hroom. rewrite Hpos by (done || lia). lia.
Qed.

Lemma getSegments_nonempty p s :
  ∃ b segs, getTimelineBounds p = Some b ∧ getSegments p s = Some segs ∧ segs ≠ [].
Proof.
  destruct (getTimelineBounds_returns p) as [b Hb].
  destruct (zoomSegments_returns (zoomLevel s) (tb_start b) (tb_end b)) as [zs Hzs].
  exists b, (match zs with [] => [mkSegment (tb_start b) ""] | _ :: _ => zs end).
  split; [done|]. split; [|by destruct zs].
  unfold getSegments. rewrite Hb. simpl. rewrite Hzs. simpl. by destruct zs.
Qed.

Lemma sumZ_at_least l : Forall (λ w, 8 ≤ w) l → l ≠ [] → 8 ≤ sumZ l.
Proof.
  induction 1 as [|x l Hx Hl IH]; [done|]. intros _. rewrite sumZ_cons.
  destruct l as [|y l]; [unfold sumZ; simpl; lia|].
  specialize (IH ltac:(done)). lia.
Qed.

Lemma perSegWidths_year p s wrapper b segs ws :
  zoomLevel s = Year → getTimelineBounds p = Some b → getSegments p s = Some segs →
  yearWidths (availablePxOf p s wrapper) (tb_start b) (tb_end b) segs = Some ws →
  perSegWidths p s wrapper
  = Some (if fixedWidthOf p s + sumZ ws >? containerPxOf s wrapper * 3 + fixedWidthOf p s
          then scaleDown ws (containerPxOf s wrapper * 3 + fixedWidthOf p s - fixedWidthOf p s)
          else ws).
Proof.
  intros Hz Hb Hs Hy. unfold perSegWidths. rewrite Hb, Hs.
  unfold mbind, option_bind. by rewrite Hz, Hy.
Qed.

(** Where the allocation does reach its target: in year zoom every width is
    an integer of at least 8 pixels, and the widths sum to the available
    width exactly whenever the floored widths, each raised to that minimum,
    do not exceed it in total (the remainder handed to the loop is not
    negative). *)
Theorem year_widths_fill_available (p : Props) (s : IGanttViewState)
    (wrapper : option Z) :
  zoomLevel s = Year → 0 ≤ fixedWidthOf p s →
  ∃ b segs ws,
    getTimelineBounds p = Some b ∧ getSegments p s = Some segs
    ∧ perSegWidths p s wrapper = Some ws
    ∧ (sumZ (flooredWidths (availablePxOf p s wrapper)
               (orOne (tb_end b - tb_start b)) (tb_end b) segs)
       ≤ availablePxOf p s wrapper →
       sumZ ws = availablePxOf p s wrapper
       ∧ Forall (λ w, 8 ≤ w) ws ∧ length ws = length segs).
Proof.
  intros Hzoom Hfixed.
  destruct (getSegments_nonempty p s) as (b & segs & Hb & Hsegs & Hne).
  destruct (yearWidths_spec (availablePxOf p s wrapper) (tb_start b) (tb_end b) segs Hne)
    as (ws & Hyw & Hlen & Hge & Hlow & Hexact).
  assert (ws ≠ []) as Hws by (intros E; rewrite E in Hlen; by destruct segs).
  pose proof (sumZ_at_least ws Hge Hws) as H8.
  destruct (Z_le_gt_dec
              (sumZ (flooredWidths (availablePxOf p s wrapper)
                       (orOne (tb_end b - tb_start b)) (tb_end b) segs))
              (availablePxOf p s wrapper)) as [Hroom|Hnoroom].
  - specialize (Hexact Hroom). exists b, segs, ws.
    split; [exact Hb|]. split; [exact Hsegs|]. split; [|intros _; by repeat split].
    rewrite (perSegWidths_year p s wrapper b segs ws Hzoom Hb Hsegs Hyw), Hexact.
    assert ((fixedWidthOf p s + availablePxOf p s wrapper
             >? containerPxOf s wrapper * 3 + fixedWidthOf p s) = false) as ->;
      [|reflexivity].
    rewrite Z.gtb_ltb. apply Z.ltb_ge.
    revert H8. rewrite Hexact. unfold availablePxOf. lia.
  - rewrite (perSegWidths_year p s wrapper b segs ws Hzoom Hb Hsegs Hyw).
    eexists b, segs, _. split; [exact Hb|]. split; [exact Hsegs|].
    split; [reflexivity|]. intros Hroom. lia.
Qed.

(** C2. The allocation misses the available width that its own comments
    promise to fill exactly: for a project from 11 December 2024 to 17
    January 2025, with 1000 pixels available, the shrinking loop gives up
    at widths 5411 and 8, at the first segment of 8 pixels although the
    other one can still shrink, and the header widths, after the
    scale-down of the over-wide table, sum to 3750. *)
Lemma year_widths_miss_available :
  availablePxOf propsTurnOfYear stateYear1250 None = 1000
  ∧ yearWidths 1000 1733011200000 1738367999999
      [mkSegment 1704067200000 "2024"; mkSegment 1735689600000 "2025"]
    = Some [5411; 8]
  ∧ perSegWidths propsTurnOfYear stateYear1250 None = Some [3744; 6]
  ∧ sumZ [3744; 6] ≠ 1000.
Proof. by vm_compute. Qed.

Lemma year_widths_fill_available_witness :
  perSegWidths propsThreeYears stateYear1250 None = Some [402; 400; 198]
  ∧ sumZ [402; 400; 198] = 1000.
Proof.
  destruct (year_widths_fill_available propsThreeYears stateYear1250 None eq_refl)
    as (b & segs & ws & Hb & Hsegs & Hws & Hsum); [by vm_compute|].
  vm_compute in Hb. injection Hb as <-.
  vm_compute in Hsegs. injection Hsegs as <-.
  vm_compute in Hws. injection Hws as <-.
  split; [by vm_compute|].
  apply Hsum. by vm_compute.
Defined.

(** ** End-date drag *)

#[local] Instance instantAt_proper s e : Proper (Qeq ==> Qeq) (instantAt s e).
Proof. intros q1 q2 H. unfold instantAt. by rewrite H. Qed.

Lemma truncQ_lower n x : (inject_Z n <= x)%Q → n ≤ truncQ x.
Proof.
  intros H. unfold truncQ. destruct (Qle_bool 0 x).
  - rewrite <- (Qfloor_Z n). by apply Qfloor_resp_le.
  - rewrite <- (Qceiling_Z n). by apply Qceiling_resp_le.
Qed.

Lemma truncQ_upper n x : (x <= inject_Z n)%Q → truncQ x ≤ n.
Proof.
  intros H. unfold truncQ. destruct (Qle_bool 0 x).
  - rewrite <- (Qfloor_Z n). by apply Qfloor_resp_le.
  - rewrite <- (Qceiling_Z n). by apply Qceiling_resp_le.
Qed.

Lemma Qltb_true a b : Qltb a b = true → (a < b)%Q.
Proof.
  unfold Qltb. intros H. apply negb_true_iff in H.
  apply Qnot_le_lt. intros Hle. apply Qle_bool_iff in Hle. congruence.
Qed.

Lemma Qltb_false a b : Qltb a b = false → (b <= a)%Q.
Proof. unfold Qltb. intros H. apply negb_false_iff in H. by apply Qle_bool_iff. Qed.

Lemma inject_Z_pos n : 0 < n → (0 < inject_Z n)%Q.
Proof. intros H. change 0%Q with (inject_Z 0). by rewrite <- Zlt_Qlt. Qed.

Lemma instantAt_pct s e a :
  s ≠ e → (instantAt s e (pct a (e - s)) == inject_Z (s + a))%Q.
Proof.
  intros H. unfold instantAt, pct. rewrite inject_Z_plus. field.
  intros E. apply (inject_Z_injective (e - s) 0) in E. lia.
Qed.

Lemma instantAt_add s e q d :
  (instantAt s e (q + d) == instantAt s e q + d / 100 * inject_Z (e - s))%Q.
Proof. unfold instantAt. field. Qed.

Lemma instantAt_100 s e : (instantAt s e 100 == inject_Z e)%Q.
Proof.
  unfold instantAt. replace e with (s + (e - s)) at 2 by lia.
  rewrite inject_Z_plus. field.
Qed.

Lemma instantAt_mono s e q1 q2 :
  s < e → (q1 <= q2)%Q → (instantAt s e q1 <= instantAt s e q2)%Q.
Proof.
  intros H Hq. unfold instantAt.
  apply Qplus_le_r. apply Qmult_le_compat_r.
  - unfold Qdiv. apply Qmult_le_compat_r; [exact Hq|discriminate].
  - change 0%Q with (inject_Z 0). rewrite <- Zle_Qle. lia.
Qed.

(** A move by [dx] pixels of a cell [cpx] pixels wide spans at least one
    millisecond of a window of [T] milliseconds. *)
Lemma step_at_least_1ms dx cpx T :
  0 < cpx → cpx ≤ dx * T →
  (1 <= (inject_Z dx / inject_Z cpx * 100) / 100 * inject_Z T)%Q.
Proof.
  intros Hc H. pose proof (inject_Z_pos cpx Hc) as Hcq.
  assert (inject_Z cpx <= inject_Z dx * inject_Z T)%Q
    by (rewrite <- inject_Z_mult, <- Zle_Qle; lia).
  setoid_replace (inject_Z dx / inject_Z cpx * 100 / 100 * inject_Z T)%Q
    with ((inject_Z dx * inject_Z T) / inject_Z cpx)%Q using relation Qeq
    by (field; lra).
  apply Qle_shift_div_l; lra.
Qed.

(** The released right edge: at least one millisecond past the date where
    the bar ended, and not past the axis end. *)
Lemma released_edge s e ed (edit : EditingEndState) x1 :
  s < e → ed < e →
  winStart edit = s → winEnd edit = e →
  startX edit < x1 → 0 < containerPx edit →
  containerPx edit ≤ (x1 - startX edit) * (e - s) →
  (inject_Z ed <= instantAt s e (rowLeftPct edit + startWidthPct edit))%Q →
  (inject_Z (ed + 1) <= instantAt s e (rowLeftPct edit + liveWidthAt edit x1))%Q
  ∧ (instantAt s e (rowLeftPct edit + liveWidthAt edit x1) <= inject_Z e)%Q.
Proof.
  intros Hse Hed _ _ Hx Hc Hstep Hright.
  pose proof (step_at_least_1ms _ _ _ Hc Hstep) as Hms.
  set (left := rowLeftPct edit) in *. set (width := startWidthPct edit) in *.
  unfold liveWidthAt. cbv zeta. fold left width.
  set (delta := (inject_Z (x1 - startX edit) / inject_Z (containerPx edit) * 100)%Q) in *.
  assert (inject_Z (ed + 1) <= instantAt s e (left + (width + delta)))%Q as Hmoved.
  { rewrite Qplus_assoc, instantAt_add, inject_Z_plus.
    change (inject_Z 1) with 1%Q. lra. }
  assert (inject_Z (ed + 1) <= inject_Z e)%Q as Hroom
    by (rewrite <- Zle_Qle; lia).
  set (w1 := if Qltb (width + delta) 1 then 1%Q else (width + delta)%Q).
  assert (width + delta <= w1)%Q as Hw1.
  { unfold w1. destruct (Qltb (width + delta) 1) eqn:E; [|apply Qle_refl].
    apply Qltb_true in E. lra. }
  destruct (Qltb (100 - left) w1) eqn:Etop.
  - assert (left + (100 - left) == 100)%Q as -> by ring.
    rewrite instantAt_100. split; [done|apply Qle_refl].
  - apply Qltb_false in Etop. split.
    + eapply Qle_trans; [exact Hmoved|]. apply instantAt_mono; [done|lra].
    + rewrite <- instantAt_100. apply instantAt_mono; [done|lra].
Qed.

Lemma pct_back a T : T ≠ 0 → (pct a T / 100 * inject_Z T == inject_Z a)%Q.
Proof.
  intros H. unfold pct. field.
  intros E. apply (inject_Z_injective T 0) in E. lia.
Qed.

Lemma instantAt_0 s e : (instantAt s e 0 == inject_Z s)%Q.
Proof. unfold instantAt. field. Qed.

(** The bar of a row that meets the window and ends before the window
    end: it starts on the axis, has a positive width, and its right edge
    is at or after the end date. *)
Lemma bar_in_window s e sd ed :
  s ≤ ed → sd ≤ e → ed < e →
  (0 <= calculateStartXInWindow (Some sd) s e)%Q
  ∧ (0 < calculateEndWidthInWindow (Some sd) (Some ed) s e)%Q
  ∧ (inject_Z ed <= instantAt s e (calculateStartXInWindow (Some sd) s e
                                  + calculateEndWidthInWindow (Some sd) (Some ed) s e))%Q.
Proof.
  intros H1 H2 H3. unfold calculateStartXInWindow, calculateEndWidthInWindow.
  rewrite !Z.gtb_ltb.
  destruct (Z.ltb_spec ed s); [lia|]. destruct (Z.ltb_spec e sd); [lia|].
  destruct (Z.ltb_spec e ed); [lia|]. cbn [orb].
  destruct (Z.ltb_spec sd s) as [Hsd|Hsd].
  - split; [apply Qle_refl|].
    destruct (Z.leb_spec ed s) as [Hes|Hes].
    + split; [reflexivity|].
      apply Qle_trans with (instantAt s e 0).
      * rewrite instantAt_0, <- Zle_Qle. lia.
      * apply instantAt_mono; [lia|]. discriminate.
    + split; [apply pct_pos; lia|].
      rewrite Qplus_0_l, instantAt_pct by lia. rewrite <- Zle_Qle. lia.
  - split; [apply pct_nonneg; lia|].
    destruct (Z.leb_spec ed sd) as [Hes|Hes].
    + split; [reflexivity|].
      rewrite instantAt_add, instantAt_pct, inject_Z_plus by lia.
      assert (0 <= 2 / 100 * inject_Z (e - s))%Q as Hpos.
      { apply Qmult_le_0_compat; [discriminate|].
        change 0%Q with (inject_Z 0). rewrite <- Zle_Qle. lia. }
      assert (inject_Z ed <= inject_Z s + inject_Z (sd - s))%Q
        by (rewrite <- inject_Z_plus, <- Zle_Qle; lia).
      lra.
    + split; [apply pct_pos; lia|].
      rewrite instantAt_add, instantAt_pct, pct_back by lia.
      rewrite <- inject_Z_plus, <- Zle_Qle. lia.
Qed.

Lemma calculateEndWidth_eq p b sd ed :
  getTimelineBounds p = Some b →
  calculateEndWidth p (Some sd) (Some ed)
  = Some (calculateEndWidthInWindow (Some sd) (Some ed) (tb_start b) (tb_end b)).
Proof. unfold calculateEndWidth, calculateEndWidthInWindow. by intros ->. Qed.

Lemma perSegWidths_returns p s wrapper : is_Some (perSegWidths p s wrapper).
Proof.
  destruct (getSegments_nonempty p s) as (b & segs & Hb & Hsegs & Hne).
  destruct (zoomLevel s) eqn:Hz.
  - unfold perSegWidths. rewrite Hb, Hsegs. unfold mbind, option_bind.
    rewrite Hz. eauto.
  - unfold perSegWidths. rewrite Hb, Hsegs. unfold mbind, option_bind.
    rewrite Hz. eauto.
  - destruct (yearWidths_spec (availablePxOf p s wrapper) (tb_start b) (tb_end b) segs Hne)
      as (ws & Hyw & _).
    rewrite (perSegWidths_year p s wrapper b segs ws Hz Hb Hsegs Hyw). eauto.
Qed.

(** Outside year zoom the bar is placed by the percentage formulas. *)
Lemma barGeometry_window p s wrapper r b sd ed :
  zoomLevel s ≠ Year → getTimelineBounds p = Some b →
  startDate r = Some sd → effectiveEnd s r = Some ed →
  barGeometry p s wrapper r
  = Some (calculateStartXInWindow (Some sd) (tb_start b) (tb_end b),
          calculateEndWidthInWindow (Some sd) (Some ed) (tb_start b) (tb_end b)).
Proof.
  intros Hz Hb Hsd Hed.
  destruct (getSegments_nonempty p s) as (b' & segs & Hb' & Hsegs & _).
  destruct (perSegWidths_returns p s wrapper) as [ws Hws].
  unfold barGeometry.
  rewrite Hb, Hsegs, Hws, Hsd, Hed, (calculateStartX_eq p b sd Hb),
    (calculateEndWidth_eq p b sd ed Hb).
  unfold mbind, option_bind. by destruct (zoomLevel s).
Qed.

Lemma Qeq_bool_false_lt a b : (a < b)%Q → Qeq_bool b a = false.
Proof.
  intros H. destruct (Qeq_bool b a) eqn:E; [|done].
  apply Qeq_bool_iff in E. rewrite E in H. by apply Qlt_irrefl in H.
Qed.

Lemma onBarDragMove_editing s edit x1 :
  editingEnd s = Some edit →
  ∃ live, (live == liveWidthAt edit x1)%Q
    ∧ onBarDragMove s x1
      = setEditing s (Some (mkEditingEnd (rowId edit) (startX edit) (rowLeftPct edit)
                              (startWidthPct edit) live (containerPx edit)
                              (winStart edit) (winEnd edit))).
Proof.
  intros H. unfold onBarDragMove. rewrite H.
  destruct (Qeq_bool (liveWidthAt edit x1) (liveWidthPct edit)) eqn:E.
  - exists (liveWidthPct edit). split; [symmetry; by apply Qeq_bool_iff|].
    destruct s, edit. unfold setEditing. cbn in *. by rewrite H.
  - exists (liveWidthAt edit x1). split; reflexivity.
Qed.

(** C8, amended. In month and week zoom, with end-date adjustment enabled,
    releasing a drag of the end handle of a drawn bar whose end date lies
    before the axis end, after a positive pixel delta that spans at least a
    millisecond of the axis, stores for the row a date strictly later than
    that end date and not after the axis end, passes the same date to the
    change callback exactly once, and leaves nothing for a second release
    to report. *)
Theorem end_drag_extends (p : Props) (s : IGanttViewState) (wrapper : option Z)
    (r : GanttRow) (b : TimelineBounds) (sd ed x0 x1 cpx : Z) :
  adjustableEndDate p = true → zoomLevel s ≠ Year → editingEnd s = None →
  getTimelineBounds p = Some b →
  startDate r = Some sd → effectiveEnd s r = Some ed →
  tb_start b ≤ ed → sd ≤ tb_end b → ed < tb_end b →
  x0 < x1 → 0 < cpx → cpx ≤ (x1 - x0) * (tb_end b - tb_start b) →
  ∃ s' newEnd,
    dragEnd p s wrapper r x0 x1 (Some cpx)
    = Some (s', if onEndDateChange p then [(id r, newEnd)] else [])
    ∧ endDateOverrides s' !! id r = Some newEnd
    ∧ editingEnd s' = None
    ∧ ed < newEnd ≤ tb_end b
    ∧ onGlobalMouseUp p s' = (s', []).
Proof.
  intros Hadj Hz Hidle Hb Hsd Hed H1 H2 H3 Hx Hc Hstep.
  set (left := calculateStartXInWindow (Some sd) (tb_start b) (tb_end b)).
  set (width := calculateEndWidthInWindow (Some sd) (Some ed) (tb_start b) (tb_end b)).
  destruct (bar_in_window (tb_start b) (tb_end b) sd ed H1 H2 H3)
    as (Hleft & Hwidth & Hright). fold left width in Hleft, Hwidth, Hright.
  set (edit := mkEditingEnd (id r) x0 left width width cpx (tb_start b) (tb_end b)).
  destruct (released_edge (tb_start b) (tb_end b) ed edit x1)
    as [Hlow Hhigh]; [lia|done|done|done|done|done|done|done|].
  cbn [rowLeftPct edit] in Hlow, Hhigh.
  assert (startBarEndEdit p s x0 (id r) left width (tb_start b) (tb_end b) (Some cpx)
          = setEditing s (Some edit)) as Hpress
    by (unfold startBarEndEdit; by rewrite Hadj).
  destruct (onBarDragMove_editing (setEditing s (Some edit)) edit x1 eq_refl)
    as (live & Hlive & Hmove).
  set (newEnd := dateAtPct (tb_start b) (tb_end b) (left + live)).
  exists (mkState (nameWidth s) (startWidth s) (endWidth s) None
            (<[id r := newEnd]> (endDateOverrides s))
            (zoomLevel s) (containerWidth s) (sortField s) (sortDir s)), newEnd.
  split; [|split; [|split; [|split]]].
  - unfold dragEnd, pressHandle.
    rewrite (barGeometry_window p s wrapper r b sd ed Hz Hb Hsd Hed), Hb.
    unfold mbind, option_bind. cbn [fst snd]. fold left width.
    rewrite Hidle, Hadj.
    rewrite (Qeq_bool_false_lt (-1) left) by lra.
    rewrite (Qeq_bool_false_lt (-1) width) by lra.
    cbn [negb andb]. rewrite Hpress, Hmove.
    unfold onGlobalMouseUp, setEditing.
    cbn [editingEnd nameWidth startWidth endWidth endDateOverrides zoomLevel
         containerWidth sortField sortDir rowId startX rowLeftPct startWidthPct
         liveWidthPct containerPx winStart winEnd edit].
    rewrite Hadj. reflexivity.
  - cbn [endDateOverrides]. apply lookup_insert_eq.
  - reflexivity.
  - unfold newEnd, dateAtPct. fold (instantAt (tb_start b) (tb_end b) (left + live)).
    assert (inject_Z (ed + 1) <= instantAt (tb_start b) (tb_end b) (left + live))%Q
      as Hlow' by (by rewrite Hlive).
    assert (instantAt (tb_start b) (tb_end b) (left + live) <= inject_Z (tb_end b))%Q
      as Hhigh' by (by rewrite Hlive).
    apply truncQ_lower in Hlow'. apply truncQ_upper in Hhigh'. lia.
  - reflexivity.
Qed.

(** C8 fails as stated. In month zoom, a bar that already ends at the
    axis end is dragged 50 pixels to the right and the stored date equals
    the original end date. In year zoom on a narrow container (segment
    widths 45 and 8), a drag of one pixel to the right stores a date
    earlier than the original end date. *)
Lemma end_drag_not_later :
  (endDate rowJanuary = Some 1706745599999
   ∧ snd <$> dragEnd propsJanuary stateMonth1250 None rowJanuary 100 150 (Some 160)
     = Some [("1", 1706745599999)])
  ∧ (endDate rowYear2024 = Some 1735603200000
     ∧ perSegWidths propsNarrow stateYear300 None = Some [45; 8]
     ∧ snd <$> dragEnd propsNarrow stateYear300 None rowYear2024 100 101 (Some 53)
       = Some [("1", 1733758133744)]
     ∧ 1733758133744 < 1735603200000).
Proof. by vm_compute. Qed.

Lemma end_drag_extends_witness :
  ∃ s' newEnd,
    dragEnd propsPlan stateMonth1250 None rowPlan 100 110 (Some 960)
    = Some (s', [("a", newEnd)])
    ∧ 1719705600000 < newEnd.
Proof.
  destruct (end_drag_extends propsPlan stateMonth1250 None rowPlan _
              1704067200000 1719705600000 100 110 960
              eq_refl ltac:(discriminate) eq_refl propsPlan_bounds eq_refl eq_refl)
    as (s' & newEnd & Hdrag & _ & _ & Hlater & _); [simpl; lia..|].
  exists s', newEnd. split; [exact Hdrag|lia].
Defined.

(** ** Colour resolution *)

Lemma orElse_nonEmpty a b : Colors.nonEmpty b = true → Colors.nonEmpty (Colors.orElse a b) = true.
Proof.
  intros Hb. unfold Colors.orElse. destruct a as [x|]; [|done].
  by destruct (Colors.nonEmpty x) eqn:E.
Qed.




(** * Further properties *)

(** ** More on the hierarchy orderer *)

Lemma NoDup_incl_length {A} (l k : list A) :
  NoDup l → (∀ x, In x l → In x k) → (length l ≤ length k)%nat.
Proof.
  intros Hnd Hin. apply submseteq_length, NoDup_submseteq; [done|].
  intros x Hx. apply list_elem_of_In, Hin, list_elem_of_In, Hx.
Qed.

(** X1. On a dataset with unique, non-empty identifiers, none of which and
    no parent identifier of which names a member of [Object.prototype], the
    orderer comes back, and it returns rows of the data only, each at most
    once: none is a milestone, none carries the sentinel name, and no two
    have the same identifier. *)
Theorem orderGanttRows_rows_once
    (localeCompare : string → string → Z) (field : SortField) (dir : SortDir)
    (data0 : list GanttRow) :
  NoDup (map id data0) → (∀ r, In r data0 → id r ≠ "") → plainKeys data0 →
  ∃ res, orderGanttRows localeCompare field dir data0 = Some res
    ∧ NoDup (map id res)
    ∧ (∀ x, In x res → ∃ r l ms,
          In r data0 ∧ name r ≠ "val" ∧ isMilestone r = false
          ∧ x = processed r l ms)
    ∧ (length res ≤ length data0)%nat.
Proof.
  intros Hnd Hne _.
  destruct (orderGanttRows_returns localeCompare field dir data0 Hnd Hne) as [res Hres].
  pose proof (orderGanttRows_NoDup _ _ _ _ _ Hnd Hne Hres) as Hndres.
  assert (∀ x, In x res → ∃ r l ms,
            In r data0 ∧ name r ≠ "val" ∧ isMilestone r = false
            ∧ x = processed r l ms) as Horigin.
  { intros x Hx.
    destruct (ordered_origin localeCompare field dir _ data0 res x eq_refl Hres Hx)
      as (r & l & -> & Hr & Hm).
    apply In_visible in Hr as [Hr Hname].
    exists r, l, (milestoneKids (childrenMap (List.filter notSentinel data0)) r).
    done. }
  exists res. split; [done|]. split; [done|]. split; [done|].
  rewrite <- (length_map id res), <- (length_map id data0).
  apply NoDup_incl_length; [done|].
  intros i Hi. apply in_map_iff in Hi as (x & <- & Hx).
  destruct (Horigin x Hx) as (r & l & ms & Hr & _ & _ & ->).
  simpl. by apply in_map.
Qed.

Lemma orderGanttRows_rows_once_witness :
  ∃ res, orderGanttRows codePointCompare SortName Asc demoTree = Some res
    ∧ NoDup (map id res)
    ∧ (∀ x, In x res → ∃ r l ms,
          In r demoTree ∧ name r ≠ "val" ∧ isMilestone r = false
          ∧ x = processed r l ms)
    ∧ (length res ≤ length demoTree)%nat.
Proof.
  apply (orderGanttRows_rows_once codePointCompare SortName Asc demoTree);
    [apply demoTree_wf|apply demoTree_wf|].
  apply (bool_decide_unpack (plainKeys demoTree)). by vm_compute.
Defined.

(** A row that is not a milestone and names itself as its parent is among
    its own children, and the recursion on it never comes back, whatever
    the number of rounds allowed. *)
Lemma process_self_parent localeCompare field dir rows k :
  In k rows → parentId k = id k → isMilestone k = false →
  ∀ fuel lvl, process localeCompare field dir fuel (childrenMap rows) k lvl = None.
Proof.
  intros Hk Hp Hm fuel. induction fuel as [|f IH]; intros lvl; [done|].
  destruct (process localeCompare field dir (S f) (childrenMap rows) k lvl)
    as [res|] eqn:E; [|done].
  exfalso.
  apply (process_unfold localeCompare field dir rows) in E as (rest & Hrest & _).
  assert (In k (sortList localeCompare field dir (taskKids (childrenMap rows) k))) as Hin.
  { apply In_sortBy, In_taskKids. done. }
  destruct (Forall2_in_l _ _ _ _ Hrest Hin) as (b & _ & Hb).
  by rewrite IH in Hb.
Qed.

(** X2. A row that is not a milestone and has an empty identifier and an empty
    [parentId] is a root and, being listed under the key of its own
    identifier, one of its own children: the recursion on it never comes
    back, whatever the number of rounds allowed, and neither does
    [orderGanttRows]. *)
Theorem empty_id_root_never_returns
    (localeCompare : string → string → Z) (field : SortField) (dir : SortDir)
    (data0 : list GanttRow) (r : GanttRow) :
  In r data0 → name r ≠ "val" → isMilestone r = false →
  id r = "" → parentId r = "" →
  (∀ fuel lvl,
     process localeCompare field dir fuel
       (childrenMap (List.filter notSentinel data0)) r lvl = None)
  ∧ orderGanttRows localeCompare field dir data0 = None.
Proof.
  intros Hr Hname Hm Hid Hp.
  set (rows := List.filter notSentinel data0).
  assert (In r rows) as Hrows by (apply In_visible; done).
  assert (∀ fuel lvl,
            process localeCompare field dir fuel (childrenMap rows) r lvl = None) as Hdiv.
  { apply process_self_parent; [done|congruence|done]. }
  split; [done|].
  destruct (orderGanttRows localeCompare field dir data0) as [res|] eqn:E; [|done].
  exfalso.
  apply (orderGanttRows_unfold localeCompare field dir rows data0 res eq_refl) in E
    as (rest & Hrest & _).
  assert (In r (sortList localeCompare field dir (rootsOf (childrenMap rows)))) as Hin.
  { apply In_sortBy, In_rootsOf. done. }
  destruct (Forall2_in_l _ _ _ _ Hrest Hin) as (b & _ & Hb).
  by rewrite Hdiv in Hb.
Qed.

Lemma empty_id_root_never_returns_witness :
  orderGanttRows codePointCompare SortName Asc [row "" "Loop" None None "project" ""]
  = None.
Proof.
  apply (empty_id_root_never_returns codePointCompare SortName Asc
           [row "" "Loop" None None "project" ""] (row "" "Loop" None None "project" ""));
    [by left|done|done|done|done].
Defined.

Section Parents.

Variable localeCompare : string → string → Z.
Variable field : SortField.
Variable dir : SortDir.
Variable rows : list GanttRow.

Let cm := childrenMap rows.
Let proc := process localeCompare field dir.

(** In the rows pushed by [process(row, level)], every row but the first
    comes after its parent, which is one level up. *)
Lemma process_parent_first f : ∀ r lvl res x,
  proc f cm r lvl = Some res → In x res →
  x = output rows r lvl
  ∨ ∃ p l, precedes res p x ∧ level p = Some l ∧ level x = Some (S l)
           ∧ parentId x = id p.
Proof.
  induction f as [|f IH]; intros r lvl res x Hp Hx; [discriminate|].
  apply (process_unfold localeCompare field dir rows) in Hp as (rest & Hrest & ->).
  destruct Hx as [<-|Hx]; [by left|]. right.
  destruct (Forall2_concat_in _ _ _ _ Hrest Hx) as (k & b & Hk & Hb & Hpk & Hxb).
  destruct (IH _ _ _ _ Hpk Hxb) as [->|(p & l & Hprec & Hlp & Hlx & Hpar)].
  - exists (output rows r lvl), lvl.
    split; [|split; [done|split; [done|]]].
    + apply (precedes_app [output rows r lvl]); [by left|done].
    + apply In_sortBy, In_taskKids in Hk. simpl. tauto.
  - exists p, l. split; [|done].
    apply (precedes_app_r [output rows r lvl]).
    by eapply precedes_concat_in.
Qed.

(** The children of a pushed row are pushed one level down. *)
Lemma process_kids_pushed f : ∀ r lvl res x,
  proc f cm r lvl = Some res → In x res →
  ∃ r0 l, x = output rows r0 l
          ∧ ∀ k, In k (taskKids cm r0) → In (output rows k (S l)) res.
Proof.
  induction f as [|f IH]; intros r lvl res x Hp Hx; [discriminate|].
  apply (process_unfold localeCompare field dir rows) in Hp as (rest & Hrest & ->).
  destruct Hx as [<-|Hx].
  - exists r, lvl. split; [done|]. intros k Hk. right.
    assert (In k (sortList localeCompare field dir (taskKids cm r))) as Hk'
      by by apply In_sortBy.
    destruct (Forall2_in_l _ _ _ _ Hrest Hk') as (b & Hb & Hpb).
    apply in_concat. exists b. split; [done|].
    eapply (process_head localeCompare field dir rows). exact Hpb.
  - destruct (Forall2_concat_in _ _ _ _ Hrest Hx) as (k & b & Hk & Hb & Hpk & Hxb).
    destruct (IH _ _ _ _ Hpk Hxb) as (r0 & l & -> & Hkids).
    exists r0, l. split; [done|]. intros k' Hk'. right.
    apply in_concat. exists b. split; [done|]. by apply Hkids.
Qed.

(** Every pushed row heads a chain of rows that are not milestones. *)
Lemma process_chain_tasks f : ∀ r lvl C res x,
  chain rows (r :: C) → Forall (λ y, isMilestone y = false) (r :: C) →
  proc f cm r lvl = Some res → In x res →
  ∃ x0 K l, x = output rows x0 l ∧ chain rows (x0 :: K)
            ∧ Forall (λ y, isMilestone y = false) (x0 :: K)
            ∧ (l = lvl + (length K - length C))%nat
            ∧ (length C ≤ length K)%nat.
Proof.
  induction f as [|f IH]; intros r lvl C res x HC HF Hp Hx; [discriminate|].
  apply (process_unfold localeCompare field dir rows) in Hp as (rest & Hrest & ->).
  destruct Hx as [<-|Hx].
  - exists r, C, lvl. repeat split; [done|done|lia|lia].
  - destruct (Forall2_concat_in _ _ _ _ Hrest Hx) as (k & b & Hk & Hb & Hpk & Hxb).
    pose proof Hk as Hk'. apply In_sortBy, In_taskKids in Hk' as (Hkin & Hkp & Hkm).
    destruct (IH k (S lvl) (r :: C) b x) as (x0 & K & l & -> & HK & HFK & Hl & Hlen);
      [by constructor|by constructor|done|done|].
    exists x0, K, l. simpl in *. repeat split; [done|done|lia|lia].
Qed.

End Parents.

(** X3. With unique non-empty identifiers, every row of the returned
    sequence below the roots comes after its parent, whose level is one
    less. *)
Theorem parent_precedes_child
    (localeCompare : string → string → Z) (field : SortField) (dir : SortDir)
    (data0 res : list GanttRow) (x : GanttRow) (l : nat) :
  NoDup (map id data0) → (∀ r, In r data0 → id r ≠ "") →
  orderGanttRows localeCompare field dir data0 = Some res →
  In x res → level x = Some (S l) →
  ∃ p, precedes res p x ∧ level p = Some l ∧ id p = parentId x.
Proof.
  intros _ _ Hres Hx Hl.
  set (rows := List.filter notSentinel data0).
  destruct (proj1 (orderGanttRows_unfold localeCompare field dir rows data0 res eq_refl) Hres)
    as (rest & Hrest & ->).
  destruct (Forall2_concat_in _ _ _ _ Hrest Hx) as (k & b & Hk & Hb & Hpk & Hxb).
  destruct (process_parent_first localeCompare field dir rows _ _ _ _ _ Hpk Hxb)
    as [->|(p & l' & Hprec & Hlp & Hlx & Hpar)]; [discriminate Hl|].
  exists p. split; [by eapply precedes_concat_in|].
  split; [congruence|done].
Qed.

Lemma parent_precedes_child_witness :
  ∃ p, precedes demoOrdered p (processed rowBid 1 [])
       ∧ level p = Some 0%nat ∧ id p = "a".
Proof.
  apply (parent_precedes_child codePointCompare SortName Asc demoTree demoOrdered
           (processed rowBid 1 []) 0);
    [apply demoTree_wf|apply demoTree_wf|exact demoTree_ordered| |done].
  right. by left.
Defined.

(** X4. A row is returned exactly when it and its ancestors, up to a root, pass
    the sentinel filter and are not milestones; its level is the number of
    its ancestors. *)
Theorem returned_iff_task_chain
    (localeCompare : string → string → Z) (field : SortField) (dir : SortDir)
    (data0 res : list GanttRow) :
  NoDup (map id data0) → (∀ r, In r data0 → id r ≠ "") →
  orderGanttRows localeCompare field dir data0 = Some res →
  (∀ r C, chain (List.filter notSentinel data0) (r :: C) →
          Forall (λ y, isMilestone y = false) (r :: C) →
          In (output (List.filter notSentinel data0) r (length C)) res)
  ∧ (∀ r l ms, In r data0 → In (processed r l ms) res →
       ∃ C, chain (List.filter notSentinel data0) (r :: C)
            ∧ Forall (λ y, isMilestone y = false) (r :: C)
            ∧ l = length C).
Proof.
  intros Hnd Hne Hres.
  set (rows := List.filter notSentinel data0).
  pose proof (visible_ids_unique _ Hnd) as Hnd'. fold rows in Hnd'.
  destruct (proj1 (orderGanttRows_unfold localeCompare field dir rows data0 res eq_refl) Hres)
    as (rest & Hrest & Heq).
  subst res. split.
  - intros r C. revert r. induction C as [|r' C IH]; intros r HC HF.
    + inversion HC as [? Hr Hp|]; subst.
      apply Forall_cons in HF as [Hm _]. simpl.
      apply (ordered_root localeCompare field dir rows data0 _ r eq_refl Hres).
      by apply In_rootsOf.
    + inversion HC as [|? ? ? HC' Hr Hp]; subst.
      apply Forall_cons in HF as [Hm HF].
      pose proof (IH r' HC' HF) as Hin.
      destruct (Forall2_concat_in _ _ _ _ Hrest Hin) as (k & b & Hk & Hb & Hpk & Hxb).
      destruct (process_kids_pushed localeCompare field dir rows _ _ _ _ _ Hpk Hxb)
        as (r0 & l0 & Hout & Hkids).
      apply (processed_fields localeCompare field dir) in Hout as (Hid & _ & _ & _ & _ & _ & <- & _).
      apply in_concat. exists b. split; [done|]. simpl.
      apply Hkids. apply In_taskKids. rewrite <- Hid. done.
  - intros r l ms Hr Hin.
    destruct (Forall2_concat_in _ _ _ _ Hrest Hin) as (k & b & Hk & Hb & Hpk & Hxb).
    pose proof Hk as Hk'. apply In_sortBy, In_rootsOf in Hk' as (Hkin & Hkp & Hkm).
    destruct (process_chain_tasks localeCompare field dir rows _ k 0%nat [] b _
                ltac:(by constructor) ltac:(by repeat constructor) Hpk Hxb)
      as (x0 & K & l' & Hout & HK & HFK & Hl & _).
    apply (processed_fields localeCompare field dir) in Hout as (Hid & Hname & _ & _ & _ & _ & -> & _).
    assert (In x0 rows) as Hx0.
    { eapply (chain_In rows); [exact HK|by left]. }
    assert (In r rows) as Hr'.
    { apply In_visible. split; [done|].
      apply In_visible in Hx0 as [_ Hx0]. congruence. }
    assert (r = x0) as -> by (apply (NoDup_map_inj id rows); done).
    exists K. split; [done|]. split; [done|]. simpl in Hl. lia.
Qed.

Lemma returned_iff_task_chain_witness :
  In (output (List.filter notSentinel demoTree) rowBid 1) demoOrdered.
Proof.
  destruct demoTree_wf as [Hnd Hne].
  destruct (returned_iff_task_chain codePointCompare SortName Asc demoTree demoOrdered
              Hnd Hne demoTree_ordered) as [Hin _].
  apply (Hin rowBid [rowPlan]).
  - apply chain_step; [apply chain_root| |done]; simpl; tauto.
  - by repeat constructor.
Defined.

(** ** The order of siblings under the sort key *)

Lemma ascii_compare_N a b :
  Ascii.compare a b = N.compare (N_of_ascii a) (N_of_ascii b).
Proof. reflexivity. Qed.

Lemma ascii_compare_Eq a b : Ascii.compare a b = Eq ↔ a = b.
Proof.
  split; [apply Ascii.compare_eq_iff|].
  intros ->. rewrite ascii_compare_N. apply N.compare_refl.
Qed.

Lemma string_compare_refl s : String.compare s s = Eq.
Proof.
  induction s as [|c s IH]; simpl; [done|].
  by rewrite (proj2 (ascii_compare_Eq c c) eq_refl).
Qed.

(** If [z] is below [x] and [y] is not, then [z] is below [y]. *)
Lemma string_compare_shift z : ∀ x y,
  String.compare z x = Lt → String.compare y x ≠ Lt → String.compare z y = Lt.
Proof.
  induction z as [|c1 z IH]; intros [|c2 x] [|c3 y]; simpl; try done.
  rewrite !ascii_compare_N.
  destruct (N.compare_spec (N_of_ascii c1) (N_of_ascii c2)) as [E12|L12|G12];
    destruct (N.compare_spec (N_of_ascii c3) (N_of_ascii c2)) as [E32|L32|G32];
    destruct (N.compare_spec (N_of_ascii c1) (N_of_ascii c3)) as [E13|L13|G13];
    try done; try lia.
  apply IH.
Qed.

Lemma str_lt_irrefl s : Js.str_lt s s = false.
Proof. unfold Js.str_lt, String.ltb. by rewrite string_compare_refl. Qed.

Lemma str_lt_asym a b : Js.str_lt a b = true → Js.str_lt b a = false.
Proof.
  unfold Js.str_lt, String.ltb. rewrite (String.compare_antisym a b).
  by destruct (String.compare b a).
Qed.

Lemma str_lt_shift z x y :
  Js.str_lt z x = true → Js.str_lt y x = false → Js.str_lt z y = true.
Proof.
  unfold Js.str_lt, String.ltb. intros Hzx Hyx.
  rewrite (string_compare_shift z x y); [done| |].
  - by destruct (String.compare z x).
  - by destruct (String.compare y x).
Qed.

Section KeyFacts.

Variable field : SortField.
Variable dir : SortDir.

Lemma val_lt_irrefl r : val_lt (valFor field r) (valFor field r) = false.
Proof.
  unfold valFor. destruct field; simpl; [apply str_lt_irrefl|apply Z.ltb_irrefl..].
Qed.

Lemma val_lt_asym a b :
  val_lt (valFor field a) (valFor field b) = true →
  val_lt (valFor field b) (valFor field a) = false.
Proof.
  unfold valFor. destruct field; simpl; [apply str_lt_asym|lia..].
Qed.

Lemma val_lt_shift z x y :
  val_lt (valFor field z) (valFor field x) = true →
  val_lt (valFor field y) (valFor field x) = false →
  val_lt (valFor field z) (valFor field y) = true.
Proof.
  unfold valFor. destruct field; simpl; [apply str_lt_shift|lia..].
Qed.

Lemma val_lt_shift_r z x y :
  val_lt (valFor field x) (valFor field z) = true →
  val_lt (valFor field x) (valFor field y) = false →
  val_lt (valFor field y) (valFor field z) = true.
Proof.
  unfold valFor. destruct field; simpl; [|lia..].
  unfold Js.str_lt, String.ltb. intros Hxz Hxy.
  set (sx := Js.toLowerCase (name x)) in *.
  set (sy := Js.toLowerCase (name y)) in *.
  set (sz := Js.toLowerCase (name z)) in *.
  destruct (String.compare sy sz) eqn:E; [|done|].
  - apply String.compare_eq_iff in E. rewrite E in Hxy.
    by destruct (String.compare sx sz).
  - exfalso.
    assert (String.compare sz sy = Lt) as Hzy.
    { rewrite String.compare_antisym, E. done. }
    assert (String.compare sx sy = Lt) as Hlt.
    { destruct (String.compare sx sy) eqn:E2; [|done|].
      - apply String.compare_eq_iff in E2. rewrite E2 in Hxz.
        rewrite E in Hxz. done.
      - exfalso.
        assert (String.compare sy sx = Lt) as Hyx
          by (rewrite String.compare_antisym, E2; done).
        pose proof (string_compare_shift sy sx sz Hyx) as Hs.
        rewrite E in Hs. 
        assert (String.compare sz sx ≠ Lt) as Hn.
        { rewrite String.compare_antisym. by destruct (String.compare sx sz). }
        specialize (Hs Hn). done. }
    rewrite Hlt in Hxy. done.
Qed.

Lemma keyBefore_compare localeCompare a b :
  keyBefore field dir a b →
  compare localeCompare field dir a b < 0 ∧ 0 < compare localeCompare field dir b a.
Proof.
  unfold keyBefore, compare. destruct dir; intros H.
  - rewrite H, (val_lt_asym _ _ H). simpl. lia.
  - rewrite H, (val_lt_asym _ _ H). simpl. lia.
Qed.

Lemma keyBefore_irrefl a : ¬ keyBefore field dir a a.
Proof. unfold keyBefore. destruct dir; by rewrite val_lt_irrefl. Qed.

Lemma keyBefore_shift x y z :
  keyBefore field dir z x → ¬ keyBefore field dir y x → keyBefore field dir z y.
Proof.
  unfold keyBefore. destruct dir; intros Hzx Hyx.
  - apply (val_lt_shift z x y); [done|]. by apply not_true_is_false.
  - apply (val_lt_shift_r z x y); [done|]. by apply not_true_is_false.
Qed.

Lemma valFor_processed r l ms : valFor field (processed r l ms) = valFor field r.
Proof. by destruct field. Qed.

End KeyFacts.

Section KeyOrder.

Variable localeCompare : string → string → Z.
Variable field : SortField.
Variable dir : SortDir.
Variable rows : list GanttRow.

Hypothesis ids_unique : NoDup (map id rows).
Hypothesis ids_nonempty : ∀ r, In r rows → id r ≠ "".

Let cm := childrenMap rows.
Let cmpr := compare localeCompare field dir.
Let sortL := sortList localeCompare field dir.
Let proc := process localeCompare field dir.
Let before := keyBefore field dir.

Lemma insertBy_keySorted x l :
  keySorted field dir l → keySorted field dir (insertBy cmpr x l).
Proof.
  intros Hs. induction Hs as [|y l Hs IH Hy]; simpl.
  - repeat constructor.
  - destruct (Z.leb_spec (cmpr x y) 0) as [Hle|Hgt].
    + constructor; [by constructor|].
      assert (¬ before y x) as Hyx.
      { intros Hb. apply (keyBefore_compare field dir localeCompare) in Hb.
        unfold cmpr in Hle. lia. }
      constructor; [done|].
      apply List.Forall_forall. intros z Hz Hzx.
      rewrite List.Forall_forall in Hy. apply (Hy z Hz).
      by eapply keyBefore_shift.
    + constructor; [by apply IH|].
      apply List.Forall_forall. intros z Hz.
      apply In_insertBy in Hz as [->|Hz].
      * intros Hb. apply (keyBefore_compare field dir localeCompare) in Hb.
        unfold cmpr in Hgt. lia.
      * rewrite List.Forall_forall in Hy. by apply Hy.
Qed.

Lemma sortBy_keySorted l : keySorted field dir (sortBy cmpr l).
Proof.
  induction l as [|x l IH]; simpl; [constructor|].
  by apply insertBy_keySorted.
Qed.

Lemma keySorted_precedes l a b :
  keySorted field dir l → In a l → In b l → before a b → precedes l a b.
Proof.
  intros Hs Ha Hb Hab. apply in_split in Ha as (l1 & l2 & ->).
  apply in_app_iff in Hb as [Hb|[<-|Hb]].
  - exfalso. apply in_split in Hb as (l3 & l4 & ->).
    rewrite <- app_assoc in Hs. simpl in Hs.
    induction l3 as [|z l3 IH]; simpl in Hs.
    + apply StronglySorted_inv in Hs as [_ Hall].
      rewrite List.Forall_forall in Hall.
      apply (Hall a); [|done]. apply in_app_iff. right. by left.
    + apply StronglySorted_inv in Hs as [Hs _]. by apply IH.
  - by apply keyBefore_irrefl in Hab.
  - apply precedes_app_r.
    apply (precedes_app [a] l2); [by left|done].
Qed.

Lemma keyBefore_output x l y l' :
  before (output rows x l) (output rows y l') ↔ before x y.
Proof. unfold before, keyBefore, output. by rewrite !valFor_processed. Qed.

Lemma forest_key_order f lvl Cx pid : ∀ sibs rest,
  (∀ r res, chain rows (r :: Cx) → proc f cm r lvl = Some res →
     ∀ a b, In a res → In b res → parentId a = parentId b → before a b →
            precedes res a b) →
  keySorted field dir sibs →
  (∀ k, In k sibs → chain rows (k :: Cx)) →
  (∀ k, In k sibs → parentId k = pid) →
  Forall2 (λ k b, proc f cm k lvl = Some b) sibs rest →
  (∀ x, In x (concat rest) → id x ≠ pid) →
  ∀ a b, In a (concat rest) → In b (concat rest) →
         parentId a = parentId b → before a b → precedes (concat rest) a b.
Proof.
  intros sibs rest IH Hsorted Hch Hpid HF Hfresh a b Ha Hb Hpar Hab.
  destruct (Forall2_concat_in _ _ _ _ HF Ha) as (ka & ba & Hka & Hba & Hpa & Hxa).
  destruct (Forall2_concat_in _ _ _ _ HF Hb) as (kb & bb & Hkb & Hbb & Hpb & Hxb).
  destruct (process_elem _ _ _ _ _ _ _ _ _ Hpa Hxa)
    as (a0 & la & -> & [[-> ->]|(pa & la' & -> & _ & Hpain & Ha0)]);
  destruct (process_elem _ _ _ _ _ _ _ _ _ Hpb Hxb)
    as (b0 & lb & -> & [[-> ->]|(pb & lb' & -> & _ & Hpbin & Hb0)]).
  - apply keyBefore_output in Hab.
    destruct (keySorted_precedes _ _ _ Hsorted Hka Hkb Hab) as (i & j & Hi & Hj & Hlt).
    destruct (Forall2_lookup_l _ _ _ _ _ HF Hi) as (ba' & Hbi & Hpa').
    destruct (Forall2_lookup_l _ _ _ _ _ HF Hj) as (bb' & Hbj & Hpb').
    apply (precedes_concat_blocks rest i j ba' bb'); [done|done|done| |].
    + eapply process_head. exact Hpa'.
    + eapply process_head. exact Hpb'.
  - exfalso. apply In_taskKids in Hb0 as (_ & Hb0 & _).
    apply (Hfresh (output rows pb lb')).
    + apply in_concat. eauto.
    + simpl in *. rewrite <- Hb0, <- Hpar. by apply Hpid.
  - exfalso. apply In_taskKids in Ha0 as (_ & Ha0 & _).
    apply (Hfresh (output rows pa la')).
    + apply in_concat. eauto.
    + simpl in *. rewrite <- Ha0, Hpar. by apply Hpid.
  - apply In_taskKids in Ha0 as (_ & Ha0 & _).
    apply In_taskKids in Hb0 as (_ & Hb0 & _).
    assert (ka = kb) as <-.
    { eapply (same_id_same_sibling localeCompare field dir rows ids_unique ids_nonempty
                f f ka kb lvl lvl Cx ba bb (output rows pa la') (output rows pb lb'));
        eauto.
      simpl in *. congruence. }
    assert (ba = bb) as <- by congruence.
    eapply precedes_concat_in; [exact Hba|].
    eapply IH; eauto.
Qed.

Lemma process_key_order f : ∀ r lvl C res,
  chain rows (r :: C) → proc f cm r lvl = Some res →
  ∀ a b, In a res → In b res → parentId a = parentId b → before a b →
         precedes res a b.
Proof.
  induction f as [|f IH]; intros r lvl C res HC Hp a b Ha Hb Hpar Hab; [discriminate|].
  pose proof (process_NoDup localeCompare field dir rows ids_unique ids_nonempty
                _ _ _ _ _ HC Hp) as Hnd.
  apply process_unfold in Hp as (rest & Hrest & ->).
  assert (∀ x, In x (concat rest) → parentId x ≠ parentId r) as Hbelow.
  { intros x Hx.
    destruct (Forall2_concat_in _ _ _ _ Hrest Hx) as (k & blk & Hk & _ & Hpk & Hxb).
    pose proof (chain_kid localeCompare field dir rows _ _ _ HC Hk) as HkC.
    destruct (process_chain localeCompare field dir rows _ _ _ _ _ _ HkC Hpk Hxb)
      as (x0 & K & ? & -> & HK & Hs).
    simpl. by eapply (below_not_sibling rows ids_unique ids_nonempty). }
  destruct Ha as [<-|Ha], Hb as [<-|Hb].
  - by apply keyBefore_output, keyBefore_irrefl in Hab.
  - apply (precedes_app [output rows r lvl]); [by left|done].
  - exfalso. by apply (Hbelow a).
  - apply (precedes_app_r [output rows r lvl]).
    apply (forest_key_order f (S lvl) (r :: C) (id r) (sortL (taskKids cm r)) rest);
      [| | | |exact Hrest| |done..].
    + intros k blk Hk Hblk. by apply (IH k (S lvl) (r :: C)).
    + apply sortBy_keySorted.
    + intros k Hk. by apply (chain_kid localeCompare field dir rows).
    + intros k Hk. apply In_sortBy, In_taskKids in Hk. tauto.
    + intros x Hx Hid. rewrite map_cons in Hnd.
      apply NoDup_cons in Hnd as [Hnd _]. apply Hnd.
      simpl. rewrite <- Hid. apply list_elem_of_In, in_map, Hx.
Qed.

End KeyOrder.

(** X5. With unique non-empty identifiers, and with names of characters
    below 128 when the sort is by name, two returned siblings whose sort
    keys differ come in the order of the keys: the smaller key first when
    ascending, the larger key first when descending. *)
Theorem siblings_follow_sort_key
    (localeCompare : string → string → Z) (field : SortField) (dir : SortDir)
    (data0 res : list GanttRow) :
  NoDup (map id data0) → (∀ r, In r data0 → id r ≠ "") →
  (field = SortName → Forall (λ r, asciiOnly (name r) = true) data0) →
  orderGanttRows localeCompare field dir data0 = Some res →
  ∀ (i j : nat) a b,
    res !! i = Some a → res !! j = Some b → parentId a = parentId b →
    val_lt (valFor field a) (valFor field b) = true →
    match dir with Asc => (i < j)%nat | Desc => (j < i)%nat end.
Proof.
  intros Hnd Hne _ Hres i j a b Hi Hj Hpar Hlt.
  pose proof (orderGanttRows_NoDup _ _ _ _ _ Hnd Hne Hres) as Hndres.
  pose proof (visible_ids_unique _ Hnd) as Hnd'.
  pose proof (visible_ids_nonempty _ Hne) as Hne'.
  set (rows := List.filter notSentinel data0) in *.
  assert (In a res) as Hain by (apply list_elem_of_In; by eapply list_elem_of_lookup_2).
  assert (In b res) as Hbin by (apply list_elem_of_In; by eapply list_elem_of_lookup_2).
  assert (∀ x y, In x res → In y res → parentId x = parentId y →
                 keyBefore field dir x y → precedes res x y) as Horder.
  { destruct (proj1 (orderGanttRows_unfold localeCompare field dir rows data0 res eq_refl) Hres)
      as (rest & Hrest & Heq).
    intros x y Hx Hy Hxy Hbefore. rewrite Heq in Hx, Hy |- *.
    apply (forest_key_order localeCompare field dir rows Hnd' Hne'
             (S (length rows)) 0%nat [] ""
             (sortList localeCompare field dir (rootsOf (childrenMap rows))) rest);
      [| | | |exact Hrest| |done..].
    - intros k blk Hk Hblk.
      by apply (process_key_order localeCompare field dir rows Hnd' Hne'
                  (S (length rows)) k 0%nat []).
    - by apply sortBy_keySorted.
    - intros k Hk. by apply (chain_of_root localeCompare field dir rows).
    - intros k Hk. apply In_sortBy, In_rootsOf in Hk. tauto.
    - intros z Hz. rewrite <- Heq in Hz.
      destruct (ordered_origin localeCompare field dir rows data0 res z eq_refl Hres Hz)
        as (z0 & l & -> & Hz0 & _). simpl. by apply Hne'. }
  assert (∀ (i' j' : nat) x y, precedes res x y → res !! i' = Some x → res !! j' = Some y →
                       (i' < j')%nat) as Hidx.
  { intros i' j' x y (i0 & j0 & Hi0 & Hj0 & Hlt') Hi' Hj'.
    assert (i0 = i') as <-.
    { eapply (NoDup_lookup (map id res)); [done| |];
        apply (list_lookup_fmap_Some_2 id); eassumption. }
    assert (j0 = j') as <-.
    { eapply (NoDup_lookup (map id res)); [done| |];
        apply (list_lookup_fmap_Some_2 id); eassumption. }
    done. }
  destruct dir.
  - apply (Hidx i j a b); [|done|done]. by apply Horder.
  - apply (Hidx j i b a); [|done|done]. by apply Horder.
Qed.

Lemma siblings_follow_sort_key_witness :
  orderGanttRows codePointCompare SortName Desc demoRoots
  = Some [ processed (row "2" "Beta" None None "project" "") 0 [];
           processed (row "1" "Alpha" (Some 1704067200000) (Some 1706745600000)
                        "project" "") 0 [] ]
  ∧ (0 < 1)%nat.
Proof.
  destruct demoRoots_wf as (Hnd & Hne & _).
  assert (orderGanttRows codePointCompare SortName Desc demoRoots
          = Some [ processed (row "2" "Beta" None None "project" "") 0 [];
                   processed (row "1" "Alpha" (Some 1704067200000) (Some 1706745600000)
                                "project" "") 0 [] ]) as Hres by by vm_compute.
  split; [exact Hres|].
  assert (Forall (λ r, asciiOnly (name r) = true) demoRoots) as Hascii
    by (repeat constructor).
  exact (siblings_follow_sort_key codePointCompare SortName Desc demoRoots _
           Hnd Hne (λ _, Hascii) Hres 1%nat 0%nat _ _ eq_refl eq_refl eq_refl eq_refl).
Defined.

(** ** More calendar facts *)

Lemma DayFromYear_mono y1 y2 : y1 ≤ y2 → DayFromYear y1 ≤ DayFromYear y2.
Proof. intros H. unfold DayFromYear. Z.div_mod_to_equations. lia. Qed.

Lemma DayFromYear_lt y1 y2 : y1 < y2 → DayFromYear y1 < DayFromYear y2.
Proof. intros H. unfold DayFromYear. Z.div_mod_to_equations. lia. Qed.

Lemma YearFromDay_unique d y :
  DayFromYear y ≤ d < DayFromYear (y + 1) → YearFromDay d = y.
Proof.
  intros Hy. pose proof (YearFromDay_spec d) as Hs.
  destruct (Z.lt_trichotomy (YearFromDay d) y) as [Hlt|[Heq|Hgt]]; [|done|].
  - pose proof (DayFromYear_mono (YearFromDay d + 1) y). lia.
  - pose proof (DayFromYear_mono (y + 1) (YearFromDay d)). lia.
Qed.

Lemma Day_MakeDate day time :
  0 ≤ time < msPerDay →
  Day (MakeDate day time) = day ∧ TimeWithinDay (MakeDate day time) = time.
Proof.
  intros Ht. unfold Day, TimeWithinDay, MakeDate, msPerDay in *.
  Z.div_mod_to_equations. lia.
Qed.


Lemma monthOfDayInYear_offset (leap : bool) m k :
  0 ≤ m ≤ 11 → 0 ≤ k ≤ 27 →
  monthOfDayInYear leap (monthOffset leap m + k) = m.
Proof.
  intros Hm Hk.
  assert (m = 0 ∨ m = 1 ∨ m = 2 ∨ m = 3 ∨ m = 4 ∨ m = 5 ∨ m = 6 ∨ m = 7
          ∨ m = 8 ∨ m = 9 ∨ m = 10 ∨ m = 11) as Hcases by lia.
  unfold monthOfDayInYear.
  destruct Hcases as [->|[->|[->|[->|[->|[->|[->|[->|[->|[->|[->| ->]]]]]]]]]]];
    destruct leap; unfold monthOffset; simpl;
    repeat match goal with
           | |- context [if Z.ltb ?a ?b then _ else _] => destruct (Z.ltb_spec a b)
           end; lia.
Qed.

(** The calendar fields of a date built from its fields. *)
Lemma fields_MakeDay y m d time :
  0 ≤ m ≤ 11 → 1 ≤ d ≤ 28 → 0 ≤ time < msPerDay →
  let t := MakeDate (MakeDay y m d) time in
  getFullYear t = y ∧ getMonth t = m ∧ getDate t = d ∧ TimeWithinDay t = time.
Proof.
  intros Hm Hd Ht t.
  destruct (Day_MakeDate (MakeDay y m d) time Ht) as [Hday Htime]. fold t in Hday, Htime.
  assert (MakeDay y m d = DayFromYear y + monthOffset (InLeapYear y) m + d - 1) as Hmk.
  { unfold MakeDay. rewrite Z.div_small, Z.mod_small by lia.
    by replace (y + 0) with y by lia. }
  assert (0 ≤ monthOffset (InLeapYear y) m
          ∧ monthOffset (InLeapYear y) m + 28
            ≤ 365 + (if InLeapYear y then 1 else 0)) as Hoff.
  { assert (m = 0 ∨ m = 1 ∨ m = 2 ∨ m = 3 ∨ m = 4 ∨ m = 5 ∨ m = 6 ∨ m = 7
            ∨ m = 8 ∨ m = 9 ∨ m = 10 ∨ m = 11) as Hcases by lia.
    destruct Hcases as [->|[->|[->|[->|[->|[->|[->|[->|[->|[->|[->| ->]]]]]]]]]]];
      destruct (InLeapYear y); unfold monthOffset; simpl; lia. }
  assert (getFullYear t = y) as Hy.
  { unfold getFullYear. rewrite Hday. apply YearFromDay_unique.
    rewrite DayFromYear_succ, Hmk. lia. }
  assert (dayWithinYear t = monthOffset (InLeapYear y) m + (d - 1)) as Hdy.
  { unfold dayWithinYear. rewrite Hy, Hday, Hmk. lia. }
  assert (getMonth t = m) as Hmo.
  { unfold getMonth. rewrite Hy, Hdy. apply monthOfDayInYear_offset; lia. }
  split; [done|]. split; [done|]. split; [|done].
  unfold getDate. rewrite Hmo, Hy, Hdy. lia.
Qed.

Lemma ctorYear_id y : ¬ (0 ≤ y ≤ 99) → ctorYear y = y.
Proof.
  intros H. unfold ctorYear.
  destruct (Z.leb_spec 0 y), (Z.leb_spec y 99); simpl; lia.
Qed.

Lemma ctorYear_range y : ¬ (0 ≤ ctorYear y ≤ 99).
Proof.
  unfold ctorYear.
  destruct (Z.leb_spec 0 y), (Z.leb_spec y 99); simpl; lia.
Qed.


(** ** The bounds of the axis *)

Lemma foldl_takeMin_spec ds : ∀ acc,
  match foldl takeMin acc ds with
  | Some m => (acc = Some m ∨ In (Some m) ds)
              ∧ (∀ d, acc = Some d ∨ In (Some d) ds → m ≤ d)
  | None => acc = None ∧ ∀ d, ¬ In (Some d) ds
  end.
Proof.
  induction ds as [|x ds IH]; intros acc; simpl.
  - destruct acc as [m|].
    + split; [by left|]. intros d [H|[]]. inversion H. lia.
    + split; [done|]. intros d [].
  - specialize (IH (takeMin acc x)).
    destruct (foldl takeMin (takeMin acc x) ds) as [m|].
    + destruct IH as [Hin Hle]. split.
      * destruct Hin as [Hin|Hin]; [|by right; right].
        unfold takeMin in Hin. destruct x as [x|], acc as [a|]; try (by left).
        -- destruct (Z.ltb_spec x a); [right; left; congruence|by left].
        -- right. left. congruence.
      * intros d Hd.
        assert (∀ d', takeMin acc x = Some d' → m ≤ d') as Hacc
          by (intros d' Hd'; apply Hle; by left).
        destruct Hd as [->|[->|Hd]]; [| |apply Hle; by right].
        -- unfold takeMin in Hacc. destruct x as [x|]; [|by apply Hacc].
           destruct (Z.ltb_spec x d); [|by apply Hacc].
           specialize (Hacc x eq_refl). lia.
        -- unfold takeMin in Hacc. destruct acc as [a|]; [|by apply Hacc].
           destruct (Z.ltb_spec d a); [by apply Hacc|].
           specialize (Hacc a eq_refl). lia.
    + destruct IH as [Hacc Hnone]. unfold takeMin in Hacc.
      destruct x as [x|], acc as [a|]; try done.
      * by destruct (Z.ltb_spec x a).
      * split; [done|]. intros d [H|H]; [done|]. by apply (Hnone d).
Qed.

Lemma foldl_takeMax_spec ds : ∀ acc,
  match foldl takeMax acc ds with
  | Some m => (acc = Some m ∨ In (Some m) ds)
              ∧ (∀ d, acc = Some d ∨ In (Some d) ds → d ≤ m)
  | None => acc = None ∧ ∀ d, ¬ In (Some d) ds
  end.
Proof.
  induction ds as [|x ds IH]; intros acc; simpl.
  - destruct acc as [m|].
    + split; [by left|]. intros d [H|[]]. inversion H. lia.
    + split; [done|]. intros d [].
  - specialize (IH (takeMax acc x)).
    destruct (foldl takeMax (takeMax acc x) ds) as [m|].
    + destruct IH as [Hin Hle]. split.
      * destruct Hin as [Hin|Hin]; [|by right; right].
        unfold takeMax in Hin. destruct x as [x|], acc as [a|]; try (by left).
        -- destruct (Z.gtb_spec x a); [right; left; congruence|by left].
        -- right. left. congruence.
      * intros d Hd.
        assert (∀ d', takeMax acc x = Some d' → d' ≤ m) as Hacc
          by (intros d' Hd'; apply Hle; by left).
        destruct Hd as [->|[->|Hd]]; [| |apply Hle; by right].
        -- unfold takeMax in Hacc. destruct x as [x|]; [|by apply Hacc].
           destruct (Z.gtb_spec x d); [|by apply Hacc].
           specialize (Hacc x eq_refl). lia.
        -- unfold takeMax in Hacc. destruct acc as [a|]; [|by apply Hacc].
           destruct (Z.gtb_spec d a); [by apply Hacc|].
           specialize (Hacc a eq_refl). lia.
    + destruct IH as [Hacc Hnone]. unfold takeMax in Hacc.
      destruct x as [x|], acc as [a|]; try done.
      * by destruct (Z.gtb_spec x a).
      * split; [done|]. intros d [H|H]; [done|]. by apply (Hnone d).
Qed.

Lemma foldl_scanDates l : ∀ acc,
  foldl scanDates acc l
  = (foldl takeMin acc.1 (map startDate l), foldl takeMax acc.2 (map endDate l)).
Proof.
  induction l as [|r l IH]; intros [a1 a2]; simpl; [done|].
  by rewrite IH.
Qed.

Lemma scanData_scanned rows :
  scanData rows = foldl scanDates (None, None) (scannedRows rows).
Proof.
  unfold scanData, scannedRows. generalize (@None Z, @None Z).
  induction rows as [|r rows IH]; intros acc; simpl; [done|].
  by rewrite foldl_app, IH.
Qed.


Lemma In_scannedRows rows x :
  In x (scannedRows rows) ↔ ∃ r, In r rows ∧ (x = r ∨ In x (milestones r)).
Proof.
  unfold scannedRows. rewrite in_concat. split.
  - intros (l & Hl & Hx). apply in_map_iff in Hl as (r & <- & Hr).
    exists r. split; [done|]. destruct Hx as [<-|Hx]; eauto.
  - intros (r & Hr & Hx). exists (r :: milestones r). split.
    + apply in_map_iff. eauto.
    + destruct Hx as [->|Hx]; [by left|by right].
Qed.




Lemma foldl_takeMin_ext l1 l2 :
  (∀ d, In (Some d) l1 ↔ In (Some d) l2) →
  foldl takeMin None l1 = foldl takeMin None l2.
Proof.
  intros Hext.
  pose proof (foldl_takeMin_spec l1 None) as H1.
  pose proof (foldl_takeMin_spec l2 None) as H2.
  destruct (foldl takeMin None l1) as [m1|], (foldl takeMin None l2) as [m2|].
  - destruct H1 as [[H1|H1] L1], H2 as [[H2|H2] L2]; try done.
    assert (m1 ≤ m2) by (apply L1; right; by apply Hext).
    assert (m2 ≤ m1) by (apply L2; right; by apply Hext).
    f_equal. lia.
  - destruct H1 as [[H1|H1] _], H2 as [_ H2]; [done|].
    exfalso. apply (H2 m1). by apply Hext.
  - destruct H2 as [[H2|H2] _], H1 as [_ H1]; [done|].
    exfalso. apply (H1 m2). by apply Hext.
  - done.
Qed.

Lemma foldl_takeMax_ext l1 l2 :
  (∀ d, In (Some d) l1 ↔ In (Some d) l2) →
  foldl takeMax None l1 = foldl takeMax None l2.
Proof.
  intros Hext.
  pose proof (foldl_takeMax_spec l1 None) as H1.
  pose proof (foldl_takeMax_spec l2 None) as H2.
  destruct (foldl takeMax None l1) as [m1|], (foldl takeMax None l2) as [m2|].
  - destruct H1 as [[H1|H1] L1], H2 as [[H2|H2] L2]; try done.
    assert (m2 ≤ m1) by (apply L1; right; by apply Hext).
    assert (m1 ≤ m2) by (apply L2; right; by apply Hext).
    f_equal. lia.
  - destruct H1 as [[H1|H1] _], H2 as [_ H2]; [done|].
    exfalso. apply (H2 m1). by apply Hext.
  - destruct H2 as [[H2|H2] _], H1 as [_ H1]; [done|].
    exfalso. apply (H1 m2). by apply Hext.
  - done.
Qed.

(** X7. The milestones that the orderer attaches to the shared row objects are
    rows of the data themselves, so that reading them again does not move
    the axis: the bounds are those of the rows with empty milestone
    lists, as the reader built them. *)
Theorem attached_milestones_leave_bounds (p q : Props) :
  ganttStartDate p = ganttStartDate q → ganttEndDate p = ganttEndDate q →
  Forall2 (λ r r', startDate r = startDate r' ∧ endDate r = endDate r'
                   ∧ milestones r' = []) (data p) (data q) →
  (∀ r m, In r (data p) → In m (milestones r) →
          ∃ r0, In r0 (data p) ∧ startDate m = startDate r0 ∧ endDate m = endDate r0) →
  getTimelineBounds p = getTimelineBounds q.
Proof.
  intros Hgs Hge HF Hms.
  assert (∀ f : GanttRow → option Z,
            (∀ r r', startDate r = startDate r' ∧ endDate r = endDate r' → f r = f r') →
            ∀ d, In (Some d) (map f (scannedRows (data p)))
                 ↔ In (Some d) (map f (scannedRows (data q)))) as Hext.
  { intros f Hf d. rewrite !in_map_iff. split.
    - intros (x & Hx & Hin). apply In_scannedRows in Hin as (r & Hr & Hcase).
      assert (∃ r0, In r0 (data p) ∧ f r0 = Some d) as (r0 & Hr0 & Hfr0).
      { destruct Hcase as [->|Hm]; [eauto|].
        destruct (Hms r x Hr Hm) as (r0 & Hr0 & Hs & He).
        exists r0. split; [done|]. rewrite <- Hx. symmetry. by apply Hf. }
      apply list_elem_of_In, list_elem_of_lookup in Hr0 as [i Hi].
      destruct (Forall2_lookup_l _ _ _ _ _ HF Hi) as (r' & Hi' & Hs & He & _).
      exists r'. split; [rewrite <- Hfr0; symmetry; by apply Hf|].
      apply In_scannedRows. exists r'. split; [|by left].
      apply list_elem_of_In. by eapply list_elem_of_lookup_2.
    - intros (x & Hx & Hin). apply In_scannedRows in Hin as (r' & Hr' & Hcase).
      apply list_elem_of_In, list_elem_of_lookup in Hr' as [i Hi].
      destruct (Forall2_lookup_r _ _ _ _ _ HF Hi) as (r & Hi' & Hs & He & Hnil).
      destruct Hcase as [->|Hm]; [|by rewrite Hnil in Hm].
      exists r. split; [rewrite <- Hx; by apply Hf|].
      apply In_scannedRows. exists r. split; [|by left].
      apply list_elem_of_In. by eapply list_elem_of_lookup_2. }
  assert (scanData (data p) = scanData (data q)) as Hscan.
  { rewrite !scanData_scanned, !foldl_scanDates. simpl. f_equal.
    - apply foldl_takeMin_ext, Hext. by intros r r' [-> _].
    - apply foldl_takeMax_ext, Hext. by intros r r' [_ ->]. }
  unfold getTimelineBounds. by rewrite Hscan, Hgs, Hge.
Qed.

Lemma attached_milestones_leave_bounds_witness :
  getTimelineBounds
    (mkProps 0 0 0 false false None
       [processed rowPlan 0 [rowKickoff]; rowBid; rowKickoff] false)
  = getTimelineBounds (mkProps 0 0 0 false false None [rowPlan; rowBid; rowKickoff] false).
Proof.
  apply attached_milestones_leave_bounds; [done|done| |].
  - by repeat constructor.
  - intros r m [<-|[<-|[<-|[]]]] Hm; simpl in Hm; try done.
    destruct Hm as [<-|[]]. exists rowKickoff. simpl. tauto.
Defined.
(** ** The segments of the header *)

Lemma segsFrom_cons cursor next limit g segs :
  seg_start g = cursor → cursor ≤ limit → cursor < next →
  segsFrom next limit segs → segsFrom cursor limit (g :: segs).
Proof.
  intros Hg Hle Hnext (Hs & Hall & _). split; [|split].
  - constructor; [done|]. eapply Forall_impl; [exact Hall|].
    intros a Ha. simpl in Ha. lia.
  - constructor; [lia|]. eapply Forall_impl; [exact Hall|].
    intros a Ha. simpl in Ha. lia.
  - intros _. eauto.
Qed.

Lemma segsFrom_nil cursor limit : limit < cursor → segsFrom cursor limit [].
Proof. intros H. split; [constructor|]. split; [constructor|lia]. Qed.

Lemma monthSegments_spec fuel : ∀ cursor limit segs,
  monthSegments fuel cursor limit = Some segs → segsFrom cursor limit segs.
Proof.
  induction fuel as [|fuel IH]; intros cursor limit segs; simpl;
    destruct (Z.leb_spec cursor limit) as [Hle|Hgt]; try done.
  - intros H. inversion H. by apply segsFrom_nil.
  - intros H. apply fmap_Some in H as (rest & Hrest & ->).
    pose proof (nextMonth_progress cursor) as Hp.
    eapply segsFrom_cons; [done|done| |by apply IH]. unfold msPerDay in Hp. lia.
  - intros H. inversion H. by apply segsFrom_nil.
Qed.

Lemma weekSegments_spec fuel : ∀ cursor limit segs,
  weekSegments fuel cursor limit = Some segs →
  segsFrom cursor limit segs
  ∧ ∀ (i : nat) g, segs !! i = Some g →
      seg_start g = cursor + Z.of_nat i * (7 * msPerDay).
Proof.
  induction fuel as [|fuel IH]; intros cursor limit segs; simpl;
    destruct (Z.leb_spec cursor limit) as [Hle|Hgt]; try done.
  - intros H. inversion H. split; [by apply segsFrom_nil|]. by intros i g.
  - intros H. apply fmap_Some in H as (rest & Hrest & ->).
    rewrite setDate_shift in Hrest. apply IH in Hrest as [Hs Hidx]. split.
    + eapply segsFrom_cons; [done|done| |exact Hs]. unfold msPerDay. lia.
    + intros [|i] g Hg; simpl in Hg.
      * inversion Hg. simpl. lia.
      * rewrite (Hidx i g Hg). lia.
  - intros H. inversion H. split; [by apply segsFrom_nil|]. by intros i g.
Qed.

Lemma newDate_year_start y :
  ¬ (0 ≤ y ≤ 99) → newDate y 0 1 0 0 0 0 = DayFromYear y * msPerDay.
Proof.
  intros Hy. unfold newDate. rewrite (ctorYear_id _ Hy).
  unfold MakeDay, MakeDate, MakeTime.
  change (0 / 12) with 0. change (0 mod 12) with 0.
  replace (y + 0) with y by lia. unfold monthOffset. simpl. lia.
Qed.

Lemma yearSegments_spec fuel : ∀ y lastY segs,
  100 ≤ y →
  yearSegments fuel y lastY = Some segs →
  segsFrom (DayFromYear y * msPerDay) (DayFromYear lastY * msPerDay) segs.
Proof.
  induction fuel as [|fuel IH]; intros y lastY segs Hy; simpl;
    destruct (Z.leb_spec y lastY) as [Hle|Hgt]; try done.
  - intros H. inversion H. apply segsFrom_nil.
    pose proof (DayFromYear_lt lastY y Hgt). unfold msPerDay. lia.
  - intros H. apply fmap_Some in H as (rest & Hrest & ->).
    apply IH in Hrest; [|lia].
    pose proof (DayFromYear_mono y lastY Hle).
    pose proof (DayFromYear_lt y (y + 1)).
    eapply segsFrom_cons; [|unfold msPerDay; lia| |exact Hrest].
    + simpl. apply newDate_year_start. lia.
    + unfold msPerDay. lia.
  - intros H. inversion H. apply segsFrom_nil.
    pose proof (DayFromYear_lt lastY y Hgt). unfold msPerDay. lia.
Qed.

Lemma Day_shift t k : Day (t + k * msPerDay) = Day t + k.
Proof. unfold Day, msPerDay. rewrite Z.div_add by lia. done. Qed.

(** The axis start is the first instant of a month of a year outside 0
    to 99. *)
Lemma tb_start_fields p b :
  getTimelineBounds p = Some b →
  ∃ y m, 0 ≤ m ≤ 11 ∧ ¬ (0 ≤ y ≤ 99)
         ∧ tb_start b = MakeDate (MakeDay y m 1) 0
         ∧ getFullYear (tb_start b) = y ∧ getMonth (tb_start b) = m
         ∧ getDate (tb_start b) = 1.
Proof.
  unfold getTimelineBounds. cbv zeta. intros H.
  apply bind_Some in H as (months & _ & H). inversion H as [Hb]. simpl.
  set (minStart := default (ganttStartDate p) (scanData (data p)).1).
  exists (ctorYear (getFullYear minStart)), (getMonth minStart).
  pose proof (getMonth_range minStart) as Hm.
  destruct (fields_MakeDay (ctorYear (getFullYear minStart)) (getMonth minStart) 1 0)
    as (Hy & Hmo & Hd & _); [done|lia|by vm_compute|].
  split; [done|]. split; [apply ctorYear_range|].
  unfold newDate. change (MakeTime 0 0 0 0) with 0. done.
Qed.

Lemma getSegments_fields p s b segs :
  getTimelineBounds p = Some b → getSegments p s = Some segs →
  ∃ zs, zoomSegments (zoomLevel s) (tb_start b) (tb_end b) = Some zs
        ∧ segs = if decide (length zs = 0%nat) then [mkSegment (tb_start b) ""] else zs.
Proof.
  intros Hb. unfold getSegments. rewrite Hb. simpl. intros H.
  apply bind_Some in H as (zs & Hzs & H). inversion H. eauto.
Qed.

(** X8. In every zoom the segments come in strictly increasing order of their
    start, the first one starts at or before the axis start, and, on an
    axis that runs forwards, none starts after the axis end. *)
Theorem segments_in_order (p : Props) (s : IGanttViewState) (b : TimelineBounds)
    (segs : list Segment) :
  getTimelineBounds p = Some b → getSegments p s = Some segs →
  (zoomLevel s = Year → 100 ≤ getFullYear (tb_start b)) →
  StronglySorted (λ a c, seg_start a < seg_start c) segs
  ∧ (∃ g rest, segs = g :: rest ∧ seg_start g ≤ tb_start b
               ∧ (zoomLevel s = Month → seg_start g = tb_start b)
               ∧ (zoomLevel s = Week → tb_start b - 6 * msPerDay ≤ seg_start g))
  ∧ (tb_start b ≤ tb_end b → Forall (λ g, seg_start g ≤ tb_end b) segs).
Proof.
  intros Hb Hsegs Hyear.
  destruct (getSegments_fields p s b segs Hb Hsegs) as (zs & Hzs & ->).
  destruct (tb_start_fields p b Hb) as (y & m & Hm & Hy & Hst & Hfy & Hfm & Hfd).
  assert (∃ cursor limit, segsFrom cursor limit zs ∧ cursor ≤ tb_start b
            ∧ limit ≤ tb_end b
            ∧ (zoomLevel s = Month → cursor = tb_start b)
            ∧ (zoomLevel s = Week → tb_start b - 6 * msPerDay ≤ cursor))
    as (cursor & limit & (Hsorted & Hall & Hhead) & Hc & Hl & Hmonth & Hweek).
  { destruct (zoomLevel s) eqn:Ez; simpl in Hzs.
    - apply monthSegments_spec in Hzs.
      assert (newDate (getFullYear (tb_start b)) (getMonth (tb_start b)) 1 0 0 0 0
              = tb_start b) as Hcur.
      { rewrite Hfy, Hfm. unfold newDate. rewrite (ctorYear_id _ Hy).
        change (MakeTime 0 0 0 0) with 0. done. }
      rewrite Hcur in Hzs.
      exists (tb_start b), (tb_end b).
      split; [done|]. split; [lia|]. split; [lia|]. split; [done|]. intros; discriminate.
    - apply weekSegments_spec in Hzs as [Hzs _].
      replace (getDate (tb_start b) - (getDay (tb_start b) + 6) mod 7)
        with (getDate (tb_start b) + - ((getDay (tb_start b) + 6) mod 7)) in Hzs by lia.
      rewrite setDate_shift in Hzs.
      pose proof (Z.mod_pos_bound (getDay (tb_start b) + 6) 7 ltac:(lia)) as Hd.
      eexists _, (tb_end b). split; [exact Hzs|].
      unfold msPerDay.
      split; [lia|]. split; [lia|]. split; [intros; discriminate|]. intros _. lia.
    - specialize (Hyear eq_refl).
      apply yearSegments_spec in Hzs; [|done].
      eexists _, _. split; [exact Hzs|].
      pose proof (YearFromDay_spec (Day (tb_start b))) as [Hs1 _].
      pose proof (YearFromDay_spec (Day (tb_end b))) as [He1 _].
      pose proof (msPerDay_split (tb_start b)) as Hs2.
      pose proof (msPerDay_split (tb_end b)) as He2.
      pose proof (Z.mod_pos_bound (tb_start b) msPerDay ltac:(by vm_compute)) as Hs3.
      pose proof (Z.mod_pos_bound (tb_end b) msPerDay ltac:(by vm_compute)) as He3.
      unfold getFullYear, TimeWithinDay, msPerDay in *.
      split; [lia|]. split; [lia|]. split; intros; discriminate. }
  destruct (decide (length zs = 0%nat)) as [Hnil|Hnn].
  - split; [repeat constructor|]. split.
    + exists (mkSegment (tb_start b) ""), []. simpl. unfold msPerDay.
      repeat split; try done; lia.
    + intros Hle. by repeat constructor.
  - split; [done|]. split.
    + destruct zs as [|g rest]; [done|]. exists g, rest. split; [done|].
      apply Forall_cons in Hall as [Hg _].
      assert (cursor ≤ limit) as Hcl by lia.
      destruct (Hhead Hcl) as (g' & rest' & Heq & Hg'). inversion Heq; subst g' rest'.
      split; [lia|]. split.
      * intros Hz. rewrite Hg'. by apply Hmonth.
      * intros Hz. specialize (Hweek Hz). lia.
    + intros _. eapply Forall_impl; [exact Hall|]. intros g Hg. simpl in Hg. lia.
Qed.

Lemma segments_in_order_witness :
  ∃ segs, getSegments propsPlan stateMonth1250 = Some segs
          ∧ StronglySorted (λ a c, seg_start a < seg_start c) segs.
Proof.
  destruct (getSegments propsPlan stateMonth1250) as [segs|] eqn:E;
    [|by vm_compute in E].
  exists segs. split; [done|].
  by destruct (segments_in_order propsPlan stateMonth1250 _ segs propsPlan_bounds E
                 ltac:(discriminate)) as (H & _).
Defined.

(** X9. In week zoom on an axis that runs forwards, the segments start on the
    Monday on or before the axis start and follow each other every seven
    days: each one starts on a Monday. *)
Theorem week_segments_start_on_monday (p : Props) (s : IGanttViewState)
    (b : TimelineBounds) (segs : list Segment) :
  zoomLevel s = Week →
  getTimelineBounds p = Some b → getSegments p s = Some segs →
  tb_start b ≤ tb_end b →
  ∃ monday,
    tb_start b - 6 * msPerDay ≤ monday ≤ tb_start b
    ∧ ∀ (i : nat) g, segs !! i = Some g →
        seg_start g = monday + Z.of_nat i * (7 * msPerDay)
        ∧ getDay (seg_start g) = 1.
Proof.
  intros Hz Hb Hsegs Hle.
  destruct (getSegments_fields p s b segs Hb Hsegs) as (zs & Hzs & ->).
  rewrite Hz in Hzs. simpl in Hzs.
  apply weekSegments_spec in Hzs as [(_ & _ & Hhead) Hidx].
  replace (getDate (tb_start b) - (getDay (tb_start b) + 6) mod 7)
    with (getDate (tb_start b) + - ((getDay (tb_start b) + 6) mod 7)) in Hhead, Hidx by lia.
  rewrite setDate_shift in Hhead, Hidx.
  set (diff := (getDay (tb_start b) + 6) mod 7) in *.
  pose proof (Z.mod_pos_bound (getDay (tb_start b) + 6) 7 ltac:(lia)) as Hd.
  fold diff in Hd.
  exists (tb_start b + - diff * msPerDay).
  split; [unfold msPerDay; lia|].
  destruct (Hhead ltac:(unfold msPerDay; lia)) as (g0 & rest & -> & _).
  destruct (decide (length (g0 :: rest) = 0%nat)) as [Hnil|_]; [done|].
  intros i g Hg. specialize (Hidx i g Hg). split; [done|].
  rewrite Hidx.
  replace (tb_start b + - diff * msPerDay + Z.of_nat i * (7 * msPerDay))
    with (tb_start b + (Z.of_nat i * 7 - diff) * msPerDay) by lia.
  unfold getDay. rewrite Day_shift.
  unfold diff, getDay. Z.div_mod_to_equations. lia.
Qed.

Lemma week_segments_start_on_monday_witness :
  ∃ segs g,
    getSegments propsPlan stateWeek1250 = Some segs
    ∧ segs !! 3%nat = Some g ∧ getDay (seg_start g) = 1.
Proof.
  destruct (getSegments propsPlan stateWeek1250)
    as [segs|] eqn:E; [|by vm_compute in E].
  destruct (week_segments_start_on_monday propsPlan stateWeek1250 _ segs eq_refl
              propsPlan_bounds E)
    as (monday & _ & Hidx); [simpl; lia|].
  destruct (segs !! 3%nat) as [g|] eqn:Eg.
  - exists segs, g. split; [done|]. split; [done|]. by apply (Hidx 3%nat).
  - exfalso. vm_compute in E. injection E as <-. discriminate Eg.
Defined.

(** ** Percentages stay on the axis *)

Lemma pct_full den : den ≠ 0 → (pct den den == 100)%Q.
Proof.
  intros H. unfold pct. field. intros H0.
  apply (inject_Z_injective den 0) in H0. done.
Qed.







(** ** The widths of the header cells *)

Lemma sumZ_bumpLast ws delta : ws ≠ [] → sumZ (bumpLast ws delta) = sumZ ws + delta.
Proof.
  intros Hne. unfold bumpLast.
  assert (length ws - 1 < length ws)%nat as Hlt by (destruct ws; [done|simpl; lia]).
  destruct (lookup_lt_is_Some_2 ws _ Hlt) as [w Hw].
  rewrite Hw. simpl. rewrite (sumZ_insert ws _ w) by done. lia.
Qed.

Lemma scaleDown_spec ws target :
  ws ≠ [] →
  length (scaleDown ws target) = length ws ∧ sumZ (scaleDown ws target) = target.
Proof.
  intros Hne. unfold scaleDown. cbv zeta.
  set (ws' := map _ ws).
  assert (length ws' = length ws) as Hlen by apply length_map.
  assert (ws' ≠ []) as Hne'.
  { intros H. rewrite H in Hlen. destruct ws; done. }
  destruct (Z.eqb_spec (sumZ ws') target) as [Heq|Hneq]; simpl; [done|].
  destruct (Nat.eqb_spec (length ws') 0) as [H0|_]; simpl.
  { destruct ws'; done. }
  split; [|rewrite sumZ_bumpLast by done; lia].
  unfold bumpLast. by rewrite length_insert.
Qed.

(** X12. In year zoom there is one width for each segment, and the table is
    never wider than the fixed columns and three times the container. *)
Theorem year_table_width_bounded (p : Props) (s : IGanttViewState)
    (wrapper : option Z) :
  zoomLevel s = Year →
  ∃ segs ws,
    getSegments p s = Some segs ∧ perSegWidths p s wrapper = Some ws
    ∧ length ws = length segs
    ∧ fixedWidthOf p s + sumZ ws ≤ containerPxOf s wrapper * 3 + fixedWidthOf p s.
Proof.
  intros Hz.
  destruct (getSegments_nonempty p s) as (b & segs & Hb & Hsegs & Hne).
  destruct (yearWidths_spec (availablePxOf p s wrapper) (tb_start b) (tb_end b) segs Hne)
    as (ws & Hyw & Hlen & _).
  rewrite (perSegWidths_year p s wrapper b segs ws Hz Hb Hsegs Hyw).
  assert (ws ≠ []) as Hws by (intros ->; destruct segs; done).
  eexists segs, _. split; [done|]. split; [done|].
  destruct (Z.gtb_spec (fixedWidthOf p s + sumZ ws)
              (containerPxOf s wrapper * 3 + fixedWidthOf p s)) as [Hgt|Hle].
  - destruct (scaleDown_spec ws
                (containerPxOf s wrapper * 3 + fixedWidthOf p s - fixedWidthOf p s) Hws)
      as [Hl Hs].
    rewrite Hl, Hs. split; [done|lia].
  - split; [done|lia].
Qed.

Lemma year_table_width_bounded_witness :
  ∃ ws, perSegWidths propsTurnOfYear stateYear1250 None = Some ws
        ∧ 250 + sumZ ws ≤ 1250 * 3 + 250.
Proof.
  destruct (year_table_width_bounded propsTurnOfYear stateYear1250 None eq_refl)
    as (segs & ws & _ & Hws & _ & Hsum).
  exists ws. split; [exact Hws|exact Hsum].
Defined.

(** X13. In month and week zoom every segment has the same width, from 8 to 160
    pixels, and the columns asked for fit in the available width whenever
    8 pixels each do. *)
Theorem month_week_columns (p : Props) (s : IGanttViewState) (wrapper : option Z) :
  zoomLevel s ≠ Year →
  ∃ segs w,
    getSegments p s = Some segs
    ∧ perSegWidths p s wrapper = Some (replicate (length segs) w)
    ∧ 8 ≤ w ≤ 160
    ∧ (let n := Z.of_nat (length segs) in
       let visibleCount := Z.max 1 (Z.min n (desiredVisible p s n)) in
       8 * visibleCount ≤ availablePxOf p s wrapper →
       w * visibleCount ≤ availablePxOf p s wrapper).
Proof.
  intros Hz.
  destruct (getSegments_nonempty p s) as (b & segs & Hb & Hsegs & Hne).
  exists segs, (segWidthPxOf p s wrapper (Z.of_nat (length segs))).
  split; [done|]. split.
  - unfold perSegWidths. rewrite Hb, Hsegs. unfold mbind, option_bind.
    by destruct (zoomLevel s).
  - unfold segWidthPxOf. cbv zeta.
    set (v := Z.max 1 (Z.min _ _)).
    set (a := availablePxOf p s wrapper).
    assert (1 ≤ v) as Hv by (unfold v; lia).
    rewrite Z.gtb_ltb.
    destruct (Z.ltb_spec 160 (Z.max 8 (a / v))) as [Hbig|Hsmall].
    + split; [lia|]. intros Hfit.
      assert (160 < a / v) as Hq by lia.
      pose proof (Z.mul_div_le a v ltac:(lia)). nia.
    + split; [lia|]. intros Hfit.
      assert (8 ≤ a / v) as Hq by (apply Z.div_le_lower_bound; lia).
      rewrite Z.max_r by lia.
      pose proof (Z.mul_div_le a v ltac:(lia)). lia.
Qed.

Lemma month_week_columns_witness :
  ∃ segs w, getSegments propsPlan stateMonth1250 = Some segs
            ∧ perSegWidths propsPlan stateMonth1250 None
              = Some (replicate (length segs) w)
            ∧ 8 ≤ w ≤ 160.
Proof.
  destruct (month_week_columns propsPlan stateMonth1250 None ltac:(discriminate))
    as (segs & w & Hsegs & Hws & Hw & _).
  exists segs, w. split; [exact Hsegs|]. split; [exact Hws|exact Hw].
Defined.

(** ** Invariants of the component under events *)

Lemma clampNameWidth_range w : 150 ≤ clampNameWidth w ≤ 700.
Proof.
  unfold clampNameWidth.
  destruct (Z.ltb_spec w 150);
    match goal with |- context [?a >? 700] => destruct (Z.gtb_spec a 700) end; lia.
Qed.

Lemma startBarEndEdit_frame p s x rid l w ws we cell :
  let s' := startBarEndEdit p s x rid l w ws we cell in
  nameWidth s' = nameWidth s ∧ endDateOverrides s' = endDateOverrides s
  ∧ (adjustableEndDate p = false → s' = s).
Proof. unfold startBarEndEdit. by destruct (adjustableEndDate p). Qed.

Lemma pressHandle_frame p s wrapper r x cell s' :
  pressHandle p s wrapper r x cell = Some s' →
  nameWidth s' = nameWidth s ∧ endDateOverrides s' = endDateOverrides s
  ∧ adjustableEndDate p = true.
Proof.
  unfold pressHandle. intros H.
  apply bind_Some in H as (g & _ & H). apply bind_Some in H as (b & _ & H).
  destruct (negb (Qeq_bool g.1 (-1)) && negb (Qeq_bool g.2 (-1))); simpl in H; [|done].
  destruct (adjustableEndDate p) eqn:E; [|done].
  inversion H. unfold startBarEndEdit. rewrite E. done.
Qed.

Lemma onBarDragMove_frame s x :
  nameWidth (onBarDragMove s x) = nameWidth s
  ∧ endDateOverrides (onBarDragMove s x) = endDateOverrides s
  ∧ (editingEnd s = None → onBarDragMove s x = s).
Proof.
  unfold onBarDragMove. destruct (editingEnd s) as [edit|]; [|done].
  by destruct (Qeq_bool _ _).
Qed.

Lemma onGlobalMouseUp_frame p s :
  nameWidth (onGlobalMouseUp p s).1 = nameWidth s
  ∧ (∀ k, is_Some (endDateOverrides s !! k) →
          is_Some (endDateOverrides (onGlobalMouseUp p s).1 !! k))
  ∧ (editingEnd s = None → onGlobalMouseUp p s = (s, [])).
Proof.
  unfold onGlobalMouseUp. destruct (editingEnd s) as [edit|]; [|done].
  destruct (adjustableEndDate p); cbn [fst nameWidth endDateOverrides setEditing];
    [|done].
  split; [done|]. split; [|done]. intros k Hk.
  destruct (decide (rowId edit = k)) as [->|Hne].
  - rewrite lookup_insert_eq. eauto.
  - by rewrite lookup_insert_ne.
Qed.

Lemma run_cons p c e events :
  run p c (e :: events)
  = ((run p (dispatch p c e).1 events).1,
     (dispatch p c e).2 ++ (run p (dispatch p c e).1 events).2).
Proof.
  cbn [run]. destruct (dispatch p c e) as [c1 calls1]. cbn [fst snd].
  by destruct (run p c1 events) as [c2 calls2].
Qed.

(** What one event can do to the name width and to the overrides. *)
Lemma dispatch_frame p c e :
  let c' := (dispatch p c e).1 in
  (150 ≤ nameWidth (ctl_state c) ≤ 700 → 150 ≤ nameWidth (ctl_state c') ≤ 700)
  ∧ (∀ k, is_Some (endDateOverrides (ctl_state c) !! k) →
          is_Some (endDateOverrides (ctl_state c') !! k))
  ∧ (adjustableEndDate p = false → editingEnd (ctl_state c) = None →
     endDateOverrides (ctl_state c') = endDateOverrides (ctl_state c)
     ∧ editingEnd (ctl_state c') = None ∧ (dispatch p c e).2 = []).
Proof.
  destruct c as [s info]. cbv zeta.
  destruct e; unfold dispatch; cbn [ctl_state ctl_resize fst snd].
  - unfold toggleSort. by destruct (SortField_eqb _ _).
  - unfold setZoom. by destruct (negb _).
  - done.
  - unfold onNameResizeMove. destruct info as [i|]; [|done].
    destruct (negb _); [|done]. cbn [setNameWidth nameWidth endDateOverrides editingEnd].
    split; [intros _; apply clampNameWidth_range|done].
  - done.
  - unfold onNameResizeKey.
    destruct k; cbn [setNameWidth nameWidth endDateOverrides editingEnd]; [| |done];
      (split; [intros _; apply clampNameWidth_range|done]).
  - unfold updateContainerWidth. destruct el as [el|]; [|done].
    destruct (negb _ && _); [done|]. by destruct (_ =? 0).
  - unfold retryContainerWidth. by destruct (negb _ && _).
  - unfold onObservedResize. by destruct (negb _ && _).
  - destruct (pressHandle p s wrapper r clientX cell) as [s'|] eqn:E;
      cbn [default from_option Datatypes.id]; [|done].
    apply pressHandle_frame in E as (-> & -> & E).
    split; [done|]. split; [done|]. congruence.
  - destruct (onBarDragMove_frame s clientX) as (-> & -> & H).
    split; [done|]. split; [done|]. intros _ Hidle. by rewrite (H Hidle).
  - destruct (onGlobalMouseUp_frame p s) as (Hn & Hk & Hidle).
    destruct (onGlobalMouseUp p s) as [s' calls]. cbn [ctl_state fst snd] in *.
    rewrite Hn. split; [done|]. split; [done|].
    intros _ He. specialize (Hidle He). by inversion Hidle.
Qed.

(** X14. The name column stays from 150 to 700 pixels wide, whatever the
    events: a drag of the resize handle, the arrow keys on it and every
    other interaction. *)
Theorem name_width_stays_in_range (p : Props) (events : list Event) : ∀ c : Control,
  150 ≤ nameWidth (ctl_state c) ≤ 700 →
  150 ≤ nameWidth (ctl_state (run p c events).1) ≤ 700.
Proof.
  induction events as [|e events IH]; intros c Hc; [done|].
  rewrite run_cons. cbn [fst]. apply IH.
  by apply (dispatch_frame p c e).
Qed.

Lemma name_width_stays_in_range_witness :
  150 ≤ nameWidth (ctl_state (run propsPlan (mkControl initialState None)
                                [EvResizeStart 400; EvResizeMove 2000; EvResizeEnd;
                                 EvResizeKey ArrowRight]).1) ≤ 700.
Proof.
  apply (name_width_stays_in_range propsPlan). cbn [ctl_state initialState nameWidth]. lia.
Defined.

(** X15. While end-date adjustment is disabled no event stores an override,
    starts an edit or calls the change callback. *)
Theorem disabled_adjustment_changes_nothing (p : Props) (events : list Event) :
  ∀ c : Control,
  adjustableEndDate p = false → editingEnd (ctl_state c) = None →
  endDateOverrides (ctl_state (run p c events).1) = endDateOverrides (ctl_state c)
  ∧ editingEnd (ctl_state (run p c events).1) = None
  ∧ (run p c events).2 = [].
Proof.
  induction events as [|e events IH]; intros c Hadj Hidle; [done|].
  rewrite run_cons. cbn [fst snd].
  destruct (dispatch_frame p c e) as (_ & _ & H).
  destruct (H Hadj Hidle) as (Ho & He & ->).
  destruct (IH _ Hadj He) as (IH1 & IH2 & ->).
  by rewrite IH1, Ho.
Qed.

Lemma disabled_adjustment_changes_nothing_witness :
  (run propsInverted (mkControl initialState None)
     [EvBarPress None rowPlan 10 None; EvBarMove 90; EvMouseUp]).2 = [].
Proof.
  by destruct (disabled_adjustment_changes_nothing propsInverted
                 [EvBarPress None rowPlan 10 None; EvBarMove 90; EvMouseUp]
                 (mkControl initialState None) eq_refl eq_refl) as (_ & _ & H).
Defined.

(** X16. An override, once stored, is never removed: later events can only
    replace its date. *)
Theorem overrides_are_kept (p : Props) (events : list Event) : ∀ (c : Control) k,
  is_Some (endDateOverrides (ctl_state c) !! k) →
  is_Some (endDateOverrides (ctl_state (run p c events).1) !! k).
Proof.
  induction events as [|e events IH]; intros c k Hk; [done|].
  rewrite run_cons. cbn [fst]. apply IH.
  by apply (dispatch_frame p c e).
Qed.

Lemma overrides_are_kept_witness :
  is_Some (endDateOverrides
             (ctl_state (run propsPlan
                           (mkControl (mkState 250 100 100 None {["a" := 5]} Month 1250
                                         SortName Asc) None)
                           [EvToggleSort SortEndDate; EvMouseUp]).1) !! "a").
Proof.
  apply (overrides_are_kept propsPlan). cbn [ctl_state endDateOverrides].
  rewrite lookup_singleton_eq. eauto.
Defined.

(** ** Measuring and centring *)



Lemma setContainerWidth_same s : setContainerWidth s (containerWidth s) = s.
Proof. by destruct s. Qed.

(** X17. A measurement of the container is stored unless it is within two
    pixels of the stored width: after the update the stored width is
    within two pixels of the measure, and measuring again changes nothing.
    A measure of zero stores nothing and schedules a retry. *)
Theorem container_width_settles (s : IGanttViewState) (el : WrapperEl) :
  let w := measuredWidth el in
  let s' := (updateContainerWidth s (Some el)).1 in
  (w ≠ 0 → Z.abs (w - containerWidth s') ≤ 2
           ∧ updateContainerWidth s' (Some el) = (s', false))
  ∧ (w = 0 → updateContainerWidth s (Some el) = (s, true)).
Proof.
  cbv zeta. unfold updateContainerWidth.
  set (w := measuredWidth el).
  destruct (Z.eqb_spec w 0) as [H0|H0]; cbn [negb andb].
  - split; [done|]. by rewrite H0.
  - split; [|done]. intros _.
    destruct (Z.gtb_spec (Z.abs (w - containerWidth s)) 2) as [Hfar|Hnear];
      cbn [fst setContainerWidth containerWidth].
    + replace (w - w) with 0 by lia. split; [simpl; lia|].
      destruct (Z.gtb_spec (Z.abs 0) 2) as [H|_]; [simpl in H; lia|done].
    + split; [lia|]. destruct (Z.gtb_spec (Z.abs (w - containerWidth s)) 2); [lia|done].
Qed.

Lemma container_width_settles_witness :
  containerWidth (updateContainerWidth initialState (Some (mkWrapper 900 (Some 1200)))).1
  = 1200.
Proof.
  destruct (container_width_settles initialState (mkWrapper 900 (Some 1200)))
    as [H _].
  destruct (H ltac:(done)) as [Habs _]. cbn in Habs |- *. reflexivity.
Defined.

Lemma sumZ_replicate (n : nat) w : sumZ (replicate n w) = Z.of_nat n * w.
Proof.
  induction n as [|n IH]; [done|].
  cbn [replicate]. rewrite sumZ_cons, IH. lia.
Qed.

(** X18. With a wrapper present [centerOnCurrentDate] always assigns a scroll
    position; it is never negative and, in year zoom and whenever the
    segment width of month and week zoom is not cut at 160 pixels, it is
    within the scrollable range of the table that [GanttTable] draws. *)
Theorem center_scroll_within_table (p : Props) (s : IGanttViewState) (clientW : Z) :
  ∃ x segs ws,
    centerOnCurrentDate p s (Some clientW) = Some x
    ∧ getSegments p s = Some segs
    ∧ perSegWidths p s (Some clientW) = Some ws
    ∧ 0 ≤ x
    ∧ (let n := Z.of_nat (length segs) in
       let visibleCount := Z.max 1 (Z.min n (desiredVisible p s n)) in
       let viewport := if clientW =? 0 then containerPxOf s (Some clientW) else clientW in
       match zoomLevel s with
       | Year => 0 ≤ containerPxOf s (Some clientW) ∧ 0 ≤ fixedWidthOf p s
       | _ => availablePxOf p s (Some clientW) / visibleCount ≤ 160
       end →
       x ≤ Z.max 0 (fixedWidthOf p s + sumZ ws - viewport)).
Proof.
  destruct (getSegments_nonempty p s) as (b & segs & Hb & Hsegs & Hne).
  destruct (perSegWidths_returns p s (Some clientW)) as [ws Hws].
  unfold centerOnCurrentDate. rewrite Hsegs. cbn [mbind option_bind].
  destruct (decide (length segs = 0%nat)) as [H0|_]; [by destruct segs|].
  rewrite (calculateStartX_eq p b _ Hb), Hb. cbn [mbind option_bind].
  eexists _, segs, ws. split; [done|]. split; [done|]. split; [done|].
  split; [lia|]. cbv zeta.
  set (n := Z.of_nat (length segs)).
  set (v := Z.max 1 (Z.min n (desiredVisible p s n))).
  set (viewport := if clientW =? 0 then _ else _).
  set (target := Qfloor _).
  fold (availablePxOf p s (Some clientW)).
  set (a := availablePxOf p s (Some clientW)).
  intros Hcond.
  assert (match zoomLevel s with
          | Year => a
          | _ => Z.max 8 (a / v) * n
          end ≤ sumZ ws) as Hw.
  { destruct (zoomLevel s) eqn:Hz.
    - assert (perSegWidths p s (Some clientW)
              = Some (replicate (length segs) (segWidthPxOf p s (Some clientW) n))) as Hm.
      { unfold perSegWidths. rewrite Hb, Hsegs. cbn [mbind option_bind]. by rewrite Hz. }
      rewrite Hm in Hws. inversion Hws. rewrite sumZ_replicate.
      unfold segWidthPxOf. cbv zeta. fold n v a.
      destruct (Z.gtb_spec (Z.max 8 (a / v)) 160); [lia|]. fold n. lia.
    - assert (perSegWidths p s (Some clientW)
              = Some (replicate (length segs) (segWidthPxOf p s (Some clientW) n))) as Hm.
      { unfold perSegWidths. rewrite Hb, Hsegs. cbn [mbind option_bind]. by rewrite Hz. }
      rewrite Hm in Hws. inversion Hws. rewrite sumZ_replicate.
      unfold segWidthPxOf. cbv zeta. fold n v a.
      destruct (Z.gtb_spec (Z.max 8 (a / v)) 160); [lia|]. fold n. lia.
    - destruct (yearWidths_spec a (tb_start b) (tb_end b) segs Hne)
        as (ws0 & Hyw & Hlen & _ & Hsum & _).
      rewrite (perSegWidths_year p s (Some clientW) b segs ws0 Hz Hb Hsegs Hyw) in Hws.
      inversion Hws as [Heq]. clear Hws.
      assert (ws0 ≠ []) as Hws0 by (intros ->; destruct segs; done).
      destruct (Z.gtb_spec (fixedWidthOf p s + sumZ ws0)
                  (containerPxOf s (Some clientW) * 3 + fixedWidthOf p s)) as [Hgt|Hle].
      + destruct (scaleDown_spec ws0
                    (containerPxOf s (Some clientW) * 3 + fixedWidthOf p s
                     - fixedWidthOf p s) Hws0) as [_ ->].
        unfold a, availablePxOf. lia.
      + done. }
  destruct (zoomLevel s); lia.
Qed.

Lemma center_scroll_within_table_witness :
  ∃ x, centerOnCurrentDate propsPlan stateMonth1250 (Some 1250) = Some x ∧ 0 ≤ x.
Proof.
  destruct (center_scroll_within_table propsPlan stateMonth1250 1250)
    as (x & segs & ws & Hc & _ & _ & Hx & _).
  exists x. split; [exact Hc|exact Hx].
Defined.

(** ** Totals *)

Lemma mathRound_range x lo hi :
  (inject_Z lo <= x)%Q → (x <= inject_Z hi)%Q → lo ≤ mathRound x ≤ hi.
Proof.
  intros Hlo Hhi. unfold mathRound. split.
  - rewrite <- (Qfloor_Z lo). apply Qfloor_resp_le. lra.
  - apply Z.lt_succ_r. rewrite Zlt_Qlt.
    eapply Qle_lt_trans; [apply Qfloor_le|].
    unfold Z.succ. rewrite inject_Z_plus. change (inject_Z 1) with 1%Q. lra.
Qed.

Lemma segmentTotal_fold s segStart segEnd rows : ∀ acc : Z * Z,
  let t := foldl (λ acc r, match countedIn s segStart segEnd r with
                           | Some true => (acc.1, acc.2 + 1)
                           | Some false => (acc.1 + 1, acc.2)
                           | None => acc
                           end) acc rows in
  acc.1 ≤ t.1 ∧ acc.2 ≤ t.2
  ∧ t.1 + t.2 ≤ acc.1 + acc.2 + Z.of_nat (length rows)
  ∧ (∀ r, In r rows → is_Some (countedIn s segStart segEnd r) →
          acc.1 + acc.2 + 1 ≤ t.1 + t.2).
Proof.
  induction rows as [|r rows IH]; intros acc; cbn [foldl length].
  - cbv zeta. repeat split; try lia. by intros r [].
  - cbv zeta.
    set (acc' := match countedIn s segStart segEnd r with
                 | Some true => (acc.1, acc.2 + 1)
                 | Some false => (acc.1 + 1, acc.2)
                 | None => acc
                 end).
    destruct (IH acc') as (H1 & H2 & H3 & H4).
    assert (acc.1 ≤ acc'.1 ∧ acc.2 ≤ acc'.2 ∧ acc'.1 + acc'.2 ≤ acc.1 + acc.2 + 1
            ∧ (is_Some (countedIn s segStart segEnd r) → acc'.1 + acc'.2 = acc.1 + acc.2 + 1))
      as (A1 & A2 & A3 & A4).
    { unfold acc'. destruct (countedIn s segStart segEnd r) as [[|]|]; simpl;
        repeat split; try lia; by intros []. }
    split; [lia|]. split; [lia|]. split; [lia|].
    intros r' [<-|Hr'] Hc.
    + specialize (A4 Hc). lia.
    + specialize (H4 r' Hr' Hc). lia.
Qed.

Lemma sharePct_spec t :
  0 ≤ t.1 → 0 ≤ t.2 →
  0 ≤ (sharePct t).1 ≤ 100 ∧ 0 ≤ (sharePct t).2 ≤ 100
  ∧ (sharePct t).1 + (sharePct t).2 = (if t.1 + t.2 =? 0 then 0 else 100).
Proof.
  intros H1 H2. unfold sharePct. cbv zeta.
  destruct (Z.eqb_spec (t.1 + t.2) 0) as [H0|H0]; cbn [fst snd]; [lia|].
  assert (0 < t.1 + t.2) as Hpos by lia.
  change (inject_Z t.1 / inject_Z (t.1 + t.2) * 100)%Q with (pct t.1 (t.1 + t.2)).
  destruct (mathRound_range (pct t.1 (t.1 + t.2)) 0 100) as [Hlo Hhi].
  - by apply pct_nonneg.
  - rewrite <- (pct_full (t.1 + t.2)) by lia. apply pct_mono; lia.
  - lia.
Qed.

Lemma totalsOver_spec s rows end_ segs :
  length (totalsOver s rows end_ segs) = length segs
  ∧ Forall (λ t, 0 ≤ t.1 ∧ 0 ≤ t.2 ∧ t.1 + t.2 ≤ Z.of_nat (length rows))
      (totalsOver s rows end_ segs).
Proof.
  induction segs as [|seg rest [IH1 IH2]]; cbn [totalsOver length]; [done|].
  split; [by rewrite IH1|]. constructor; [|done].
  unfold segmentTotal.
  match goal with
  | |- context [foldl ?f (0, 0) rows] =>
      pose proof (segmentTotal_fold s (seg_start seg)
                    (match rest with nxt :: _ => seg_start nxt | [] => end_ end)
                    rows (0, 0)) as H
  end.
  cbv zeta in H. cbn [fst snd] in H. lia.
Qed.

(** X19. The footer has one totals cell for each segment; its two counters are
    not negative and count no more rows than the data has; the two shares
    drawn in the cell are percentages that add up to 100, or are both 0
    when the segment has no row. *)
Theorem footer_cells_share_100 (p : Props) (s : IGanttViewState) :
  ∃ segs ts,
    getSegments p s = Some segs ∧ totals p s = Some ts
    ∧ length ts = length segs
    ∧ ∀ t, In t ts →
        0 ≤ t.1 ∧ 0 ≤ t.2 ∧ t.1 + t.2 ≤ Z.of_nat (length (data p))
        ∧ 0 ≤ (sharePct t).1 ≤ 100 ∧ 0 ≤ (sharePct t).2 ≤ 100
        ∧ (sharePct t).1 + (sharePct t).2 = (if t.1 + t.2 =? 0 then 0 else 100).
Proof.
  destruct (getSegments_nonempty p s) as (b & segs & Hb & Hsegs & _).
  exists segs, (totalsOver s (data p) (tb_end b) segs).
  split; [done|]. split.
  { unfold totals. rewrite Hb, Hsegs. done. }
  destruct (totalsOver_spec s (data p) (tb_end b) segs) as [Hlen Hall].
  split; [done|]. intros t Ht.
  rewrite Forall_forall in Hall. apply list_elem_of_In, Hall in Ht as (H1 & H2 & H3).
  split; [done|]. split; [done|]. split; [done|]. by apply sharePct_spec.
Qed.







(** ** The dataset reader *)

(** The normalised row type is one of four words, whatever the record
    holds. *)
Lemma normalizeRowType_range raw nameVal :
  let t := Reader.normalizeRowType raw nameVal in
  t = "project" ∨ t = "tender" ∨ t = "milestone" ∨ t = "unknown".
Proof.
  cbv zeta. unfold Reader.normalizeRowType. cbv zeta.
  set (norm := Colors.removeChars _ _).
  destruct (String.eqb_spec norm "project") as [->|_]; cbn [negb andb]; [by left|].
  destruct (String.eqb_spec norm "tender") as [->|_]; cbn [negb andb]; [right; by left|].
  destruct (String.eqb_spec norm "milestone") as [->|_]; cbn [negb andb];
    [right; right; by left|].
  destruct (Reader.includes _ _); [right; by left|by repeat right].
Qed.

Lemma overall_fold rows : ∀ acc acc' : Z * Z,
  acc.2 = acc'.2 → acc.1 ≤ acc'.1 →
  let step1 := λ (acc : Z * Z) r,
                 let t := lowerType r in
                 if String.eqb t "milestone" || String.eqb t "unknown" then acc
                 else if String.eqb t "tender" then (acc.1, acc.2 + 1)
                 else if String.eqb t "project" then (acc.1 + 1, acc.2)
                 else acc in
  let step2 := λ (acc : Z * Z) r,
                 let t := lowerType r in
                 if String.eqb t "milestone" || String.eqb t "unknown" then acc
                 else if String.eqb t "tender" then (acc.1, acc.2 + 1)
                 else (acc.1 + 1, acc.2) in
  (foldl step1 acc rows).2 = (foldl step2 acc' rows).2
  ∧ (foldl step1 acc rows).1 ≤ (foldl step2 acc' rows).1
  ∧ ((∀ r, In r rows →
        lowerType r = "project" ∨ lowerType r = "tender"
        ∨ lowerType r = "milestone" ∨ lowerType r = "unknown") →
     acc.1 = acc'.1 →
     (foldl step1 acc rows).1 = (foldl step2 acc' rows).1).
Proof.
  induction rows as [|r rows IH]; intros acc acc' H2 H1; cbv zeta; cbn [foldl].
  - split; [done|]. split; [done|]. by intros _.
  - cbv zeta in IH.
    match goal with
    | |- (foldl ?f1 ?a1 rows).2 = (foldl ?f2 ?a2 rows).2 ∧ _ =>
        destruct (IH a1 a2) as (I2 & I1 & Ieq)
    end.
    + destruct (_ || _); [done|]. by destruct (String.eqb _ "tender");
        [cbn; lia|destruct (String.eqb _ "project")].
    + destruct (_ || _); [done|]. destruct (String.eqb _ "tender"); [done|].
      destruct (String.eqb _ "project"); cbn; lia.
    + split; [done|]. split; [done|]. intros Hall Hacc. apply Ieq.
      * intros r' Hr'. apply Hall. by right.
      * destruct (Hall r ltac:(by left)) as [-> |[-> |[-> | ->]]]; cbn; lia.
Qed.

(** X21. The banner of [render] and the footer of [GanttTable] count tenders
    alike, and the banner counts at least as many projects: it puts every
    other type in the project bucket.  On rows whose type was normalised by
    the reader the two pairs of counters are the same. *)
Theorem banner_matches_footer (rows : list GanttRow) :
  (overall rows).2 = (overallTotals rows).2
  ∧ (overall rows).1 ≤ (overallTotals rows).1
  ∧ ((∀ r, In r rows → ∃ raw nameVal,
        rowType r = Some (Reader.normalizeRowType raw nameVal)) →
     overall rows = overallTotals rows).
Proof.
  pose proof (overall_fold rows (0, 0) (0, 0) eq_refl ltac:(done)) as H.
  cbv zeta in H. unfold overall, overallTotals.
  destruct H as (H2 & H1 & Heq).
  split; [exact H2|]. split; [exact H1|]. intros Hnorm.
  assert (∀ x y : Z * Z, x.1 = y.1 → x.2 = y.2 → x = y) as Hpair
    by (intros [] []; cbn; congruence).
  apply Hpair; [|exact H2].
  apply Heq; [|done]. intros r Hr.
  destruct (Hnorm r Hr) as (raw & nameVal & Ht).
  unfold lowerType. rewrite Ht.
  pose proof (normalizeRowType_range raw nameVal) as Hrange. cbv zeta in Hrange.
  cbn [Js.orEmpty default from_option Datatypes.id].
  destruct Hrange as [-> |[-> |[-> | ->]]]; cbn; tauto.
Qed.

Lemma banner_matches_footer_witness :
  overall demoNormalised = overallTotals demoNormalised.
Proof.
  destruct (banner_matches_footer demoNormalised) as (_ & _ & H). apply H.
  intros r Hr. cbn [demoNormalised In] in Hr.
  destruct Hr as [<-|[<-|[<-|[]]]].
  - by exists (Some " Project "), (Some "Depot").
  - by exists (Some "T-e-n-d-e-r"), (Some "Depot tender").
  - by exists (Some "task"), (Some "Note").
Defined.

Lemma pagingStep_spec st view :
  let st' := (Reader.pagingStep st view).1 in
  let calls := (Reader.pagingStep st view).2 in
  (Reader.pagingSafetyCounter st'
   = Reader.pagingSafetyCounter st + length (List.filter isLoadNextPage calls))%nat
  ∧ (Reader.pagingSafetyCounter st ≤ 40 → Reader.pagingSafetyCounter st' ≤ 40)%nat
  ∧ (Reader.pagingInitialized st = true →
     Reader.pagingInitialized st' = true ∧ List.filter isSetPageSize calls = [])
  ∧ (length (List.filter isSetPageSize calls) ≤ 1)%nat
  ∧ (List.filter isSetPageSize calls ≠ [] → Reader.pagingInitialized st' = true)
  ∧ (∀ n, In (Reader.SetPageSize n) calls → n = 500).
Proof.
  cbv zeta. unfold Reader.pagingStep.
  destruct view as [v|]; cbn [fst snd]; [|repeat split; try done; simpl; lia].
  destruct st as [init cnt]. cbn [Reader.pagingInitialized Reader.pagingSafetyCounter].
  destruct init, (Reader.pv_canSetPageSize v); simpl;
    destruct (Reader.pv_hasNextPage v) as [[[|]|]|]; simpl;
    try destruct (Nat.ltb_spec cnt 40); simpl;
    (split; [lia|]); (split; [lia|]); (split; [done|]); (split; [lia|]);
    (split; [done|]);
    intros n Hn; repeat (destruct Hn as [Hn|Hn]; [by inversion Hn|]); done.
Qed.

Lemma pagingRun_cons st v rest :
  Reader.pagingRun st (v :: rest)
  = ((Reader.pagingRun (Reader.pagingStep st v).1 rest).1,
     (Reader.pagingStep st v).2 ++ (Reader.pagingRun (Reader.pagingStep st v).1 rest).2).
Proof.
  cbn [Reader.pagingRun]. destruct (Reader.pagingStep st v) as [st1 calls1]. cbn [fst snd].
  by destruct (Reader.pagingRun st1 rest).
Qed.

Lemma pagingRun_spec views : ∀ st,
  let st' := (Reader.pagingRun st views).1 in
  let calls := (Reader.pagingRun st views).2 in
  (Reader.pagingSafetyCounter st'
   = Reader.pagingSafetyCounter st + length (List.filter isLoadNextPage calls))%nat
  ∧ (Reader.pagingSafetyCounter st ≤ 40 → Reader.pagingSafetyCounter st' ≤ 40)%nat
  ∧ (Reader.pagingInitialized st = true → List.filter isSetPageSize calls = [])
  ∧ (length (List.filter isSetPageSize calls) ≤ 1)%nat
  ∧ (∀ n, In (Reader.SetPageSize n) calls → n = 500).
Proof.
  induction views as [|v rest IH]; intros st; cbv zeta.
  - cbn. repeat split; try done; lia.
  - rewrite pagingRun_cons. cbn [fst snd].
    destruct (pagingStep_spec st v) as (S1 & S2 & S3 & S4 & S5 & S6).
    destruct (IH (Reader.pagingStep st v).1) as (I1 & I2 & I3 & I4 & I5).
    cbv zeta in *. rewrite !List.filter_app, !length_app.
    split; [lia|]. split; [lia|]. split; [|split; [|]].
    + intros Hinit. destruct (S3 Hinit) as [Hi ->]. by rewrite (I3 Hi).
    + destruct (List.filter isSetPageSize (Reader.pagingStep st v).2) as [|c l] eqn:E.
      * simpl. lia.
      * rewrite (I3 (S5 ltac:(done))). simpl in *. lia.
    + intros n Hn. apply in_app_iff in Hn as [Hn|Hn]; [by apply S6|by apply I5].
Qed.

(** X22. Over any number of calls of [updateView], whatever the dataset
    answers, the control asks for at most 40 further pages and sets the
    page size at most once, to 500. *)
Theorem paging_is_bounded (views : list (option Reader.PagingView)) :
  let calls := (Reader.pagingRun (Reader.mkPaging false 0) views).2 in
  (length (List.filter isLoadNextPage calls) ≤ 40)%nat
  ∧ (length (List.filter isSetPageSize calls) ≤ 1)%nat
  ∧ (∀ n, In (Reader.SetPageSize n) calls → n = 500).
Proof.
  destruct (pagingRun_spec views (Reader.mkPaging false 0)) as (H1 & H2 & _ & H4 & H5).
  cbv zeta in *. cbn [Reader.pagingSafetyCounter] in H1, H2.
  split; [lia|]. split; [done|done].
Qed.

(** ** More on the colours *)

Lemma resolveColors_shape jsonParseArray cv ds n :
  ∃ projectColor tenderColor colors,
    Colors.resolveColors jsonParseArray cv ds n
    = projectColor :: tenderColor ::
        List.filter (λ c, negb (String.eqb c projectColor)
                          && negb (String.eqb c tenderColor)) colors
    ∧ Colors.nonEmpty projectColor = true ∧ Colors.nonEmpty tenderColor = true
    ∧ (Colors.parseColors jsonParseArray cv ≠ [] →
       colors = Colors.parseColors jsonParseArray cv).
Proof.
  unfold Colors.resolveColors. cbv zeta.
  eexists _, _, _. split; [reflexivity|].
  split; [by repeat apply orElse_nonEmpty|].
  split; [by repeat apply orElse_nonEmpty|].
  intros Hne.
  destruct (Colors.parseColors jsonParseArray cv) as [|c l] eqn:E; [done|].
  done.
Qed.

(** X23. The final colour list loses no colour of the property: every parsed
    colour is in it, and after the project and tender colours no entry
    repeats either of them. *)
Theorem colours_kept_once (jsonParseArray : string → option (list string))
    (cv ds : option string) (n : nat) :
  ∃ projectColor tenderColor others,
    Colors.resolveColors jsonParseArray cv ds n = projectColor :: tenderColor :: others
    ∧ (∀ c, In c others → c ≠ projectColor ∧ c ≠ tenderColor)
    ∧ (∀ c, In c (Colors.parseColors jsonParseArray cv) →
            In c (projectColor :: tenderColor :: others)).
Proof.
  destruct (resolveColors_shape jsonParseArray cv ds n)
    as (pc & tc & colors & Heq & _ & _ & Hparse).
  eexists pc, tc, _. split; [exact Heq|]. split.
  - intros c Hc. apply filter_In in Hc as [_ Hc].
    apply andb_true_iff in Hc as [H1 H2].
    apply negb_true_iff in H1, H2.
    split; intros ->; by rewrite String.eqb_refl in *.
  - intros c Hc.
    rewrite <- Hparse in Hc by (intros H; by rewrite H in Hc).
    destruct (String.eqb_spec c pc) as [->|H1]; [by left|].
    destruct (String.eqb_spec c tc) as [->|H2]; [right; by left|].
    right. right. apply filter_In. split; [done|].
    apply andb_true_iff. split; apply negb_true_iff; by apply String.eqb_neq.
Qed.

(** X24. With the colours that [updateView] passes on, every row type gets a
    colour that is not empty: the tender colour for tenders, the project
    colour for everything else. *)
Theorem every_bar_has_a_colour (jsonParseArray : string → option (list string))
    (cv ds : option string) (n : nat) (rowType : option string) :
  ∃ c, colorFor (Some (Colors.resolveColors jsonParseArray cv ds n)) rowType = Some c
       ∧ c ≠ ""
       ∧ c = (if String.eqb (Js.toLowerCase (Js.orEmpty rowType)) "tender"
              then nth 1 (Colors.resolveColors jsonParseArray cv ds n) ""
              else nth 0 (Colors.resolveColors jsonParseArray cv ds n) "").
Proof.
  destruct (resolveColors_shape jsonParseArray cv ds n)
    as (pc & tc & colors & -> & Hp & Ht & _).
  unfold colorFor. cbv zeta.
  destruct (String.eqb _ "tender"); cbn [mbind option_bind].
  - exists tc. split; [done|]. split; [|done]. intros ->. done.
  - exists pc. split; [done|]. split; [|done]. intros ->. done.
Qed.

(** ** More on the end-date drag *)









(** ** Labels of the segments *)

Lemma getFullYear_mono t1 t2 : t1 ≤ t2 → getFullYear t1 ≤ getFullYear t2.
Proof.
  intros Hle. unfold getFullYear.
  assert (Day t1 ≤ Day t2) as Hd by (unfold Day, msPerDay; apply Z.div_le_mono; lia).
  pose proof (YearFromDay_spec (Day t1)) as [H1 _].
  pose proof (YearFromDay_spec (Day t2)) as [_ H2].
  destruct (Z.le_gt_cases (YearFromDay (Day t1)) (YearFromDay (Day t2))) as [|Hgt]; [done|].
  pose proof (DayFromYear_mono (YearFromDay (Day t2) + 1) (YearFromDay (Day t1))). lia.
Qed.

(** The week number of a date, as [getSegments] computes it, is from 1 to
    54. *)
Lemma weekNum_range t : ¬ (0 ≤ getFullYear t ≤ 99) → 1 ≤ weekNum t ≤ 54.
Proof.
  intros Hy. unfold weekNum. cbv zeta.
  rewrite (newDate_year_start _ Hy).
  pose proof (YearFromDay_spec (Day t)) as [Hlo Hhi]. fold (getFullYear t) in Hlo, Hhi.
  rewrite DayFromYear_succ in Hhi.
  pose proof (msPerDay_split t) as Ht.
  pose proof (Z.mod_pos_bound t msPerDay ltac:(by vm_compute)) as Hm.
  fold (TimeWithinDay t) in Hm.
  set (oneJan := DayFromYear (getFullYear t) * msPerDay) in *.
  assert (0 ≤ t - oneJan < 366 * msPerDay) as Hx.
  { unfold oneJan, msPerDay in *. destruct (InLeapYear (getFullYear t)); lia. }
  pose proof (Z.mod_pos_bound (Day oneJan + 4) 7 ltac:(lia)) as Hg.
  fold (getDay oneJan) in Hg.
  set (v := ((inject_Z (t - oneJan) / inject_Z 86400000
              + inject_Z (getDay oneJan) + 1) / 7)%Q).
  assert (0 < v ∧ v < 54)%Q as [Hv0 Hv54].
  { assert (0 <= inject_Z (t - oneJan) / inject_Z 86400000)%Q as H0.
    { apply Qle_shift_div_l; [reflexivity|]. rewrite Qmult_0_l.
      change (inject_Z 0 <= inject_Z (t - oneJan))%Q. rewrite <- Zle_Qle. lia. }
    assert (inject_Z (t - oneJan) / inject_Z 86400000 < 366)%Q as H1.
    { apply Qlt_shift_div_r; [reflexivity|].
      change (inject_Z (t - oneJan) < inject_Z (366 * 86400000))%Q.
      rewrite <- Zlt_Qlt. unfold msPerDay in Hx. lia. }
    assert (0 <= inject_Z (getDay oneJan) <= 6)%Q as [G0 G6].
    { split.
      - change (inject_Z 0 <= inject_Z (getDay oneJan))%Q. rewrite <- Zle_Qle. lia.
      - change (inject_Z (getDay oneJan) <= inject_Z 6)%Q. rewrite <- Zle_Qle. lia. }
    unfold v. split.
    - apply Qlt_shift_div_l; [reflexivity|]. lra.
    - apply Qlt_shift_div_r; [reflexivity|]. lra. }
  pose proof (Qle_ceiling v) as Hc1.
  pose proof (Qceiling_lt v) as Hc2.
  split.
  - assert (0 < Qceiling v); [|lia].
    rewrite Zlt_Qlt. eapply Qlt_le_trans; [exact Hv0|exact Hc1].
  - assert (Qceiling v - 1 < 54); [|lia].
    rewrite Zlt_Qlt. eapply Qlt_trans; [exact Hc2|exact Hv54].
Qed.

Lemma weekSegments_labels fuel : ∀ cursor limit segs,
  weekSegments fuel cursor limit = Some segs →
  ∀ g, In g segs →
    cursor ≤ seg_start g
    ∧ seg_label g = "W" +:+ numToString (weekNum (seg_start g)).
Proof.
  induction fuel as [|fuel IH]; intros cursor limit segs; simpl;
    destruct (Z.leb_spec cursor limit) as [Hle|Hgt]; try done.
  - intros H. inversion H. by intros g [].
  - intros H. apply fmap_Some in H as (rest & Hrest & ->).
    rewrite setDate_shift in Hrest.
    intros g [<-|Hg]; [simpl; split; [lia|done]|].
    destruct (IH _ _ _ Hrest g Hg) as [Hc Hl]. split; [|done].
    unfold msPerDay in Hc. lia.
  - intros H. inversion H. by intros g [].
Qed.

(** X27. In week zoom, from the year 101 on, every segment of an axis that runs
    forwards is labelled W and a week number from 1 to 54. *)
Theorem week_labels_in_range (p : Props) (s : IGanttViewState)
    (b : TimelineBounds) (segs : list Segment) :
  zoomLevel s = Week →
  getTimelineBounds p = Some b → getSegments p s = Some segs →
  tb_start b ≤ tb_end b → 101 ≤ getFullYear (tb_start b) →
  ∀ g, In g segs →
    ∃ n, seg_label g = "W" +:+ numToString n ∧ 1 ≤ n ≤ 54.
Proof.
  intros Hz Hb Hsegs Hle Hyear g Hg.
  destruct (getSegments_fields p s b segs Hb Hsegs) as (zs & Hzs & ->).
  rewrite Hz in Hzs. simpl in Hzs.
  pose proof (weekSegments_spec _ _ _ _ Hzs) as [(_ & _ & Hhead) _].
  pose proof (weekSegments_labels _ _ _ _ Hzs) as Hlab.
  replace (getDate (tb_start b) - (getDay (tb_start b) + 6) mod 7)
    with (getDate (tb_start b) + - ((getDay (tb_start b) + 6) mod 7)) in Hhead, Hlab by lia.
  rewrite setDate_shift in Hhead, Hlab.
  pose proof (Z.mod_pos_bound (getDay (tb_start b) + 6) 7 ltac:(lia)) as Hd.
  destruct (Hhead ltac:(unfold msPerDay; lia)) as (g0 & rest & -> & _).
  destruct (decide (length (g0 :: rest) = 0%nat)) as [Hnil|_]; [done|].
  destruct (Hlab g Hg) as [Hc Hl].
  exists (weekNum (seg_start g)). split; [done|].
  apply weekNum_range.
  assert (100 ≤ getFullYear (seg_start g)); [|lia].
  assert (getFullYear (DayFromYear 100 * msPerDay) = 100) as H100.
  { unfold getFullYear, Day. rewrite Z.div_mul by (unfold msPerDay; lia).
    apply YearFromDay_unique. by vm_compute. }
  rewrite <- H100. apply getFullYear_mono.
  pose proof (YearFromDay_spec (Day (tb_start b))) as [Hs1 _].
  fold (getFullYear (tb_start b)) in Hs1.
  pose proof (DayFromYear_mono 101 (getFullYear (tb_start b)) Hyear) as Hm.
  pose proof (msPerDay_split (tb_start b)) as Hs2.
  pose proof (Z.mod_pos_bound (tb_start b) msPerDay ltac:(by vm_compute)) as Hs3.
  fold (TimeWithinDay (tb_start b)) in Hs3.
  assert (DayFromYear 100 + 365 ≤ DayFromYear 101) as H101 by (by vm_compute).
  unfold msPerDay in *. lia.
Qed.

Lemma week_labels_in_range_witness :
  ∃ n, "W10" = "W" +:+ numToString n ∧ 1 ≤ n ≤ 54.
Proof.
  destruct (getSegments propsPlan stateWeek1250) as [segs|] eqn:E;
    [|by vm_compute in E].
  apply (week_labels_in_range propsPlan stateWeek1250 _ segs eq_refl propsPlan_bounds E
           ltac:(simpl; lia) ltac:(by vm_compute)
           (mkSegment 1709510400000 "W10")).
  vm_compute in E. injection E as <-. do 9 right. by left.
Defined.




(** ** The pixel map of year zoom *)

(** The share of the width of a segment that lies before a date. *)
Lemma segment_px_bounds w st en d1 d2 :
  0 ≤ w → d1 ≤ d2 →
  let segDur := orOne (en - st) in
  let px := λ d, (inject_Z (w * Z.min segDur (Z.max 0 (d - st))) / inject_Z segDur)%Q in
  (0 <= px d1)%Q ∧ (px d1 <= px d2)%Q ∧ (px d2 <= inject_Z w)%Q.
Proof.
  intros Hw Hd. cbv zeta.
  set (segDur := orOne (en - st)).
  assert (segDur ≠ 0) as Hne by (unfold segDur, orOne; destruct (Z.eqb_spec (en - st) 0); lia).
  destruct (Z.lt_trichotomy segDur 0) as [Hneg|[H0|Hpos]]; [|done|].
  - rewrite !Z.min_l by lia.
    assert (inject_Z (w * segDur) / inject_Z segDur == inject_Z w)%Q as ->.
    { rewrite inject_Z_mult. field. intros H.
      apply (inject_Z_injective segDur 0) in H. done. }
    split; [|split]; try apply Qle_refl.
    change (inject_Z 0 <= inject_Z w)%Q. rewrite <- Zle_Qle. done.
  - assert (0 < inject_Z segDur)%Q as Hq
      by (change (inject_Z 0 < inject_Z segDur)%Q; rewrite <- Zlt_Qlt; lia).
    split; [|split].
    + apply Qle_shift_div_l; [done|]. rewrite Qmult_0_l.
      change (inject_Z 0 <= inject_Z (w * Z.min segDur (Z.max 0 (d1 - st))))%Q.
      rewrite <- Zle_Qle. nia.
    + apply Qle_shift_div_l; [done|].
      assert (inject_Z (w * Z.min segDur (Z.max 0 (d1 - st))) / inject_Z segDur
              * inject_Z segDur
              == inject_Z (w * Z.min segDur (Z.max 0 (d1 - st))))%Q as ->
        by (field; lra).
      rewrite <- Zle_Qle. nia.
    + apply Qle_shift_div_r; [done|]. rewrite <- inject_Z_mult, <- Zle_Qle. nia.
Qed.

Lemma yearSegMetaFrom_nil cum end_ segs ws :
  length ws = length segs →
  (yearSegMetaFrom cum end_ segs ws = [] ↔ segs = []).
Proof. destruct segs, ws; simpl; intros H; split; (done || lia). Qed.

Lemma yearPixelTotalOf_sum end_ segs : ∀ ws cum,
  length ws = length segs → segs ≠ [] →
  yearPixelTotalOf (yearSegMetaFrom cum end_ segs ws) = cum + sumZ ws.
Proof.
  induction segs as [|seg rest IH]; intros [|w ws] cum Hlen Hne; try done.
  simpl in Hlen. injection Hlen as Hlen.
  destruct rest as [|seg' rest'].
  - destruct ws; [|done]. unfold yearPixelTotalOf. simpl. unfold sumZ. simpl. lia.
  - specialize (IH ws (cum + w) Hlen ltac:(done)).
    rewrite sumZ_cons, Z.add_assoc, <- IH.
    unfold yearPixelTotalOf. cbn [yearSegMetaFrom].
    destruct ws as [|w' ws']; [done|]. done.
Qed.

(** The pixel under a date grows with the date and stays within the
    pixels of the segments. *)
Lemma yearDateLoop_px total end_ d1 d2 segs : ∀ ws cum,
  length ws = length segs → Forall (λ w, 0 ≤ w) ws → segs ≠ [] → d1 ≤ d2 →
  ∃ px1 px2 : Q,
    yearDateLoop total d1 (yearSegMetaFrom cum end_ segs ws)
    = (px1 / inject_Z (orOne total) * 100)%Q
    ∧ yearDateLoop total d2 (yearSegMetaFrom cum end_ segs ws)
      = (px2 / inject_Z (orOne total) * 100)%Q
    ∧ (inject_Z cum <= px1)%Q ∧ (px1 <= px2)%Q
    ∧ (px2 <= inject_Z (cum + sumZ ws))%Q.
Proof.
  induction segs as [|seg rest IH]; intros [|w ws] cum Hlen Hws Hne Hd; try done.
  simpl in Hlen. injection Hlen as Hlen.
  apply Forall_cons in Hws as [Hw Hws].
  assert (0 ≤ sumZ ws) as Hsum.
  { clear -Hws. induction Hws as [|x l Hx Hl IHl]; [done|]. rewrite sumZ_cons. lia. }
  cbn [yearSegMetaFrom].
  set (segEnd := match rest with nxt :: _ => seg_start nxt | [] => end_ end).
  set (tail := yearSegMetaFrom (cum + w) end_ rest ws).
  destruct (segment_px_bounds w (seg_start seg) segEnd d1 d2 Hw Hd) as (B0 & B1 & B2).
  cbv zeta in B0, B1, B2.
  rewrite sumZ_cons. rewrite !inject_Z_plus.
  assert (0 <= inject_Z (sumZ ws))%Q as Hsq
    by (change (inject_Z 0 <= inject_Z (sumZ ws))%Q; rewrite <- Zle_Qle; lia).
  cbn [yearDateLoop ym_end ym_start ym_cum ym_width].
  destruct rest as [|seg' rest'].
  - assert (tail = []) as -> by (unfold tail; by destruct ws).
    rewrite !orb_true_r.
    eexists _, _. split; [reflexivity|]. split; [reflexivity|].
    split; [lra|]. split; [lra|]. lra.
  - assert (tail ≠ []) as Htail.
    { unfold tail. intros H. apply yearSegMetaFrom_nil in H; done. }
    assert ((match tail with [] => true | _ :: _ => false end) = false) as ->
      by (by destruct tail).
    rewrite !orb_false_r.
    destruct (IH ws (cum + w) Hlen Hws ltac:(done) Hd)
      as (q1 & q2 & E1 & E2 & Q0 & Q1 & Q2).
    fold tail in E1, E2. rewrite inject_Z_plus in Q0, Q2. rewrite inject_Z_plus in Q2.
    destruct (Z.ltb_spec d1 segEnd) as [H1|H1], (Z.ltb_spec d2 segEnd) as [H2|H2].
    + eexists _, _. split; [reflexivity|]. split; [reflexivity|].
      split; [lra|]. split; [lra|]. lra.
    + eexists _, q2. split; [reflexivity|]. split; [exact E2|].
      split; [lra|]. split; [lra|]. lra.
    + lia.
    + exists q1, q2. split; [exact E1|]. split; [exact E2|].
      split; [lra|]. split; [lra|]. lra.
Qed.

(** X29. In year zoom the mapping of dates to percentages of the pixel map runs
    forwards: for widths that are not negative and sum to more than 0, a
    later date never lands before an earlier one, and every date up to the
    axis end lands from 0 to 100. *)
Theorem year_map_is_monotone (segs : list Segment) (ws : list Z) (end_ d1 d2 : Z) :
  length ws = length segs → segs ≠ [] →
  Forall (λ w, 0 ≤ w) ws → 0 < sumZ ws →
  d1 ≤ d2 → d2 ≤ end_ →
  let meta := yearSegMetaFrom 0 end_ segs ws in
  (0 <= yearDateToPct meta end_ (Some d1))%Q
  ∧ (yearDateToPct meta end_ (Some d1) <= yearDateToPct meta end_ (Some d2))%Q
  ∧ (yearDateToPct meta end_ (Some d2) <= 100)%Q.
Proof.
  intros Hlen Hne Hws Hsum Hd Hend. cbv zeta.
  pose proof (yearPixelTotalOf_sum end_ segs ws 0 Hlen Hne) as Htotal.
  set (meta := yearSegMetaFrom 0 end_ segs ws) in *.
  assert (orOne (yearPixelTotalOf meta) = sumZ ws) as Hor.
  { rewrite Htotal. unfold orOne. destruct (Z.eqb_spec (0 + sumZ ws) 0); lia. }
  assert (0 < inject_Z (sumZ ws))%Q as Hq
    by (change (inject_Z 0 < inject_Z (sumZ ws))%Q; rewrite <- Zlt_Qlt; lia).
  assert (∀ a c, a ≤ c →
            (0 <= yearDateLoop (yearPixelTotalOf meta) a meta)%Q
            ∧ (yearDateLoop (yearPixelTotalOf meta) a meta
               <= yearDateLoop (yearPixelTotalOf meta) c meta)%Q
            ∧ (yearDateLoop (yearPixelTotalOf meta) c meta <= 100)%Q) as Hloop.
  { intros a c Hac.
    destruct (yearDateLoop_px (yearPixelTotalOf meta) end_ a c segs ws 0 Hlen Hws Hne Hac)
      as (px1 & px2 & E1 & E2 & P0 & P1 & P2).
    fold meta in E1, E2. rewrite E1, E2.
    rewrite Hor. change (inject_Z 0) with 0%Q in P0.
    replace (0 + sumZ ws) with (sumZ ws) in P2 by lia.
    assert (∀ x y, (x <= y)%Q →
              (x / inject_Z (sumZ ws) * 100 <= y / inject_Z (sumZ ws) * 100)%Q) as Hmono.
    { intros x y Hxy. apply Qmult_le_compat_r; [|lra].
      apply Qmult_le_compat_r; [done|]. apply Qlt_le_weak, Qinv_lt_0_compat, Hq. }
    split; [|split].
    - eapply Qle_trans; [|apply (Hmono 0%Q px1 P0)].
      apply Qle_lteq. right. field. lra.
    - by apply Hmono.
    - eapply Qle_trans; [apply (Hmono px2 (inject_Z (sumZ ws)) P2)|].
      apply Qle_lteq. right. field. lra. }
  unfold yearDateToPct.
  destruct meta as [|m0 meta'] eqn:Em.
  { apply (f_equal length) in Em. unfold meta in Em.
    exfalso. destruct segs, ws; simpl in *; done. }
  destruct (Hloop d1 d2 Hd) as (L0 & L1 & L2).
  destruct (Z.gtb_spec d1 end_) as [?|_]; [lia|].
  destruct (Z.gtb_spec d2 end_) as [?|_]; [lia|].
  destruct (Z.ltb_spec d1 (ym_start m0)), (Z.ltb_spec d2 (ym_start m0)).
  - lra.
  - destruct (Hloop d2 d2 ltac:(lia)) as (M0 & _ & M2). lra.
  - lia.
  - lra.
Qed.

Lemma year_map_is_monotone_witness :
  Qle (yearDateToPct (yearSegMetaFrom 0 1782863999999 demoYearSegs demoYearWidths)
         1782863999999 (Some 1710000000000))
      (yearDateToPct (yearSegMetaFrom 0 1782863999999 demoYearSegs demoYearWidths)
         1782863999999 (Some 1750000000000)).
Proof.
  apply (year_map_is_monotone demoYearSegs demoYearWidths 1782863999999
           1710000000000 1750000000000);
    [reflexivity|done|repeat constructor; lia|by vm_compute|lia|lia].
Defined.

(** ** The date cells *)

Lemma append_same_length (a1 a2 r1 r2 : string) :
  String.length a1 = String.length a2 → a1 +:+ r1 = a2 +:+ r2 → a1 = a2 ∧ r1 = r2.
Proof.
  revert a2. induction a1 as [|c a1 IH]; intros [|c' a2] Hlen Heq; try done.
  simpl in Hlen, Heq. injection Hlen as Hlen. injection Heq as -> Heq.
  destruct (IH a2 Hlen Heq) as [-> ->]. done.
Qed.

(** Day and month numbers are written with exactly two characters, and
    differently for different numbers. *)
Lemma twoDigits_spec d1 d2 :
  1 ≤ d1 ≤ 31 → 1 ≤ d2 ≤ 31 →
  String.length (padStart2 (numToString d1)) = 2%nat
  ∧ (padStart2 (numToString d1) = padStart2 (numToString d2) → d1 = d2).
Proof.
  intros H1 H2.
  assert (Forall (λ a, Forall (λ c,
            String.length (padStart2 (numToString a)) = 2%nat
            ∧ (padStart2 (numToString a) = padStart2 (numToString c) → a = c))
            (seqZ 1 31)) (seqZ 1 31)) as Hall.
  { apply (bool_decide_unpack _). by vm_compute. }
  rewrite Forall_forall in Hall.
  specialize (Hall d1 ltac:(apply elem_of_seqZ; lia)).
  rewrite Forall_forall in Hall.
  apply (Hall d2). apply elem_of_seqZ. lia.
Qed.

(** X30. The text of a date cell is "Blank" for a missing date and otherwise
    day, month and year between slashes, the day and the month on two
    characters: two dates have the same text exactly when they fall on the
    same day of the calendar, and no date reads "Blank". *)
Theorem date_cell_determines_day (t1 t2 : Z) :
  formatDateDDMMYYYY None = "Blank"
  ∧ formatDateDDMMYYYY (Some t1) ≠ "Blank"
  ∧ (formatDateDDMMYYYY (Some t1) = formatDateDDMMYYYY (Some t2)
     ↔ getDate t1 = getDate t2 ∧ getMonth t1 = getMonth t2
       ∧ getFullYear t1 = getFullYear t2).
Proof.
  pose proof (getDate_range t1) as Hd1. pose proof (getDate_range t2) as Hd2.
  pose proof (getMonth_range t1) as Hm1. pose proof (getMonth_range t2) as Hm2.
  destruct (twoDigits_spec (getDate t1) (getDate t2) Hd1 Hd2) as [Ld Id].
  destruct (twoDigits_spec (getMonth t1 + 1) (getMonth t2 + 1)) as [Lm Im]; [lia|lia|].
  destruct (twoDigits_spec (getDate t2) (getDate t2) Hd2 Hd2) as [Ld2 _].
  destruct (twoDigits_spec (getMonth t2 + 1) (getMonth t2 + 1)) as [Lm2 _]; [lia|lia|].
  split; [done|]. unfold formatDateDDMMYYYY. split.
  - intros H.
    destruct (padStart2 (numToString (getDate t1))) as [|a [|c [|]]]; done.
  - split.
    + intros H.
      apply append_same_length in H as [Hd H]; [|congruence].
      apply (append_same_length "/" "/") in H as [_ H]; [|done].
      apply append_same_length in H as [Hm H]; [|congruence].
      apply (append_same_length "/" "/") in H as [_ H]; [|done].
      apply Id in Hd. apply Im in Hm.
      apply (inj pretty) in H. lia.
    + intros (-> & -> & ->). done.
Qed.
